(** * ptwrap: running a command in a pseudo-terminal

    A shallow embedding of [ptwrap.c] and the verification of its
    forwarding engine, its exit-status translation and its terminal-mode
    handling, of the calls that prepare the pseudo-terminal and the child,
    and of the ways it ends.

    The program is a sequence of libc calls.  The operating system is
    modelled by a [script]: the list of answers the calls will receive, in
    order.  Every call consumes one answer and is recorded, with its answer,
    in the [trace].  A call made when the script is empty never returns
    ([Blocked]); an answer that no POSIX system could give to the call
    ([Stuck]) ends the run as well. *)

From Stdlib Require Import Strings.Byte.
From stdpp Require Import base numbers list strings gmap.

Local Open Scope Z_scope.

(** ** The platform: what the system headers define *)

(** The macros and constants come from the system headers, not from
    [ptwrap.c]; the program is verified against any platform that obeys the
    laws below. *)
Class Platform := {
  EXIT_FAILURE : Z;
  BUFSIZ : Z;
  EINTR : Z;
  SIGWINCH : Z;
  size_bits : Z;                      (* width of size_t *)
  FD_SETSIZE : Z;                     (* <sys/select.h>: bits of an fd_set *)
  (* <sys/wait.h> *)
  WIFEXITED : Z → bool;
  WEXITSTATUS : Z → Z;
  WIFSIGNALED : Z → bool;
  WTERMSIG : Z → Z;
  (* <termios.h> *)
  BRKINT : Z; ICRNL : Z; IGNBRK : Z; IGNCR : Z; INLCR : Z;
  IXON : Z; IXOFF : Z; PARMRK : Z;
  OPOST : Z;
  ECHO : Z; ICANON : Z; IEXTEN : Z; ISIG : Z;
  VMIN : nat; VTIME : nat;
  (* laws *)
  EXIT_FAILURE_byte : 0 < EXIT_FAILURE ≤ 255;
  BUFSIZ_range : 0 < BUFSIZ < 2 ^ size_bits;
  WEXITSTATUS_range : ∀ s, 0 ≤ WEXITSTATUS s ≤ 255;
  WTERMSIG_range : ∀ s, WIFSIGNALED s = true → 0 < WTERMSIG s < 128;
  WIFSIGNALED_not_exited : ∀ s, WIFSIGNALED s = true → WIFEXITED s = false;
}.

(** ** Data *)

Definition STDIN_FILENO : Z := 0.
Definition STDOUT_FILENO : Z := 1.
Definition STDERR_FILENO : Z := 2.

(** [fd_set] and [sigset_t]: finite sets of descriptors and of signals.
    An [fd_set] is a bitmap of FD_SETSIZE bits: the set stands for it as
    long as its members lie in 0 .. FD_SETSIZE - 1 ([fits], below). *)
Abbreviation fd_set := (gset Z).
Abbreviation sigset_t := (gset Z).

Record termios := Termios {
  c_iflag : Z;
  c_oflag : Z;
  c_cflag : Z;
  c_lflag : Z;
  c_cc : list Z;
}.

Record winsize := Winsize {
  ws_row : Z;
  ws_col : Z;
  ws_xpixel : Z;
  ws_ypixel : Z;
}.

Inductive state_T := INACTIVE | READING | WRITING.

Record channel_T := Channel {
  from_fd : Z;
  to_fd : Z;
  state : state_T;
  buffer : list byte;
  buffer_position : Z;
  buffer_length : Z;
}.

#[export] Instance state_T_eq_dec : EqDecision state_T.
Proof. solve_decision. Defined.
#[export] Instance termios_eq_dec : EqDecision termios.
Proof. solve_decision. Defined.
#[export] Instance winsize_eq_dec : EqDecision winsize.
Proof. solve_decision. Defined.
#[export] Instance byte_eq_dec : EqDecision byte := Byte.byte_eq_dec.
#[export] Instance channel_T_eq_dec : EqDecision channel_T.
Proof. solve_decision. Defined.

(** ** The operating system *)

(** The libc calls of [ptwrap.c], with the arguments that matter. *)
Inductive call :=
  | fprintf_stderr (text : string)
  | perror (message : string) (error : Z)
  | sigemptyset
  | sigaddset (sig : Z)
  | sigdelset (sig : Z)
  | sigprocmask_SIG_BLOCK (set : sigset_t)
  | sigaction (sig : Z)
  | posix_openpt
  | grantpt (fd : Z)
  | unlockpt (fd : Z)
  | ptsname (fd : Z)
  | ioctl_TIOCGWINSZ (fd : Z)
  | ioctl_TIOCSWINSZ (fd : Z) (size : winsize)
  | tcgetattr (fd : Z)
  | tcsetattr_TCSADRAIN (fd : Z) (t : termios)
  | pselect (nfds : Z) (read_fds write_fds : fd_set) (mask : sigset_t)
  | read (fd : Z) (count : Z)
  | write (fd : Z) (data : list byte) (count : Z)
  | fork
  | waitpid (pid : Z)
  | close (fd : Z)
  | setsid
  | open_O_RDWR (path : string)
  | dup (fd : Z)
  | tcgetpgrp (fd : Z)
  | getpgrp
  | execvp (file : string) (argv : list string).

(** What a call answers.  [ret] is the C return value, [err] the value left
    in [errno] when the call fails. *)
Inductive response :=
  | r_void
  | r_int (ret : Z) (err : Z)
  | r_sigset (ret : Z) (err : Z) (old : sigset_t)
  | r_name (name : option string) (err : Z)
  | r_winsize (ret : Z) (err : Z) (size : winsize)
  | r_select (ret : Z) (err : Z) (read_fds write_fds : fd_set)
             (sigwinch : bool)
  | r_read (ret : Z) (err : Z) (data : list byte)
  | r_wait (ret : Z) (err : Z) (wait_status : Z).

Inductive event := Ev (c : call) (r : response).

(** The process and its environment.  [tty] holds the attributes of the
    terminal on standard input ([None]: standard input is not a terminal);
    the remaining fields after [errno] are the globals of [ptwrap.c]. *)
Record world := World {
  script : list response;
  trace : list event;
  tty : option termios;
  errno : Z;
  optind : Z;
  program_name : string;
  should_set_terminal_size : bool;
  mask_for_select : sigset_t;
  original_termios : termios;
}.

Definition with_script (s : list response) (w : world) : world :=
  World s (trace w) (tty w) (errno w) (optind w) (program_name w)
    (should_set_terminal_size w) (mask_for_select w) (original_termios w).
Definition with_trace (t : list event) (w : world) : world :=
  World (script w) t (tty w) (errno w) (optind w) (program_name w)
    (should_set_terminal_size w) (mask_for_select w) (original_termios w).
Definition with_tty (t : option termios) (w : world) : world :=
  World (script w) (trace w) t (errno w) (optind w) (program_name w)
    (should_set_terminal_size w) (mask_for_select w) (original_termios w).
Definition with_errno (e : Z) (w : world) : world :=
  World (script w) (trace w) (tty w) e (optind w) (program_name w)
    (should_set_terminal_size w) (mask_for_select w) (original_termios w).
Definition with_optind (i : Z) (w : world) : world :=
  World (script w) (trace w) (tty w) (errno w) i (program_name w)
    (should_set_terminal_size w) (mask_for_select w) (original_termios w).
Definition with_program_name (n : string) (w : world) : world :=
  World (script w) (trace w) (tty w) (errno w) (optind w) n
    (should_set_terminal_size w) (mask_for_select w) (original_termios w).
Definition with_should_set_terminal_size (b : bool) (w : world) : world :=
  World (script w) (trace w) (tty w) (errno w) (optind w) (program_name w)
    b (mask_for_select w) (original_termios w).
Definition with_mask_for_select (m : sigset_t) (w : world) : world :=
  World (script w) (trace w) (tty w) (errno w) (optind w) (program_name w)
    (should_set_terminal_size w) m (original_termios w).
Definition with_original_termios (t : termios) (w : world) : world :=
  World (script w) (trace w) (tty w) (errno w) (optind w) (program_name w)
    (should_set_terminal_size w) (mask_for_select w) t.

(** How a computation ends. *)
Inductive outcome (A : Type) :=
  | Ok (a : A) (w : world)            (* returned [a] *)
  | Exited (status : Z) (w : world)   (* called exit(status) *)
  | Aborted (w : world)               (* an assertion failed *)
  | Replaced (file : string) (argv : list string) (w : world)
                                      (* execvp succeeded *)
  | Blocked (c : call) (w : world)    (* [c] never returns *)
  | Stuck (w : world)                 (* the script is not an OS behaviour *)
  | OutOfFuel.
Arguments Ok {A}.
Arguments Exited {A}.
Arguments Aborted {A}.
Arguments Replaced {A}.
Arguments Blocked {A}.
Arguments Stuck {A}.
Arguments OutOfFuel {A}.

Definition M (A : Type) : Type := world → outcome A.

#[export] Instance M_ret : MRet M := λ A a w, Ok a w.
#[export] Instance M_bind : MBind M := λ A B f m w,
  match m w with
  | Ok a w' => f a w'
  | Exited s w' => Exited s w'
  | Aborted w' => Aborted w'
  | Replaced f a w' => Replaced f a w'
  | Blocked c w' => Blocked c w'
  | Stuck w' => Stuck w'
  | OutOfFuel => OutOfFuel
  end.

Definition gets {A} (f : world → A) : M A := λ w, Ok (f w) w.
Definition modify (f : world → world) : M unit := λ w, Ok tt (f w).
Definition exit {A} (status : Z) : M A := λ w, Exited status w.
Definition abort {A} : M A := λ w, Aborted w.
Definition stuck {A} : M A := λ w, Stuck w.

(** Makes the call [c]: takes the next answer of the script and records the
    call with it.  A failing answer ([ret < 0]) of the [int]-like calls
    leaves its error number in [errno]. *)
Definition syscall (c : call) : M response := λ w,
  match script w with
  | [] => Blocked c w
  | r :: s => Ok r (with_trace (trace w ++ [Ev c r]) (with_script s w))
  end.

(** Output on stderr: nothing is answered, nothing can fail here. *)
Definition output (c : call) : M unit :=
  modify (λ w, with_trace (trace w ++ [Ev c r_void]) w).

Definition fail_with (ret err : Z) : M unit :=
  if ret <? 0 then modify (with_errno err) else mret tt.

(** A call answering an [int]. *)
Definition sys_int (c : call) : M Z :=
  r ← syscall c;
  match r with
  | r_int ret err => fail_with ret err;; mret ret
  | _ => stuck
  end.

Definition newline : string := String (Ascii.ascii_of_nat 10) EmptyString.

Definition when (b : bool) (m : M unit) : M unit :=
  if b then m else mret tt.

Section Program.
Context `{Platform}.

(** *** The calls whose answer carries data *)

(** [ptsname]: a name, or NULL. *)
Definition sys_ptsname (fd : Z) : M (option string) :=
  r ← syscall (ptsname fd);
  match r with
  | r_name (Some name) _ => mret (Some name)
  | r_name None err => modify (with_errno err);; mret None
  | _ => stuck
  end.

Definition sys_sigprocmask (set : sigset_t) : M (Z * sigset_t) :=
  r ← syscall (sigprocmask_SIG_BLOCK set);
  match r with
  | r_sigset ret err old => fail_with ret err;; mret (ret, old)
  | _ => stuck
  end.

Definition sys_ioctl_TIOCGWINSZ (fd : Z) : M (Z * winsize) :=
  r ← syscall (ioctl_TIOCGWINSZ fd);
  match r with
  | r_winsize ret err size => fail_with ret err;; mret (ret, size)
  | _ => stuck
  end.

(** [tcgetattr(fd, p)] succeeds on a terminal only, and then copies [tty]
    to [*p]; [store] is the assignment to [*p]. *)
Definition sys_tcgetattr (fd : Z) (store : termios → world → world) : M Z :=
  r ← syscall (tcgetattr fd);
  match r with
  | r_int ret err =>
      if ret <? 0 then modify (with_errno err);; mret ret
      else
        t ← gets tty;
        match t with
        | Some t => modify (store t);; mret ret
        | None => stuck
        end
  | _ => stuck
  end.

(** [tcsetattr] succeeds on a terminal only, and then writes [tty]. *)
Definition sys_tcsetattr (fd : Z) (t : termios) : M Z :=
  r ← syscall (tcsetattr_TCSADRAIN fd t);
  match r with
  | r_int ret err =>
      if ret <? 0 then modify (with_errno err);; mret ret
      else
        t0 ← gets tty;
        match t0 with
        | Some _ => modify (with_tty (Some t));; mret ret
        | None => stuck
        end
  | _ => stuck
  end.

(** The handler of SIGWINCH. *)
Definition receive_sigwinch (w : world) : world :=
  with_should_set_terminal_size true w.

(** [pselect] waits with the signal mask [mask]: SIGWINCH can only be
    delivered, and its handler run, during the call and when [mask] does not
    block it.  On success the two sets are replaced by the ready ones. *)
Definition sys_pselect (nfds : Z) (read_fds write_fds : fd_set)
    (mask : sigset_t) : M (Z * fd_set * fd_set) :=
  r ← syscall (pselect nfds read_fds write_fds mask);
  match r with
  | r_select ret err read_fds' write_fds' sigwinch =>
      if sigwinch && bool_decide (SIGWINCH ∈ mask) then stuck
      else
        when sigwinch (modify receive_sigwinch);;
        fail_with ret err;;
        mret (if ret <? 0 then (ret, read_fds, write_fds)
              else (ret, read_fds', write_fds'))
  | _ => stuck
  end.

(** [read] delivers at most [count] bytes. *)
Definition sys_read (fd : Z) (count : Z) : M (Z * list byte) :=
  r ← syscall (read fd count);
  match r with
  | r_read ret err data =>
      if ret <? 0 then modify (with_errno err);; mret (ret, [])
      else if (ret <=? count) && (Z.of_nat (length data) =? ret)
      then mret (ret, data)
      else stuck
  | _ => stuck
  end.

(** [write] takes at most [count] bytes. *)
Definition sys_write (fd : Z) (data : list byte) (count : Z) : M Z :=
  r ← syscall (write fd data count);
  match r with
  | r_int ret err =>
      if ret <? 0 then modify (with_errno err);; mret ret
      else if ret <=? count then mret ret
      else stuck
  | _ => stuck
  end.

Definition sys_waitpid (pid : Z) : M (Z * Z) :=
  r ← syscall (waitpid pid);
  match r with
  | r_wait ret err wait_status => fail_with ret err;; mret (ret, wait_status)
  | _ => stuck
  end.

(** [execvp] returns only when it fails. *)
Definition sys_execvp (file : string) (argv : list string) : M Z :=
  r ← syscall (execvp file argv);
  match r with
  | r_int ret err =>
      if ret <? 0 then modify (with_errno err);; mret ret
      else λ w, Replaced file argv w
  | _ => stuck
  end.

(** ** ptwrap.c *)

Definition error_exit {A} (message : string) : M A :=
  name ← gets program_name;
  output (fprintf_stderr (name +:+ ": " +:+ message +:+ newline));;
  exit EXIT_FAILURE.

Definition errno_exit {A} (message : string) : M A :=
  name ← gets program_name;
  output (fprintf_stderr (name +:+ ": "));;
  e ← gets errno;
  output (perror message e);;
  exit EXIT_FAILURE.

Definition install_sigwinch_handler : M unit :=
  (* Block SIGWINCH and prepare mask_for_select *)
  r ← sys_int sigemptyset;
  if r <? 0 then errno_exit "sigemptyset" else
  let sa_mask : sigset_t := ∅ in
  r ← sys_int sigemptyset;
  if r <? 0 then errno_exit "sigemptyset" else
  modify (with_mask_for_select ∅);;
  r ← sys_int (sigaddset SIGWINCH);
  when (r <? 0) (errno_exit "sigaddset");;
  let sa_mask : sigset_t := {[SIGWINCH]} ∪ sa_mask in
  '(r, old) ← sys_sigprocmask sa_mask;
  when (r <? 0) (errno_exit "sigprocmask");;
  modify (with_mask_for_select old);;
  r ← sys_int (sigdelset SIGWINCH);
  when (r <? 0) (errno_exit "sigdelset");;
  modify (λ w, with_mask_for_select (mask_for_select w ∖ {[SIGWINCH]}) w);;
  (* Set signal handler for SIGWINCH *)
  r ← sys_int (sigaction SIGWINCH);
  when (r <? 0) (errno_exit "sigaction").

Definition set_terminal_size (fd : Z) : M unit :=
  modify (with_should_set_terminal_size false);;
  '(r, size) ← sys_ioctl_TIOCGWINSZ STDOUT_FILENO;
  if 0 <=? r then _ ← sys_int (ioctl_TIOCSWINSZ fd size); mret tt
  else mret tt.

Definition prepare_master_pseudo_terminal : M Z :=
  fd ← sys_int posix_openpt;
  when (fd <? 0) (errno_exit "cannot open master pseudo-terminal");;
  when (fd <=? STDERR_FILENO) (error_exit "stdin/stdout/stderr are not open");;
  r ← sys_int (grantpt fd);
  when (r <? 0) (errno_exit "pseudo-terminal permission not granted");;
  r ← sys_int (unlockpt fd);
  when (r <? 0) (errno_exit "pseudo-terminal permission not unlocked");;
  set_terminal_size fd;;
  mret fd.

Definition slave_pseudo_terminal_name (master_fd : Z) : M string :=
  modify (with_errno 0);;
  name ← sys_ptsname master_fd;
  match name with
  | None => errno_exit "cannot name slave pseudo-terminal"
  | Some name => mret name
  end.

Definition clear_flags (flags mask : Z) : Z := Z.land flags (Z.lnot mask).

Definition raw_termios (t : termios) : termios :=
  let iflag :=
    clear_flags (c_iflag t)
      (Z.lor BRKINT (Z.lor ICRNL (Z.lor IGNBRK (Z.lor IGNCR
        (Z.lor INLCR (Z.lor IXON (Z.lor IXOFF PARMRK))))))) in
  let oflag := clear_flags (c_oflag t) OPOST in
  let lflag :=
    clear_flags (c_lflag t)
      (Z.lor ECHO (Z.lor ICANON (Z.lor IEXTEN ISIG))) in
  let cc := <[VMIN := 1]> (c_cc t) in
  let cc := <[VTIME := 0]> cc in
  Termios iflag oflag (c_cflag t) lflag cc.

Definition disable_canonical_io : M bool :=
  r ← sys_tcgetattr STDIN_FILENO with_original_termios;
  if r <? 0 then mret false else
  original ← gets original_termios;
  let new_termios := raw_termios original in
  r ← sys_tcsetattr STDIN_FILENO new_termios;
  mret (0 <=? r).

Definition enable_canonical_io : M unit :=
  original ← gets original_termios;
  _ ← sys_tcsetattr STDIN_FILENO original;
  mret tt.

Definition with_state (s : state_T) (c : channel_T) : channel_T :=
  Channel (from_fd c) (to_fd c) s (buffer c)
    (buffer_position c) (buffer_length c).
Definition with_buffer (b : list byte) (c : channel_T) : channel_T :=
  Channel (from_fd c) (to_fd c) (state c) b
    (buffer_position c) (buffer_length c).
Definition with_buffer_position (p : Z) (c : channel_T) : channel_T :=
  Channel (from_fd c) (to_fd c) (state c) (buffer c) p (buffer_length c).
Definition with_buffer_length (l : Z) (c : channel_T) : channel_T :=
  Channel (from_fd c) (to_fd c) (state c) (buffer c) (buffer_position c) l.

(** Arithmetic of [size_t]. *)
Definition size_t (z : Z) : Z := z `mod` 2 ^ size_bits.

(** The two macros are defined for a descriptor in 0 .. FD_SETSIZE - 1
    ([fd_in_range], below) and have no defined behaviour for another one;
    [ptwrap.c] does not check the descriptors it hands to them.  The
    definitions say what the macros do where they are defined: what is
    stated of the sets that are built is stated for descriptors in range. *)
Definition FD_ISSET (fd : Z) (fds : fd_set) : bool := bool_decide (fd ∈ fds).
Definition FD_SET (fd : Z) (fds : fd_set) : fd_set := {[fd]} ∪ fds.

Definition set_fd_set (channel : channel_T) (read_fds write_fds : fd_set)
    : fd_set * fd_set :=
  match state channel with
  | INACTIVE => (read_fds, write_fds)
  | READING => (FD_SET (from_fd channel) read_fds, write_fds)
  | WRITING => (read_fds, FD_SET (to_fd channel) write_fds)
  end.

(** The bytes [&buffer[position]] of which [count] are handed to [write]. *)
Definition pending (channel : channel_T) : list byte :=
  take (Z.to_nat (size_t (buffer_length channel - buffer_position channel)))
    (drop (Z.to_nat (buffer_position channel)) (buffer channel)).

Definition process_buffer (channel : channel_T) (read_fds write_fds : fd_set)
    : M channel_T :=
  match state channel with
  | INACTIVE => mret channel
  | READING =>
      if negb (FD_ISSET (from_fd channel) read_fds) then mret channel else
      let channel := with_buffer_position 0 channel in
      '(size, data) ← sys_read (from_fd channel) BUFSIZ;
      let channel :=
        with_buffer (data ++ drop (length data) (buffer channel)) channel in
      if size <=? 0 then mret (with_state INACTIVE channel)
      else
        let channel := with_state WRITING channel in
        mret (with_buffer_length (size_t size) channel)
  | WRITING =>
      if negb (FD_ISSET (to_fd channel) write_fds) then mret channel else
      if negb (buffer_position channel <? buffer_length channel)
      then abort else
      size ← sys_write (to_fd channel) (pending channel)
               (size_t (buffer_length channel - buffer_position channel));
      if size <? 0 then mret channel (* ignore any error *) else
      let channel :=
        with_buffer_position (size_t (buffer_position channel + size))
          channel in
      if buffer_position channel =? buffer_length channel
      then mret (with_state READING channel)
      else mret channel
  end.

(** One execution of the body of the loop of [forward_all_io]. *)
Definition forward_step (master_fd : Z) (incoming outgoing : channel_T)
    : M (channel_T * channel_T) :=
  mask ← gets mask_for_select;
  (* await next IO *)
  let '(read_fds, write_fds) := set_fd_set incoming ∅ ∅ in
  let '(read_fds, write_fds) := set_fd_set outgoing read_fds write_fds in
  '(r, read_fds, write_fds) ←
    sys_pselect (master_fd + 1) read_fds write_fds mask;
  if r <? 0 then
    e ← gets errno;
    when (negb (e =? EINTR))
      (errno_exit "cannot find file descriptor to forward");;
    flag ← gets should_set_terminal_size;
    when flag (set_terminal_size master_fd);;
    mret (incoming, outgoing)
  else
    (* read to or write from buffer *)
    incoming ← process_buffer incoming read_fds write_fds;
    outgoing ← process_buffer outgoing read_fds write_fds;
    mret (incoming, outgoing).

Fixpoint forward_loop (fuel : nat) (master_fd : Z)
    (incoming outgoing : channel_T) : M (channel_T * channel_T) :=
  match fuel with
  | O => λ _, OutOfFuel
  | S fuel =>
      if decide (state outgoing ≠ INACTIVE) then
        '(incoming, outgoing) ← forward_step master_fd incoming outgoing;
        forward_loop fuel master_fd incoming outgoing
      else mret (incoming, outgoing)
  end.

(** [forward_all_io]: [incoming] and [outgoing] stand for the indeterminate
    initial contents of the two automatic variables.  Every turn of the loop
    consumes an answer, so one more turn than there are answers is
    enough. *)
Definition forward_all_io (master_fd : Z) (incoming outgoing : channel_T)
    : M (channel_T * channel_T) :=
  let incoming :=
    Channel STDIN_FILENO master_fd READING (buffer incoming)
      (buffer_position incoming) (buffer_length incoming) in
  let outgoing :=
    Channel master_fd STDOUT_FILENO READING (buffer outgoing)
      (buffer_position outgoing) (buffer_length outgoing) in
  λ w, forward_loop (S (length (script w))) master_fd incoming outgoing w.

Definition await_child (child_pid : Z) : M Z :=
  '(r, wait_status) ← sys_waitpid child_pid;
  when (negb (r =? child_pid)) (errno_exit "cannot await child process");;
  if WIFEXITED wait_status then mret (WEXITSTATUS wait_status) else
  if WIFSIGNALED wait_status then mret (Z.lor (WTERMSIG wait_status) 0x80)
  else mret EXIT_FAILURE.

Definition become_session_leader : M unit :=
  r ← sys_int setsid;
  when (r <? 0) (errno_exit "cannot create new session").

Definition prepare_slave_pseudo_terminal_fds (slave_name : string) : M unit :=
  r ← sys_int (close STDIN_FILENO);
  when (r <? 0) (errno_exit "cannot close old stdin");;
  slave_fd ← sys_int (open_O_RDWR slave_name);
  when (negb (slave_fd =? STDIN_FILENO))
    (errno_exit "cannot open slave pseudo-terminal at stdin");;
  r ← sys_int (close STDOUT_FILENO);
  when (r <? 0) (errno_exit "cannot close old stdout");;
  r ← sys_int (dup slave_fd);
  when (negb (r =? STDOUT_FILENO))
    (errno_exit "cannot open slave pseudo-terminal at stdout");;
  r ← sys_int (close STDERR_FILENO);
  when (r <? 0) (errno_exit "cannot close old stderr");;
  r ← sys_int (dup slave_fd);
  when (negb (r =? STDERR_FILENO))
    (errno_exit "cannot open slave pseudo-terminal at stderr");;
  pgrp ← sys_int (tcgetpgrp slave_fd);
  own ← sys_int getpgrp;
  when (negb (pgrp =? own))
    (error_exit "cannot become controlling process of slave pseudo-terminal").

Definition exec_command {A} (argv : list string) : M A :=
  let file := default "" (head argv) in
  _ ← sys_execvp file argv;
  errno_exit file.

(** The branch of [main] that the parent process takes after [fork]. *)
Definition parent_process (master_fd child_pid : Z)
    (stack : channel_T * channel_T) : M Z :=
  noncanon ← disable_canonical_io;
  _ ← forward_all_io master_fd stack.1 stack.2;
  exit_status ← await_child child_pid;
  when noncanon enable_canonical_io;;
  mret exit_status.

(** [main argv]: [argc] is the length of [argv].  [stack] is the
    indeterminate content of the automatic variables of [forward_all_io]. *)
Definition main (argv : list string) (stack : channel_T * channel_T) : M Z :=
  let argc := Z.of_nat (length argv) in
  if argc <=? 0 then exit EXIT_FAILURE else
  modify (with_program_name (default "" (head argv)));;
  modify (with_optind 1);;
  i ← gets optind;
  when ((i <? argc) && bool_decide (argv !! Z.to_nat i = Some "--"))
    (modify (with_optind (i + 1)));;
  i ← gets optind;
  when (i =? argc) (error_exit "operand missing");;
  install_sigwinch_handler;;
  master_fd ← prepare_master_pseudo_terminal;
  slave_name ← slave_pseudo_terminal_name master_fd;
  child_pid ← sys_int fork;
  when (child_pid <? 0) (errno_exit "cannot spawn child process");;
  if 0 <? child_pid then
    (* parent process *)
    parent_process master_fd child_pid stack
  else
    (* child process *)
    _ ← sys_int (close master_fd);
    become_session_leader;;
    prepare_slave_pseudo_terminal_fds slave_name;;
    i ← gets optind;
    exec_command (drop (Z.to_nat i) argv).

End Program.

(** ** glibc on Linux (x86-64) *)

(** <bits/waitstatus.h>, <bits/termios-*.h>, <stdio.h>, <errno.h>. *)
Module Linux.
Definition WTERMSIG (s : Z) : Z := Z.land s 0x7f.
Definition WEXITSTATUS (s : Z) : Z := Z.shiftr (Z.land s 0xff00) 8.
Definition WIFEXITED (s : Z) : bool := WTERMSIG s =? 0.
(* ((signed char) ((s & 0x7f) + 1) >> 1) > 0 *)
Definition WIFSIGNALED (s : Z) : bool :=
  let c := Z.land s 0x7f + 1 in
  let c := if 128 <=? c then c - 256 else c in
  0 <? Z.shiftr c 1.
(* The status word of a child that called exit(code), or that was killed
   by the signal sig. *)
Definition W_EXITCODE (code sig : Z) : Z := Z.lor (Z.shiftl code 8) sig.
End Linux.

#[export] Instance linux : Platform := {|
  EXIT_FAILURE := 1;
  BUFSIZ := 8192;
  EINTR := 4;
  SIGWINCH := 28;
  size_bits := 64;
  FD_SETSIZE := 1024;
  WIFEXITED := Linux.WIFEXITED;
  WEXITSTATUS := Linux.WEXITSTATUS;
  WIFSIGNALED := Linux.WIFSIGNALED;
  WTERMSIG := Linux.WTERMSIG;
  BRKINT := 0x2; ICRNL := 0x100; IGNBRK := 0x1; IGNCR := 0x80;
  INLCR := 0x40; IXON := 0x400; IXOFF := 0x1000; PARMRK := 0x8;
  OPOST := 0x1;
  ECHO := 0x8; ICANON := 0x2; IEXTEN := 0x8000; ISIG := 0x1;
  VMIN := 6; VTIME := 5;
  EXIT_FAILURE_byte := ltac:(lia);
  BUFSIZ_range := ltac:(done);
  WEXITSTATUS_range := ltac:(
    intros s; unfold Linux.WEXITSTATUS; rewrite Z.shiftr_land;
    replace (Z.land (Z.shiftr s 8) (Z.shiftr 0xff00 8))
      with (Z.shiftr s 8 `mod` 256)
      by (symmetry; apply (Z.land_ones (Z.shiftr s 8) 8); lia);
    pose proof (Z.mod_pos_bound (Z.shiftr s 8) 256); lia);
  WTERMSIG_range := ltac:(
    intros s; unfold Linux.WIFSIGNALED, Linux.WTERMSIG; cbv zeta;
    replace (Z.land s 0x7f) with (s `mod` 128)
      by (symmetry; apply (Z.land_ones s 7); lia);
    pose proof (Z.mod_pos_bound s 128);
    destruct (Z.eq_dec (s `mod` 128) 0) as [->|]; [done|lia]);
  WIFSIGNALED_not_exited := ltac:(
    intros s; unfold Linux.WIFSIGNALED, Linux.WIFEXITED, Linux.WTERMSIG;
    cbv zeta; destruct (Z.eqb_spec (Z.land s 0x7f) 0) as [->|]; done);
|}.

(** ** Vocabulary of the statements *)

(** The world after call [c] was answered [r]. *)
Definition answered (c : call) (r : response) (w : world) : world :=
  with_trace (trace w ++ [Ev c r]) (with_script (tail (script w)) w).

(** The events a run has recorded when it ends. *)
Definition events_of {A} (o : outcome A) : list event :=
  match o with
  | Ok _ w | Exited _ w | Aborted w | Replaced _ _ w | Blocked _ w
  | Stuck w => trace w
  | OutOfFuel => []
  end.

Definition is_channel_io (e : event) : bool :=
  match e with
  | Ev (read _ _) _ | Ev (write _ _ _) _ => true
  | _ => false
  end.

Definition is_tcsetattr (e : event) : bool :=
  match e with
  | Ev (tcsetattr_TCSADRAIN _ _) _ => true
  | _ => false
  end.

Definition is_posix_openpt (e : event) : bool :=
  match e with
  | Ev posix_openpt _ => true
  | _ => false
  end.

Definition is_stderr_output (e : event) : bool :=
  match e with
  | Ev (fprintf_stderr _) _ | Ev (perror _ _) _ => true
  | _ => false
  end.

(** The calls of the forwarding loop and of the wait for the child. *)
Definition is_forwarding_call (c : call) : bool :=
  match c with
  | ioctl_TIOCGWINSZ _ | ioctl_TIOCSWINSZ _ _ | pselect _ _ _ _
  | read _ _ | write _ _ _ | waitpid _ => true
  | _ => false
  end.

(** The world in which a run ends. *)
Definition final {A} (o : outcome A) : option world :=
  match o with
  | Ok _ w | Exited _ w | Aborted w | Replaced _ _ w | Blocked _ w
  | Stuck w => Some w
  | OutOfFuel => None
  end.

(** [respects R m]: however [m] ends, the worlds before and after are
    related by [R]. *)
Definition respects (R : relation world) {A} (m : M A) : Prop :=
  ∀ w w', final (m w) = Some w' → R w w'.

(** The terminal is left alone: its attributes and their saved copy are
    what they were, and no answer was added to the script. *)
Definition terminal_kept (w w' : world) : Prop :=
  tty w' = tty w
  ∧ original_termios w' = original_termios w
  ∧ (length (script w') ≤ length (script w))%nat.

(** The trace has grown by events that satisfy [P]. *)
Definition emitted (P : event → Prop) (w w' : world) : Prop :=
  ∃ evs, trace w' = trace w ++ evs ∧ Forall P evs.

(** The ways a run ends, and the computations that never end in one. *)
Inductive kind :=
  kOk | kExited | kAborted | kReplaced | kBlocked | kStuck | kOutOfFuel.

Definition kind_of {A} (o : outcome A) : kind :=
  match o with
  | Ok _ _ => kOk
  | Exited _ _ => kExited
  | Aborted _ => kAborted
  | Replaced _ _ _ => kReplaced
  | Blocked _ _ => kBlocked
  | Stuck _ => kStuck
  | OutOfFuel => kOutOfFuel
  end.

Definition never (k : kind) {A} (m : M A) : Prop :=
  ∀ w, kind_of (m w) ≠ k.

Section Vocabulary.
Context `{Platform}.

(** What holds of a channel whenever [process_buffer] looks at it: the
    offsets of a WRITING channel lie inside what was read. *)
Definition channel_ok (channel : channel_T) : Prop :=
  state channel = WRITING →
  0 ≤ buffer_position channel < buffer_length channel
  ∧ buffer_length channel ≤ BUFSIZ.

(** One call of [process_buffer] that returns. *)
Inductive channel_step (channel channel' : channel_T) : Prop :=
  | channel_step_intro read_fds write_fds w w' :
      process_buffer channel read_fds write_fds w = Ok channel' w' →
      channel_step channel channel'.

(** The state in which [forward_all_io] creates a channel: READING, the
    buffer and the two offsets indeterminate. *)
Definition channel_initial (channel : channel_T) : Prop :=
  state channel = READING.

Definition channel_reachable (channel : channel_T) : Prop :=
  ∃ channel0, channel_initial channel0 ∧ rtc channel_step channel0 channel.

(** The two sets that one turn of the loop of [forward_all_io] hands to
    [pselect]. *)
Definition wait_sets (incoming outgoing : channel_T) : fd_set * fd_set :=
  let '(read_fds, write_fds) := set_fd_set incoming ∅ ∅ in
  set_fd_set outgoing read_fds write_fds.

(** The descriptors that an [fd_set] has a bit for: those for which
    [FD_SET] is defined. *)
Definition fd_in_range (fd : Z) : Prop := 0 ≤ fd < FD_SETSIZE.

(** The set is one that the bitmap can hold. *)
Definition fits (fds : fd_set) : Prop := ∀ fd, fd ∈ fds → fd_in_range fd.

(** The descriptor that the channel hands to [FD_SET] in [set_fd_set], if
    it hands it one, is in range. *)
Definition registers_in_range (channel : channel_T) : Prop :=
  match state channel with
  | INACTIVE => True
  | READING => fd_in_range (from_fd channel)
  | WRITING => fd_in_range (to_fd channel)
  end.

(** What the loop of [forward_all_io master_fd] hands to a [pselect]: the
    registrations of an incoming channel from standard input to the master
    and of an outgoing channel from the master to standard output, in sets
    that the bitmaps can hold and whose members are below [nfds]. *)
Definition loop_wait (master_fd : Z) (e : event) : Prop :=
  match e with
  | Ev (pselect nfds read_fds write_fds _) _ =>
      nfds = master_fd + 1
      ∧ nfds ≤ FD_SETSIZE
      ∧ fits read_fds ∧ fits write_fds
      ∧ (∀ fd, fd ∈ read_fds ∪ write_fds → fd < nfds)
      ∧ ∃ incoming outgoing,
          from_fd incoming = STDIN_FILENO ∧ to_fd incoming = master_fd
          ∧ from_fd outgoing = master_fd ∧ to_fd outgoing = STDOUT_FILENO
          ∧ registers_in_range incoming ∧ registers_in_range outgoing
          ∧ read_fds = (wait_sets incoming outgoing).1
          ∧ write_fds = (wait_sets incoming outgoing).2
  | _ => True
  end.

(** The exit status translated from a wait status, as section 4.6 of the
    specification words it. *)
Definition translated_status (wait_status : Z) : Z :=
  if WIFEXITED wait_status then WEXITSTATUS wait_status
  else if WIFSIGNALED wait_status then Z.lor (WTERMSIG wait_status) 0x80
  else EXIT_FAILURE.

End Vocabulary.

(** *** The bytes that flow through a descriptor *)

(** The bytes that the successful reads of [evs] took from [fd], in order. *)
Definition read_from (fd : Z) (evs : list event) : list byte :=
  flat_map
    (λ e, match e with
          | Ev (read fd' _) (r_read n _ data) =>
              if (fd' =? fd) && (0 <=? n) then data else []
          | _ => []
          end) evs.

(** The bytes that the successful writes of [evs] gave to [fd], in order:
    of the bytes handed to a write, the first [n] when it answers [n]. *)
Definition written_to (fd : Z) (evs : list event) : list byte :=
  flat_map
    (λ e, match e with
          | Ev (write fd' data _) (r_int n _) =>
              if (fd' =? fd) && (0 <=? n) then take (Z.to_nat n) data else []
          | _ => []
          end) evs.

Section Flow.
Context `{Platform}.

(** The bytes a channel has read and not yet written. *)
Definition unsent (channel : channel_T) : list byte :=
  match state channel with
  | WRITING => pending channel
  | _ => []
  end.

(** The buffer of a channel is the array of BUFSIZ bytes it was declared
    as. *)
Definition buffer_sized (channel : channel_T) : Prop :=
  Z.of_nat (length (buffer channel)) = BUFSIZ.

(** How a fatal exit looks: the last output is a message that starts with
    the name of the program, written by [error_exit] or by [errno_exit]. *)
Definition diagnostic (w : world) : Prop :=
  (∃ calls message,
     trace w =
       calls ++
       [Ev (fprintf_stderr
              (program_name w +:+ ": " +:+ message +:+ newline)) r_void])
  ∨ (∃ calls message,
       trace w =
         calls ++
         [Ev (fprintf_stderr (program_name w +:+ ": ")) r_void;
          Ev (perror message (errno w)) r_void]).

(** [diagnosed m]: [m] does not change the name of the program, and when
    it exits, it exits with EXIT_FAILURE after a diagnostic. *)
Definition diagnosed {A} (m : M A) : Prop :=
  ∀ w,
    match m w with
    | Ok _ w' => program_name w' = program_name w
    | Exited s w' =>
        s = EXIT_FAILURE ∧ program_name w' = program_name w ∧ diagnostic w'
    | _ => True
    end.

(** [evs] read and wrote nothing of channel [a]. *)
Definition untouched (a : channel_T) (evs : list event) : Prop :=
  read_from (from_fd a) evs = [] ∧ written_to (to_fd a) evs = [].

(** What [evs] did to a channel that was [a] and is [b]: the bytes [a] had
    still to send, followed by those read from its source, are those
    written to its destination, followed by those [b] has still to send. *)
Definition moved (a b : channel_T) (evs : list event) : Prop :=
  unsent a ++ read_from (from_fd a) evs
  = written_to (to_fd a) evs ++ unsent b.

(** A read asks for as much as the buffer holds; a write is handed bytes
    that lie inside the buffer, as many as it is asked to write. *)
Definition in_buffer (e : event) : Prop :=
  match e with
  | Ev (read _ count) _ => count = BUFSIZ
  | Ev (write _ data count) _ =>
      Z.of_nat (length data) = count ∧ 0 < count ≤ BUFSIZ
  | _ => True
  end.

End Flow.

(** *** Calls and their answers *)

Definition call_of (e : event) : call := match e with Ev c _ => c end.

(** The C value a call returned, for the calls that return an [int]. *)
Definition ret_of (e : event) : Z :=
  match e with
  | Ev _ (r_int ret _) | Ev _ (r_sigset ret _ _) | Ev _ (r_winsize ret _ _)
  | Ev _ (r_select ret _ _ _ _) | Ev _ (r_read ret _ _)
  | Ev _ (r_wait ret _ _) => ret
  | Ev _ (r_name _ _) | Ev _ r_void => 0
  end.

Definition answer_of (e : event) : call * Z := (call_of e, ret_of e).

(** The variables of the program and the terminal are what they were. *)
Definition same_globals (w w' : world) : Prop :=
  optind w' = optind w
  ∧ program_name w' = program_name w
  ∧ should_set_terminal_size w' = should_set_terminal_size w
  ∧ mask_for_select w' = mask_for_select w
  ∧ original_termios w' = original_termios w
  ∧ tty w' = tty w.

(** [staged m]: [m] does not replace the process image, and when it returns
    it has not moved [optind] and has only added to the trace. *)
Definition staged {A} (m : M A) : Prop :=
  ∀ w,
    match m w with
    | Ok _ w' => optind w' = optind w ∧ ∃ calls, trace w' = trace w ++ calls
    | Replaced _ _ _ => False
    | _ => True
    end.

(** *** The signal mask of the waits *)

Definition is_pselect (e : event) : bool :=
  match e with
  | Ev (pselect _ _ _ _) _ => true
  | _ => false
  end.

(** The signal mask of a wait satisfies [P]. *)
Definition waits_with (P : sigset_t → Prop) (e : event) : Prop :=
  match e with
  | Ev (pselect _ _ _ mask) _ => P mask
  | _ => True
  end.

(** [mask_for_select] is what it was, and was the mask of every wait. *)
Definition waits_kept (w w' : world) : Prop :=
  mask_for_select w' = mask_for_select w
  ∧ emitted (waits_with (λ mask, mask = mask_for_select w)) w w'.

(** *** Raw mode *)

Section RawFlags.
Context `{Platform}.

(** The flags that [disable_canonical_io] clears. *)
Definition raw_iflags : list Z :=
  [BRKINT; ICRNL; IGNBRK; IGNCR; INLCR; IXON; IXOFF; PARMRK].
Definition raw_lflags : list Z := [ECHO; ICANON; IEXTEN; ISIG].

(** [after] is [before] with the bits of [flags] cleared: a bit of [after]
    is set exactly when it is set in [before] and in none of [flags]. *)
Definition cleared_of (flags : list Z) (before after : Z) : Prop :=
  ∀ i, 0 ≤ i →
    Z.testbit after i
    = Z.testbit before i && negb (existsb (λ f, Z.testbit f i) flags).

End RawFlags.

(** ** Concrete runs *)

Module Run.

Definition cooked : termios :=
  Termios 0x500 0x5 0xbf 0x8a3b (replicate 32 0).

Definition junk : channel_T := Channel 7 7 INACTIVE [] 99 3.

Definition start (tty : option termios) (script : list response) : world :=
  World script [] tty 0 0 "" false ∅ (Termios 0 0 0 0 []).

Definition ok : response := r_int 0 0.

(** Up to and including [fork], answered with the child's pid 100: the
    signal handler is installed, the master is descriptor 3. *)
Definition setup : list response :=
  [ok; ok; ok; r_sigset 0 0 ∅; ok; ok; r_int 3 0; ok; ok;
   r_winsize 0 0 (Winsize 24 80 0 0); ok; r_name (Some "/dev/pts/5") 0;
   r_int 100 0].

(** The child prints "hi" and exits; the master then reads EIO. *)
Definition forwarding : list response :=
  [r_select 1 0 {[3]} ∅ false; r_read 2 0 ["h"%byte; "i"%byte];
   r_select 1 0 ∅ {[1]} false; r_int 2 0;
   r_select 1 0 {[3]} ∅ false; r_read (-1) 5 []].

(** A channel that has read "hi" and written nothing of it yet. *)
Definition writing : channel_T :=
  Channel 3 1 WRITING ["h"%byte; "i"%byte] 0 2.

Definition reading : channel_T := Channel 3 1 READING [] 0 0.

(** Up to [fork]: the handler is installed with SIGINT (2) blocked before,
    the master is descriptor 3, the slave is /dev/pts/5. *)
Definition before_fork : list response :=
  [ok; ok; ok; r_sigset 0 0 {[2; 28]}; ok; ok; r_int 3 0; ok; ok;
   r_winsize 0 0 (Winsize 24 80 0 0); ok; r_name (Some "/dev/pts/5") 0].

(** The child: [fork] answers 0, the slave becomes descriptors 0, 1 and 2,
    the process group 100 is in the foreground, [execvp] succeeds. *)
Definition child : list response :=
  before_fork ++
  [r_int 0 0; ok; r_int 100 0; ok; r_int 0 0; ok; r_int 1 0; ok; r_int 2 0;
   r_int 100 0; r_int 100 0; ok].

(** The parent: standard input is no terminal; the window changes during
    the first wait; the child prints "hi" and exits with status 3, the
    master then reads EIO. *)
Definition parent : list response :=
  before_fork ++
  [r_int 100 0; r_int (-1) 25;
   r_select (-1) 4 ∅ ∅ true; r_winsize 0 0 (Winsize 50 132 0 0); ok;
   r_select 1 0 {[3]} ∅ false; r_read 2 0 ["h"%byte; "i"%byte];
   r_select 1 0 ∅ {[1]} false; r_int 2 0;
   r_select 1 0 {[3]} ∅ false; r_read (-1) 5 [];
   r_wait 100 0 0x300].

(** "ls" is typed; the master takes "l" only; then the master reads EIO,
    and "s" is still to be sent. *)
Definition typing : list response :=
  [r_select 1 0 {[0]} ∅ false; r_read 2 0 ["l"%byte; "s"%byte];
   r_select 1 0 ∅ {[3]} false; r_int 1 0;
   r_select 1 0 {[3]} ∅ false; r_read (-1) 5 []].

(** A channel as [forward_all_io] declares it: BUFSIZ bytes, whatever they
    are. *)
Definition blank : channel_T :=
  Channel 7 7 INACTIVE (replicate (Z.to_nat 8192) "000"%byte) 99 3.

(** No pseudo-terminal is left: [posix_openpt] fails with ENOSPC. *)
Definition no_pty : list response :=
  [ok; ok; ok; r_sigset 0 0 ∅; ok; ok; r_int (-1) 28].

End Run.

(** ** The monad and the calls *)

Ltac unfold_M :=
  repeat progress
    unfold mbind, M_bind, mret, M_ret, modify, gets, exit, abort, stuck,
      when, fail_with, output in *.

(** Case analysis of a run given as a hypothesis. *)
Ltac run_cases :=
  repeat (case_match; simplify_eq/=).

(** Turns the boolean comparisons of the hypotheses into propositions. *)
Ltac Z_bools :=
  repeat match goal with
  | H : (_ <? _) = true |- _ => apply Z.ltb_lt in H
  | H : (_ <? _) = false |- _ => apply Z.ltb_ge in H
  | H : (_ <=? _) = true |- _ => apply Z.leb_le in H
  | H : (_ <=? _) = false |- _ => apply Z.leb_gt in H
  | H : (_ =? _) = true |- _ => apply Z.eqb_eq in H
  | H : (_ =? _) = false |- _ => apply Z.eqb_neq in H
  end.

Lemma bind_Ok {A B} (m : M A) (f : A → M B) w b w' :
  (m ≫= f) w = Ok b w' → ∃ a w1, m w = Ok a w1 ∧ f a w1 = Ok b w'.
Proof.
  unfold mbind, M_bind. destruct (m w) as [a w1| | | | | |] eqn:E;
    try discriminate.
  intros Hf. by exists a, w1.
Qed.

Lemma bind_run {A B} (m : M A) (f : A → M B) w a w1 :
  m w = Ok a w1 → (m ≫= f) w = f a w1.
Proof. unfold mbind, M_bind. by intros ->. Qed.

Lemma bind_Exited {A B} (m : M A) (f : A → M B) w s w1 :
  m w = Exited s w1 → (m ≫= f) w = Exited s w1.
Proof. unfold mbind, M_bind. by intros ->. Qed.

Lemma syscall_answered c r rest w :
  script w = r :: rest → syscall c w = Ok r (answered c r w).
Proof. intros E. unfold syscall, answered. by rewrite E. Qed.

Lemma syscall_blocked c w : script w = [] → syscall c w = Blocked c w.
Proof. intros E. unfold syscall. by rewrite E. Qed.

Section Channel.
Context `{Platform}.

Lemma size_t_small z : 0 ≤ z ≤ BUFSIZ → size_t z = z.
Proof.
  intros Hz. unfold size_t. pose proof BUFSIZ_range. apply Z.mod_small. lia.
Qed.

Lemma sys_read_answered fd count n e data rest w :
  script w = r_read n e data :: rest →
  sys_read fd count w =
    let w1 := answered (read fd count) (r_read n e data) w in
    if n <? 0 then Ok (n, []) (with_errno e w1)
    else if (n <=? count) && (Z.of_nat (length data) =? n)
    then Ok (n, data) w1 else Stuck w1.
Proof.
  intros E. unfold sys_read. rewrite (bind_run _ _ _ _ _ (syscall_answered _ _ _ _ E)).
  cbv zeta. by repeat case_match.
Qed.

Lemma sys_write_answered fd data count n e rest w :
  script w = r_int n e :: rest →
  sys_write fd data count w =
    let w1 := answered (write fd data count) (r_int n e) w in
    if n <? 0 then Ok n (with_errno e w1)
    else if n <=? count then Ok n w1 else Stuck w1.
Proof.
  intros E. unfold sys_write. rewrite (bind_run _ _ _ _ _ (syscall_answered _ _ _ _ E)).
  cbv zeta. by repeat case_match.
Qed.

(** [process_buffer] on a channel that is WRITING and whose destination is
    ready: the assertion holds and [write] is called on the pending bytes. *)
Lemma process_buffer_writing channel read_fds write_fds w :
  channel_ok channel → state channel = WRITING →
  to_fd channel ∈ write_fds →
  process_buffer channel read_fds write_fds w =
    (size ← sys_write (to_fd channel) (pending channel)
              (buffer_length channel - buffer_position channel);
     if size <? 0 then mret channel else
     if buffer_position channel + size =? buffer_length channel
     then mret (with_state READING
                  (with_buffer_position (buffer_position channel + size)
                     channel))
     else mret (with_buffer_position (buffer_position channel + size)
                  channel)) w.
Proof.
  intros Hok Hs Hfd. destruct (Hok Hs) as [Hp Hl].
  unfold process_buffer. rewrite Hs.
  unfold FD_ISSET. rewrite bool_decide_eq_true_2 by done. cbn [negb].
  destruct (Z.ltb_spec (buffer_position channel) (buffer_length channel));
    [|lia]. cbn [negb].
  rewrite size_t_small by lia.
  unfold mbind, M_bind.
  destruct (sys_write _ _ _ w) as [size w1| | | | | |] eqn:E; try done.
  destruct (size <? 0) eqn:Hsz; [done|]. cbn [buffer_position with_buffer_position buffer_length].
  assert (size ≤ buffer_length channel - buffer_position channel) as Hle.
  { unfold sys_write, syscall in E. unfold_M. run_cases; lia. }
  rewrite size_t_small by lia. done.
Qed.

Lemma process_buffer_reading channel read_fds write_fds w :
  state channel = READING → from_fd channel ∈ read_fds →
  process_buffer channel read_fds write_fds w =
    ('(size, data) ← sys_read (from_fd channel) BUFSIZ;
     let channel :=
       with_buffer (data ++ drop (length data) (buffer channel))
         (with_buffer_position 0 channel) in
     if size <=? 0 then mret (with_state INACTIVE channel)
     else mret (with_buffer_length size (with_state WRITING channel))) w.
Proof.
  intros Hs Hfd. unfold process_buffer. rewrite Hs.
  unfold FD_ISSET. rewrite bool_decide_eq_true_2 by done. cbn [negb].
  cbn [from_fd with_buffer_position buffer]. unfold mbind, M_bind.
  destruct (sys_read _ _ w) as [[size data] w1| | | | | |] eqn:E; try done.
  destruct (size <=? 0) eqn:Hsz; [done|].
  assert (0 ≤ size ≤ BUFSIZ) as Hle.
  { unfold sys_read, syscall in E. unfold_M. run_cases; lia. }
  rewrite size_t_small by lia. done.
Qed.

Lemma process_buffer_idle channel read_fds write_fds w :
  match state channel with
  | INACTIVE => True
  | READING => from_fd channel ∉ read_fds
  | WRITING => to_fd channel ∉ write_fds
  end →
  process_buffer channel read_fds write_fds w = Ok channel w.
Proof.
  unfold process_buffer, FD_ISSET. destruct (state channel); [done| |];
    intros Hfd; by rewrite bool_decide_eq_false_2.
Qed.

Lemma process_buffer_ok channel read_fds write_fds w channel' w' :
  channel_ok channel →
  process_buffer channel read_fds write_fds w = Ok channel' w' →
  channel_ok channel'.
Proof.
  intros Hok Hrun. destruct (state channel) eqn:Hs.
  - rewrite process_buffer_idle in Hrun by (by rewrite Hs). by simplify_eq.
  - destruct (decide (from_fd channel ∈ read_fds)) as [Hfd|Hfd].
    + rewrite process_buffer_reading in Hrun by done.
      apply bind_Ok in Hrun as ([size data] & w1 & Hread & Hrun).
      unfold sys_read, syscall in Hread. unfold_M.
      run_cases; intros Hw; try discriminate; cbn; lia.
    + rewrite process_buffer_idle in Hrun by (by rewrite Hs). by simplify_eq.
  - destruct (Hok Hs) as [Hp Hl].
    destruct (decide (to_fd channel ∈ write_fds)) as [Hfd|Hfd].
    + rewrite process_buffer_writing in Hrun by done.
      apply bind_Ok in Hrun as (size & w1 & Hwrite & Hrun).
      unfold sys_write, syscall in Hwrite. unfold_M.
      run_cases; intros Hw; try discriminate; cbn; lia.
    + rewrite process_buffer_idle in Hrun by (by rewrite Hs). by simplify_eq.
Qed.

Lemma process_buffer_inactive channel read_fds write_fds w channel' w' :
  state channel = INACTIVE →
  process_buffer channel read_fds write_fds w = Ok channel' w' →
  state channel' = INACTIVE.
Proof.
  intros Hs. rewrite process_buffer_idle by (by rewrite Hs). by intros [= <- _].
Qed.

Lemma process_buffer_not_Aborted channel read_fds write_fds w w' :
  channel_ok channel →
  process_buffer channel read_fds write_fds w ≠ Aborted w'.
Proof.
  intros Hok. destruct (state channel) eqn:Hs.
  - by rewrite process_buffer_idle by (by rewrite Hs).
  - destruct (decide (from_fd channel ∈ read_fds)) as [Hfd|Hfd].
    + rewrite process_buffer_reading by done.
      unfold sys_read, syscall. unfold_M. by repeat case_match.
    + by rewrite process_buffer_idle by (by rewrite Hs).
  - destruct (decide (to_fd channel ∈ write_fds)) as [Hfd|Hfd].
    + rewrite process_buffer_writing by done.
      unfold sys_write, syscall. unfold_M. by repeat case_match.
    + by rewrite process_buffer_idle by (by rewrite Hs).
Qed.

Lemma channel_reachable_ok channel :
  channel_reachable channel → channel_ok channel.
Proof.
  intros (channel0 & Hinit & Hsteps).
  assert (channel_ok channel0) as Hok0.
  { intros Hs. unfold channel_initial in Hinit. congruence. }
  clear Hinit. induction Hsteps as [|c1 c2 c3 Hstep _ IH]; [done|].
  apply IH. destruct Hstep as [rfds wfds w w' Hrun].
  by eapply process_buffer_ok.
Qed.

Lemma process_buffer_write_failed channel read_fds write_fds w n e rest :
  channel_ok channel → state channel = WRITING →
  to_fd channel ∈ write_fds →
  script w = r_int n e :: rest → n < 0 →
  process_buffer channel read_fds write_fds w =
    Ok channel
      (with_errno e
         (answered
            (write (to_fd channel) (pending channel)
               (buffer_length channel - buffer_position channel))
            (r_int n e) w)).
Proof.
  intros Hok Hs Hfd Hscr Hn. rewrite process_buffer_writing by done.
  unfold mbind, M_bind. rewrite (sys_write_answered _ _ _ _ _ _ _ Hscr).
  cbv zeta. destruct (Z.ltb_spec n 0); [|lia].
  by destruct (Z.ltb_spec n 0); [|lia].
Qed.

(** C2. One step of [process_buffer] follows the transition table.
    INACTIVE: the channel stays as it is.  READING with the source ready:
    a read of [n > 0] bytes gives WRITING with valid length [n] and read
    offset 0, the bytes in front of the buffer; a read of 0 bytes, and a
    failed read, give INACTIVE.  WRITING with the destination ready: a
    failed write (would-block or any other error) leaves the channel as it
    is, in WRITING, and the run goes on; a write of fewer bytes than are
    pending advances the offset and stays in WRITING; a write of all the
    pending bytes gives READING. *)
Theorem process_buffer_transition_table
    (channel : channel_T) (read_fds write_fds : fd_set) (w : world) :
  channel_ok channel →
  (state channel = INACTIVE →
     process_buffer channel read_fds write_fds w = Ok channel w)
  ∧ (state channel = READING → from_fd channel ∈ read_fds →
     ∀ n e data rest, script w = r_read n e data :: rest →
       let w1 :=
         answered (read (from_fd channel) BUFSIZ) (r_read n e data) w in
       (0 < n ≤ BUFSIZ → Z.of_nat (length data) = n →
          ∃ channel',
            process_buffer channel read_fds write_fds w = Ok channel' w1
            ∧ state channel' = WRITING
            ∧ buffer_length channel' = n
            ∧ buffer_position channel' = 0
            ∧ take (length data) (buffer channel') = data)
       ∧ (n = 0 → data = [] →
          ∃ channel',
            process_buffer channel read_fds write_fds w = Ok channel' w1
            ∧ state channel' = INACTIVE)
       ∧ (n < 0 →
          ∃ channel',
            process_buffer channel read_fds write_fds w
              = Ok channel' (with_errno e w1)
            ∧ state channel' = INACTIVE))
  ∧ (state channel = WRITING → to_fd channel ∈ write_fds →
     ∀ n e rest, script w = r_int n e :: rest →
       let remaining := buffer_length channel - buffer_position channel in
       let w1 :=
         answered (write (to_fd channel) (pending channel) remaining)
           (r_int n e) w in
       (n < 0 →
          process_buffer channel read_fds write_fds w
            = Ok channel (with_errno e w1))
       ∧ (0 ≤ n < remaining →
          process_buffer channel read_fds write_fds w
            = Ok (with_buffer_position (buffer_position channel + n) channel)
                w1)
       ∧ (n = remaining →
          process_buffer channel read_fds write_fds w
            = Ok (with_state READING
                    (with_buffer_position (buffer_length channel) channel))
                w1)).
Proof.
  intros Hok. split_and!.
  - intros Hs. apply process_buffer_idle. by rewrite Hs.
  - intros Hs Hfd n e data rest Hscr w1.
    rewrite process_buffer_reading by done.
    unfold mbind, M_bind. rewrite (sys_read_answered _ _ _ _ _ _ _ Hscr).
    cbv zeta. fold w1. split_and!.
    + intros Hn Hlen.
      destruct (Z.ltb_spec n 0); [lia|].
      destruct (Z.leb_spec n BUFSIZ); [|lia].
      destruct (Z.eqb_spec (Z.of_nat (length data)) n); [|lia]. cbn [andb].
      destruct (Z.leb_spec n 0); [lia|].
      eexists. split; [done|]. cbn. split_and!; try done.
      by rewrite take_app_length.
    + intros -> ->. cbn. pose proof BUFSIZ_range.
      destruct (Z.leb_spec 0 BUFSIZ); [|lia]. cbn. by eexists.
    + intros Hn. destruct (Z.ltb_spec n 0); [|lia].
      destruct (Z.leb_spec n 0); [|lia]. by eexists.
  - intros Hs Hfd n e rest Hscr remaining w1. destruct (Hok Hs) as [Hp Hl].
    rewrite process_buffer_writing by done.
    unfold mbind, M_bind. rewrite (sys_write_answered _ _ _ _ _ _ _ Hscr).
    cbv zeta. fold remaining. fold w1. split_and!.
    + intros Hn. destruct (Z.ltb_spec n 0); [|lia].
      by destruct (Z.ltb_spec n 0); [|lia].
    + intros Hn. destruct (Z.ltb_spec n 0); [lia|].
      destruct (Z.leb_spec n remaining); [|lia].
      destruct (Z.ltb_spec n 0); [lia|].
      by destruct (Z.eqb_spec (buffer_position channel + n)
                  (buffer_length channel)); [lia|].
    + intros Hn. subst n. destruct (Z.ltb_spec remaining 0); [lia|].
      destruct (Z.leb_spec remaining remaining); [|lia].
      destruct (Z.ltb_spec remaining 0); [lia|].
      destruct (Z.eqb_spec (buffer_position channel + remaining)
                  (buffer_length channel)); [|lia].
      unfold mret, M_ret. do 3 f_equal. lia.
Qed.

(** C10. A failed write changes nothing in the channel: [process_buffer]
    returns the very channel it was given (state WRITING, buffer, read
    offset and valid length as before), having only recorded the call.  At
    the next readiness the call it makes is therefore the same [write], of
    the same bytes: none of the bytes read from the source is given up. *)
Theorem write_error_leaves_channel
    (channel : channel_T) (read_fds write_fds : fd_set) (w : world)
    (n e : Z) (rest : list response) :
  channel_ok channel →
  state channel = WRITING →
  to_fd channel ∈ write_fds →
  script w = r_int n e :: rest →
  n < 0 →
  let retry :=
    write (to_fd channel) (pending channel)
      (buffer_length channel - buffer_position channel) in
  (∃ w', process_buffer channel read_fds write_fds w = Ok channel w'
         ∧ trace w' = trace w ++ [Ev retry (r_int n e)])
  ∧ (∀ read_fds2 write_fds2 w2 r2 rest2,
       to_fd channel ∈ write_fds2 → script w2 = r2 :: rest2 →
       ∃ evs,
         events_of (process_buffer channel read_fds2 write_fds2 w2)
           = trace w2 ++ Ev retry r2 :: evs).
Proof.
  intros Hok Hs Hfd Hscr Hn retry. split.
  - exists (with_errno e (answered retry (r_int n e) w)).
    split; [|done]. by eapply process_buffer_write_failed.
  - intros read_fds2 write_fds2 w2 r2 rest2 Hfd2 Hscr2.
    rewrite process_buffer_writing by done.
    unfold sys_write. unfold mbind, M_bind.
    rewrite (syscall_answered _ _ _ _ Hscr2). fold retry.
    exists []. unfold_M. by run_cases.
Qed.

End Channel.

(** ** What the forwarding loop leaves alone *)

Lemma never_ret k {A} (a : A) : k ≠ kOk → never k (mret a : M A).
Proof. intros Hk w. cbn. congruence. Qed.

Lemma never_bind k {A B} (m : M A) (f : A → M B) :
  never k m → (∀ a, never k (f a)) → never k (m ≫= f).
Proof.
  intros Hm Hf w. specialize (Hm w). unfold mbind, M_bind.
  destruct (m w); try done. apply Hf.
Qed.

Section Never.
Context `{Platform}.
Context (k : kind) (k_Aborted : k = kAborted ∨ k = kOutOfFuel).

Ltac never_leaf :=
  intros ?; unfold syscall, errno_exit, error_exit; unfold_M;
  run_cases; cbn; destruct k_Aborted; congruence.

Lemma never_sys_pselect nfds read_fds write_fds mask :
  never k (sys_pselect nfds read_fds write_fds mask).
Proof. unfold sys_pselect. never_leaf. Qed.

Lemma never_set_terminal_size fd : never k (set_terminal_size fd).
Proof.
  unfold set_terminal_size, sys_ioctl_TIOCGWINSZ, sys_int. never_leaf.
Qed.

Lemma never_errno_exit {A} message : never k (errno_exit message : M A).
Proof. never_leaf. Qed.

Lemma never_process_buffer channel read_fds write_fds :
  channel_ok channel → never k (process_buffer channel read_fds write_fds).
Proof.
  intros Hok w. destruct (process_buffer _ _ _ w) eqn:E; cbn;
    try (destruct k_Aborted; congruence).
  - by apply process_buffer_not_Aborted in E.
  - unfold process_buffer, sys_read, sys_write, syscall in E. unfold_M.
    by repeat case_match.
Qed.

Lemma never_forward_step master_fd incoming outgoing :
  channel_ok incoming → channel_ok outgoing →
  never k (forward_step master_fd incoming outgoing).
Proof.
  intros Hin Hout. unfold forward_step.
  apply never_bind; [never_leaf|]. intros mask.
  destruct (set_fd_set incoming ∅ ∅) as [r1 w1].
  destruct (set_fd_set outgoing r1 w1) as [r2 w2].
  apply never_bind; [apply never_sys_pselect|]. intros [[r rfds] wfds].
  destruct (r <? 0).
  - apply never_bind; [never_leaf|]. intros e.
    apply never_bind.
    { unfold when. destruct (negb _); [apply never_errno_exit|never_leaf]. }
    intros _. apply never_bind; [never_leaf|]. intros flag.
    apply never_bind.
    { unfold when. destruct flag; [apply never_set_terminal_size|never_leaf]. }
    intros _. never_leaf.
  - intros w. unfold mbind, M_bind.
    destruct (process_buffer incoming _ _ w) as [i' wi| | | | | |] eqn:Ei;
      try (pose proof (never_process_buffer incoming rfds wfds Hin w) as Hn;
           by rewrite Ei in Hn).
    pose proof (never_process_buffer outgoing rfds wfds Hout wi) as Hn.
    by destruct (process_buffer outgoing _ _ wi).
Qed.

End Never.

Section Respects.
Context `{Platform}.
Context (R : relation world) `{!Reflexive R, !Transitive R}.
Hypothesis R_errno : ∀ e w, R w (with_errno e w).
Hypothesis R_flag : ∀ b w, R w (with_should_set_terminal_size b w).
Hypothesis R_call :
  ∀ c r w, is_forwarding_call c = true → R w (answered c r w).
Hypothesis R_output :
  ∀ c w, is_stderr_output (Ev c r_void) = true →
    R w (with_trace (trace w ++ [Ev c r_void]) w).

Lemma respects_Ok {A} (m : M A) w a w' :
  respects R m → m w = Ok a w' → R w w'.
Proof. intros Hm Hrun. apply Hm. by rewrite Hrun. Qed.

Lemma respects_Exited {A} (m : M A) w s w' :
  respects R m → m w = Exited s w' → R w w'.
Proof. intros Hm Hrun. apply Hm. by rewrite Hrun. Qed.

Lemma respects_ret {A} (a : A) : respects R (mret a : M A).
Proof. intros w w' [= <-]. done. Qed.

Lemma respects_bind {A B} (m : M A) (f : A → M B) :
  respects R m → (∀ a, respects R (f a)) → respects R (m ≫= f).
Proof.
  intros Hm Hf w w'. specialize (Hm w). unfold mbind, M_bind.
  destruct (m w) as [a w1| | | | | |]; try (intros; by apply Hm).
  intros Hrun. etrans; [by apply Hm|by eapply Hf].
Qed.

Lemma respects_gets {A} (f : world → A) : respects R (gets f).
Proof. intros w w' [= <-]. done. Qed.

Lemma respects_modify (f : world → world) :
  (∀ w, R w (f w)) → respects R (modify f).
Proof. intros Hf w w' [= Hw]. subst w'. apply Hf. Qed.

Lemma respects_syscall c :
  is_forwarding_call c = true → respects R (syscall c).
Proof.
  intros Hc w w'. unfold syscall.
  destruct (script w) as [|r rest] eqn:Hscr; intros [= <-]; [done|].
  replace (with_trace _ _) with (answered c r w)
    by (unfold answered; by rewrite Hscr).
  by apply R_call.
Qed.

Lemma respects_errno_exit {A} message : respects R (errno_exit message : M A).
Proof.
  intros w w'. unfold errno_exit. unfold_M. intros [= <-].
  trans (with_trace
           (trace w ++ [Ev (fprintf_stderr (program_name w +:+ ": ")) r_void])
           w); [by apply R_output|].
  by apply (R_output (perror message (errno w))).
Qed.

Lemma respects_stuck {A} : respects R (stuck : M A).
Proof. intros w w' [= <-]. done. Qed.

Lemma respects_abort {A} : respects R (abort : M A).
Proof. intros w w' [= <-]. done. Qed.

Ltac respects_tac :=
  repeat first
    [ progress unfold when, fail_with, receive_sigwinch
    | apply respects_ret
    | apply respects_gets
    | apply respects_stuck
    | apply respects_abort
    | apply respects_errno_exit
    | apply respects_syscall; done
    | apply respects_modify; first [apply R_errno | apply R_flag]
    | apply respects_bind; [|intros ?]
    | case_match ].

Lemma respects_set_terminal_size fd : respects R (set_terminal_size fd).
Proof.
  unfold set_terminal_size, sys_ioctl_TIOCGWINSZ, sys_int. respects_tac.
Qed.

Lemma respects_sys_pselect nfds read_fds write_fds mask :
  respects R (sys_pselect nfds read_fds write_fds mask).
Proof. unfold sys_pselect. respects_tac. Qed.

Lemma respects_process_buffer channel read_fds write_fds :
  respects R (process_buffer channel read_fds write_fds).
Proof. unfold process_buffer, sys_read, sys_write. respects_tac. Qed.

Lemma respects_forward_step master_fd incoming outgoing :
  respects R (forward_step master_fd incoming outgoing).
Proof.
  unfold forward_step. respects_tac;
    first [apply respects_set_terminal_size | apply respects_process_buffer].
Qed.

Lemma respects_forward_loop fuel master_fd incoming outgoing :
  respects R (forward_loop fuel master_fd incoming outgoing).
Proof.
  revert incoming outgoing. induction fuel as [|fuel IH]; intros; [done|].
  cbn [forward_loop]. case_match; [|apply respects_ret].
  apply respects_bind; [apply respects_forward_step|].
  intros [i o]. apply IH.
Qed.

Lemma respects_forward_all_io master_fd incoming outgoing :
  respects R (forward_all_io master_fd incoming outgoing).
Proof. intros w w'. apply respects_forward_loop. Qed.

Lemma respects_await_child child_pid : respects R (await_child child_pid).
Proof. unfold await_child, sys_waitpid. respects_tac. Qed.

End Respects.

Section Kept.
Context `{Platform}.

#[export] Instance terminal_kept_refl : Reflexive terminal_kept.
Proof. by intros w. Qed.

#[export] Instance terminal_kept_trans : Transitive terminal_kept.
Proof.
  intros w1 w2 w3 (? & ? & ?) (? & ? & ?). split_and!; [congruence..|lia].
Qed.

Lemma terminal_kept_call c r w : terminal_kept w (answered c r w).
Proof.
  split_and!; [done..|]. cbn. destruct (script w); cbn; lia.
Qed.

Ltac kept_tac lem :=
  apply lem; try apply _; intros;
  first [apply terminal_kept_call | done].

Lemma kept_set_terminal_size fd :
  respects terminal_kept (set_terminal_size fd).
Proof. kept_tac respects_set_terminal_size. Qed.

Lemma kept_process_buffer channel read_fds write_fds :
  respects terminal_kept (process_buffer channel read_fds write_fds).
Proof. kept_tac respects_process_buffer. Qed.

Lemma kept_forward_all_io master_fd incoming outgoing :
  respects terminal_kept (forward_all_io master_fd incoming outgoing).
Proof. kept_tac respects_forward_all_io. Qed.

Lemma kept_await_child child_pid :
  respects terminal_kept (await_child child_pid).
Proof. kept_tac respects_await_child. Qed.

#[export] Instance emitted_refl P : Reflexive (emitted P).
Proof. intros w. exists []. by rewrite app_nil_r. Qed.

#[export] Instance emitted_trans P : Transitive (emitted P).
Proof.
  intros w1 w2 w3 (evs1 & E1 & H1) (evs2 & E2 & H2). exists (evs1 ++ evs2).
  rewrite E2, E1, (assoc_L (++)). split; [done|]. by apply Forall_app.
Qed.

Lemma emitted_call (P : event → Prop) c r w :
  P (Ev c r) → emitted P w (answered c r w).
Proof. intros HP. exists [Ev c r]. split; [done|]. by constructor. Qed.

Lemma emitted_nothing (P : event → Prop) w w' :
  trace w' = trace w → emitted P w w'.
Proof. intros E. exists []. by rewrite app_nil_r. Qed.

Lemma forwarding_call_no_tcsetattr c r :
  is_forwarding_call c = true → is_tcsetattr (Ev c r) = false.
Proof. by destruct c. Qed.

Lemma emitted_output (P : event → Prop) c r w :
  P (Ev c r) → emitted P w (with_trace (trace w ++ [Ev c r]) w).
Proof. intros HP. exists [Ev c r]. split; [done|]. by constructor. Qed.

Lemma stderr_output_no_tcsetattr c r :
  is_stderr_output (Ev c r) = true → is_tcsetattr (Ev c r) = false.
Proof. by destruct c. Qed.

Ltac silent_tac :=
  intros;
  lazymatch goal with
  | |- emitted _ _ (answered _ _ _) =>
      by apply emitted_call, forwarding_call_no_tcsetattr
  | |- emitted _ _ (with_trace _ _) =>
      by apply emitted_output, stderr_output_no_tcsetattr
  | |- emitted _ _ _ => by apply emitted_nothing
  end.

Lemma silent_forward_all_io master_fd incoming outgoing :
  respects (emitted (λ e, is_tcsetattr e = false))
    (forward_all_io master_fd incoming outgoing).
Proof. apply respects_forward_all_io; try apply _; silent_tac. Qed.

Lemma silent_await_child child_pid :
  respects (emitted (λ e, is_tcsetattr e = false)) (await_child child_pid).
Proof. apply respects_await_child; try apply _; silent_tac. Qed.

(** Every turn of the loop consumes an answer. *)
Lemma sys_pselect_consumes nfds read_fds write_fds mask w x w' :
  sys_pselect nfds read_fds write_fds mask w = Ok x w' →
  (length (script w') < length (script w))%nat.
Proof.
  unfold sys_pselect, syscall. unfold_M. intros Hrun.
  run_cases; cbn; lia.
Qed.

Lemma forward_step_consumes master_fd incoming outgoing w x w' :
  forward_step master_fd incoming outgoing w = Ok x w' →
  (length (script w') < length (script w))%nat.
Proof.
  unfold forward_step. intros Hrun.
  apply bind_Ok in Hrun as (mask & w0 & [= _ <-] & Hrun).
  destruct (set_fd_set incoming ∅ ∅) as [r1 w1].
  destruct (set_fd_set outgoing r1 w1) as [r2 w2].
  apply bind_Ok in Hrun as ([[r rfds] wfds] & wa & Hsel & Hrun).
  apply sys_pselect_consumes in Hsel.
  enough (terminal_kept wa w') as (_ & _ & ?) by lia.
  destruct (r <? 0).
  - apply bind_Ok in Hrun as (e & wb & [= _ <-] & Hrun).
    apply bind_Ok in Hrun as ([] & wc & Hexit & Hrun).
    apply bind_Ok in Hrun as (flag & wd & [= _ <-] & Hrun).
    apply bind_Ok in Hrun as ([] & we & Hsize & [= _ <-]).
    assert (wc = wa) as ->.
    { unfold when, errno_exit in Hexit. unfold_M. by run_cases. }
    destruct flag;
      [exact (respects_Ok _ _ _ _ _ (kept_set_terminal_size _) Hsize)|].
    by injection Hsize as <-.
  - apply bind_Ok in Hrun as (i' & wb & Hi & Hrun).
    apply bind_Ok in Hrun as (o' & wc & Ho & [= _ <-]).
    etrans; [exact (respects_Ok _ _ _ _ _ (kept_process_buffer _ _ _) Hi)
            |exact (respects_Ok _ _ _ _ _ (kept_process_buffer _ _ _) Ho)].
Qed.

End Kept.

(** ** The forwarding loop *)

Section Loop.
Context `{Platform}.

Lemma forward_step_eq master_fd incoming outgoing w :
  forward_step master_fd incoming outgoing w =
    ('(r, read_fds, write_fds) ←
       sys_pselect (master_fd + 1) (wait_sets incoming outgoing).1
         (wait_sets incoming outgoing).2 (mask_for_select w);
     if r <? 0 then
       e ← gets errno;
       when (negb (e =? EINTR))
         (errno_exit "cannot find file descriptor to forward");;
       flag ← gets should_set_terminal_size;
       when flag (set_terminal_size master_fd);;
       mret (incoming, outgoing)
     else
       incoming ← process_buffer incoming read_fds write_fds;
       outgoing ← process_buffer outgoing read_fds write_fds;
       mret (incoming, outgoing)) w.
Proof.
  unfold forward_step, wait_sets.
  destruct (set_fd_set incoming ∅ ∅) as [r1 w1].
  by destruct (set_fd_set outgoing r1 w1) as [r2 w2].
Qed.

Lemma sys_pselect_answered nfds read_fds write_fds mask w
    ret err read_fds' write_fds' sigwinch rest :
  script w = r_select ret err read_fds' write_fds' sigwinch :: rest →
  (sigwinch = true → SIGWINCH ∉ mask) →
  sys_pselect nfds read_fds write_fds mask w =
    let w1 :=
      answered (pselect nfds read_fds write_fds mask)
        (r_select ret err read_fds' write_fds' sigwinch) w in
    let w1 := if sigwinch then receive_sigwinch w1 else w1 in
    if ret <? 0 then Ok (ret, read_fds, write_fds) (with_errno err w1)
    else Ok (ret, read_fds', write_fds') w1.
Proof.
  intros Hscr Hmask. unfold sys_pselect.
  rewrite (bind_run _ _ _ _ _ (syscall_answered _ _ _ _ Hscr)).
  destruct sigwinch; cbn [andb].
  - rewrite bool_decide_eq_false_2 by auto. unfold_M. cbv zeta.
    by destruct (ret <? 0).
  - unfold_M. cbv zeta. by destruct (ret <? 0).
Qed.

(** What a turn of the loop that returns has done. *)
Lemma forward_step_Ok master_fd incoming outgoing w incoming' outgoing' w' :
  forward_step master_fd incoming outgoing w
    = Ok (incoming', outgoing') w' →
  ∃ r read_fds write_fds wa,
    sys_pselect (master_fd + 1) (wait_sets incoming outgoing).1
      (wait_sets incoming outgoing).2 (mask_for_select w) w
      = Ok (r, read_fds, write_fds) wa
    ∧ ((r < 0 ∧ incoming' = incoming ∧ outgoing' = outgoing
        ∧ errno wa = EINTR
        ∧ when (should_set_terminal_size wa) (set_terminal_size master_fd) wa
            = Ok () w')
       ∨ (0 ≤ r ∧ ∃ wb,
            process_buffer incoming read_fds write_fds wa = Ok incoming' wb
            ∧ process_buffer outgoing read_fds write_fds wb
                = Ok outgoing' w')).
Proof.
  rewrite forward_step_eq. intros Hrun.
  apply bind_Ok in Hrun as ([[r rfds] wfds] & wa & Hsel & Hrun).
  exists r, rfds, wfds, wa. split; [done|].
  destruct (Z.ltb_spec r 0).
  - left.
    apply bind_Ok in Hrun as (e & wb & [= <- <-] & Hrun).
    apply bind_Ok in Hrun as ([] & wc & Hexit & Hrun).
    apply bind_Ok in Hrun as (flag & wd & [= <- <-] & Hrun).
    apply bind_Ok in Hrun as ([] & we & Hsize & [= <- <- <-]).
    assert (wc = wa ∧ errno wa = EINTR) as [-> ?].
    { unfold when, errno_exit in Hexit. unfold_M.
      destruct (Z.eqb_spec (errno wa) EINTR); by simplify_eq/=. }
    done.
  - right. split; [lia|].
    apply bind_Ok in Hrun as (i' & wb & Hi & Hrun).
    apply bind_Ok in Hrun as (o' & wc & Ho & [= <- <- <-]).
    by exists wb.
Qed.

Lemma forward_step_channel_ok master_fd incoming outgoing w i' o' w' :
  channel_ok incoming → channel_ok outgoing →
  forward_step master_fd incoming outgoing w = Ok (i', o') w' →
  channel_ok i' ∧ channel_ok o'.
Proof.
  intros Hi Ho (r & rfds & wfds & wa & _ & Hcases)%forward_step_Ok.
  destruct Hcases as [(_ & -> & -> & _)|(_ & wb & Hpi & Hpo)]; [done|].
  split; [exact (process_buffer_ok _ _ _ _ _ _ Hi Hpi)
         |exact (process_buffer_ok _ _ _ _ _ _ Ho Hpo)].
Qed.

Lemma forward_loop_never k fuel master_fd incoming outgoing w :
  k = kAborted ∨ k = kOutOfFuel ∧ (length (script w) < fuel)%nat →
  channel_ok incoming → channel_ok outgoing →
  kind_of (forward_loop fuel master_fd incoming outgoing w) ≠ k.
Proof.
  revert incoming outgoing w.
  induction fuel as [|fuel IH]; intros incoming outgoing w Hk Hi Ho.
  { cbn. destruct Hk as [->|[_ ?]]; [done|lia]. }
  cbn [forward_loop]. case_match; [|cbn; destruct Hk as [->|[-> _]]; done].
  unfold mbind, M_bind.
  destruct (forward_step _ _ _ w) as [[i' o'] w1| | | | | |] eqn:E.
  - destruct (forward_step_channel_ok _ _ _ _ _ _ _ Hi Ho E).
    apply forward_step_consumes in E.
    apply IH; [|done..]. destruct Hk as [->|[-> ?]]; [by left|right].
    split; [done|lia].
  - cbn. destruct Hk as [->|[-> _]]; done.
  - pose proof (never_forward_step kAborted (or_introl eq_refl) master_fd
                  incoming outgoing Hi Ho w) as Hn.
    by rewrite E in Hn.
  - cbn. destruct Hk as [->|[-> _]]; done.
  - cbn. destruct Hk as [->|[-> _]]; done.
  - cbn. destruct Hk as [->|[-> _]]; done.
  - pose proof (never_forward_step kOutOfFuel (or_intror eq_refl) master_fd
                  incoming outgoing Hi Ho w) as Hn.
    by rewrite E in Hn.
Qed.

Lemma forward_loop_Ok fuel master_fd incoming outgoing w i' o' w' :
  forward_loop fuel master_fd incoming outgoing w = Ok (i', o') w' →
  state o' = INACTIVE.
Proof.
  revert incoming outgoing w.
  induction fuel as [|fuel IH]; intros incoming outgoing w; [done|].
  cbn [forward_loop]. case_match.
  - intros ([i1 o1] & w1 & _ & Hloop)%bind_Ok. by eapply IH.
  - intros [= <- <- <-]. by destruct (decide (state outgoing = INACTIVE)).
Qed.

(** C3. The loop of [forward_all_io] ends exactly when the outgoing channel
    is INACTIVE.  With the outgoing channel INACTIVE the loop returns at
    once, whatever the state of the incoming channel; with the outgoing
    channel in another state it runs its body again, whatever the state of
    the incoming channel; and when [forward_all_io] returns, the outgoing
    channel is INACTIVE.  The loop never runs out of the turns that
    [forward_all_io] grants it. *)
Theorem forward_loop_ends_with_outgoing
    (master_fd : Z) (incoming outgoing : channel_T) :
  (∀ fuel w, state outgoing = INACTIVE →
     forward_loop (S fuel) master_fd incoming outgoing w
       = Ok (incoming, outgoing) w)
  ∧ (∀ fuel w, state outgoing ≠ INACTIVE →
     forward_loop (S fuel) master_fd incoming outgoing w
       = ('(i, o) ← forward_step master_fd incoming outgoing;
          forward_loop fuel master_fd i o) w)
  ∧ (∀ w i' o' w',
       forward_all_io master_fd incoming outgoing w = Ok (i', o') w' →
       state o' = INACTIVE)
  ∧ (∀ w, forward_all_io master_fd incoming outgoing w ≠ OutOfFuel).
Proof.
  split_and!.
  - intros fuel w Hs. cbn [forward_loop]. by case_match.
  - intros fuel w Hs. cbn [forward_loop]. by case_match.
  - intros w i' o' w'. apply forward_loop_Ok.
  - intros w Hrun. unfold forward_all_io in Hrun.
    eapply (forward_loop_never kOutOfFuel); [| | |by rewrite Hrun].
    + right. split; [done|lia].
    + by intros ?.
    + by intros ?.
Qed.

(** C6. In every state that the steps of [process_buffer] reach from the
    state in which the loop creates a channel, a WRITING channel has its
    read offset strictly below its valid length, so the assertion before
    the write holds in every step; and from an INACTIVE channel the steps
    reach INACTIVE channels only.  In [forward_all_io] itself the assertion
    never fails. *)
Theorem writing_offset_below_length :
  (∀ channel : channel_T, channel_reachable channel →
     (state channel = WRITING →
        buffer_position channel < buffer_length channel)
     ∧ (∀ read_fds write_fds w w',
          process_buffer channel read_fds write_fds w ≠ Aborted w')
     ∧ (state channel = INACTIVE →
        ∀ channel', rtc channel_step channel channel' →
          state channel' = INACTIVE))
  ∧ (∀ master_fd incoming outgoing w w',
       forward_all_io master_fd incoming outgoing w ≠ Aborted w').
Proof.
  split.
  - intros channel Hreach.
    pose proof (channel_reachable_ok _ Hreach) as Hok. split_and!.
    + intros Hs. destruct (Hok Hs). lia.
    + intros. by apply process_buffer_not_Aborted.
    + intros Hs channel' Hsteps. clear Hreach Hok.
      induction Hsteps as [|c1 c2 c3 Hstep _ IH]; [done|].
      apply IH. destruct Hstep as [rfds wfds w w' Hrun].
      by eapply process_buffer_inactive.
  - intros master_fd incoming outgoing w w' Hrun.
    unfold forward_all_io in Hrun.
    eapply (forward_loop_never kAborted); [by left| | |by rewrite Hrun];
      by intros ?.
Qed.

Lemma set_fd_set_alone channel :
  set_fd_set channel ∅ ∅ =
    match state channel with
    | INACTIVE => (∅, ∅)
    | READING => ({[from_fd channel]}, ∅)
    | WRITING => (∅, {[to_fd channel]})
    end.
Proof.
  unfold set_fd_set, FD_SET. destruct (state channel); [done|..];
    by rewrite (right_id_L ∅ (∪)).
Qed.

Lemma sys_pselect_Ok nfds read_fds write_fds mask w x wa :
  sys_pselect nfds read_fds write_fds mask w = Ok x wa →
  ∃ r, trace wa = trace w ++ [Ev (pselect nfds read_fds write_fds mask) r].
Proof.
  unfold sys_pselect, syscall. unfold_M. intros Hrun.
  run_cases; by eexists.
Qed.

Lemma wait_sets_members incoming outgoing fd :
  (fd ∈ (wait_sets incoming outgoing).1 ↔
     state incoming = READING ∧ fd = from_fd incoming
     ∨ state outgoing = READING ∧ fd = from_fd outgoing)
  ∧ (fd ∈ (wait_sets incoming outgoing).2 ↔
       state incoming = WRITING ∧ fd = to_fd incoming
       ∨ state outgoing = WRITING ∧ fd = to_fd outgoing).
Proof.
  unfold wait_sets, set_fd_set, FD_SET.
  split; destruct (state incoming), (state outgoing); cbn;
    rewrite ?elem_of_union, ?elem_of_singleton, ?elem_of_empty;
    intuition congruence.
Qed.

Lemma wait_sets_fit incoming outgoing :
  registers_in_range incoming → registers_in_range outgoing →
  fits (wait_sets incoming outgoing).1 ∧ fits (wait_sets incoming outgoing).2.
Proof.
  unfold registers_in_range. intros Hi Ho.
  split; intros fd Hfd; apply wait_sets_members in Hfd;
    destruct Hfd as [[Hs ->]|[Hs ->]]; by rewrite Hs in *.
Qed.

Lemma process_buffer_descriptors channel read_fds write_fds w channel' w' :
  process_buffer channel read_fds write_fds w = Ok channel' w' →
  from_fd channel' = from_fd channel
  ∧ to_fd channel' = to_fd channel
  ∧ emitted (λ e, is_pselect e = false) w w'.
Proof.
  unfold process_buffer, sys_read, sys_write, syscall. unfold_M.
  intros Hrun. run_cases; (split; [done|]); (split; [done|]);
    first [ by apply emitted_nothing
          | eexists [_]; split; [done|]; by repeat constructor ].
Qed.

Lemma set_terminal_size_no_wait fd w u w' :
  set_terminal_size fd w = Ok u w' →
  emitted (λ e, is_pselect e = false) w w'.
Proof.
  unfold set_terminal_size, sys_ioctl_TIOCGWINSZ, sys_int, syscall.
  unfold_M. intros Hrun. run_cases;
    first [ eexists [_]; split; [done|]; by repeat constructor
          | eexists [_; _]; split; [by rewrite <- (assoc_L (++))|];
            by repeat constructor ].
Qed.

(** A turn of the loop that returns has waited once, at its beginning, and
    has kept the descriptors of the two channels. *)
Lemma forward_step_waits_once master_fd incoming outgoing w i' o' w' :
  forward_step master_fd incoming outgoing w = Ok (i', o') w' →
  from_fd i' = from_fd incoming ∧ to_fd i' = to_fd incoming
  ∧ from_fd o' = from_fd outgoing ∧ to_fd o' = to_fd outgoing
  ∧ ∃ r evs,
      trace w' =
        trace w ++
        Ev (pselect (master_fd + 1) (wait_sets incoming outgoing).1
              (wait_sets incoming outgoing).2 (mask_for_select w)) r :: evs
      ∧ Forall (λ e, is_pselect e = false) evs.
Proof.
  intros (r & rfds & wfds & wa & Hsel & Hcases)%forward_step_Ok.
  apply sys_pselect_Ok in Hsel as [ev Hsel].
  enough (from_fd i' = from_fd incoming ∧ to_fd i' = to_fd incoming
          ∧ from_fd o' = from_fd outgoing ∧ to_fd o' = to_fd outgoing
          ∧ emitted (λ e, is_pselect e = false) wa w')
    as (? & ? & ? & ? & evs & Htr & Hevs).
  { split_and!; [done..|]. exists ev, evs. split; [|done].
    by rewrite Htr, Hsel, <- (assoc_L (++)). }
  destruct Hcases as [(_ & -> & -> & _ & Hsize)|(_ & wb & Hpi & Hpo)].
  - split_and!; [done..|]. unfold when in Hsize.
    destruct (should_set_terminal_size wa).
    + by eapply set_terminal_size_no_wait.
    + injection Hsize as <-. reflexivity.
  - apply process_buffer_descriptors in Hpi as (? & ? & ?).
    apply process_buffer_descriptors in Hpo as (? & ? & ?).
    split_and!; [done..|]. by etrans.
Qed.

Lemma forward_loop_waits fuel master_fd incoming outgoing w i' o' w' :
  STDERR_FILENO < master_fd < FD_SETSIZE →
  from_fd incoming = STDIN_FILENO → to_fd incoming = master_fd →
  from_fd outgoing = master_fd → to_fd outgoing = STDOUT_FILENO →
  forward_loop fuel master_fd incoming outgoing w = Ok (i', o') w' →
  emitted (loop_wait master_fd) w w'.
Proof.
  intros Hmaster. revert incoming outgoing w.
  induction fuel as [|fuel IH]; intros incoming outgoing w Hif Hit Hof Hot;
    [done|].
  cbn [forward_loop]. case_match; [|by intros [= <- <- <-]].
  intros ([i1 o1] & w1 & Hstep & Hloop)%bind_Ok.
  apply forward_step_waits_once in Hstep
    as (Hif1 & Hit1 & Hof1 & Hot1 & r & evs & Htr & Hevs).
  apply IH in Hloop; [|congruence..].
  etrans; [|exact Hloop]. eexists. split; [exact Htr|].
  assert (registers_in_range incoming ∧ registers_in_range outgoing)
    as [Hri Hro].
  { unfold registers_in_range, fd_in_range, STDERR_FILENO, STDIN_FILENO,
      STDOUT_FILENO in *.
    rewrite Hif, Hit, Hof, Hot. split; case_match; done || lia. }
  destruct (wait_sets_fit _ _ Hri Hro) as [Hfr Hfw].
  constructor.
  - split; [done|]. split; [lia|]. split; [done|]. split; [done|]. split.
    + intros fd [Hfd|Hfd]%elem_of_union; apply wait_sets_members in Hfd;
        unfold STDERR_FILENO, STDIN_FILENO, STDOUT_FILENO in *;
        destruct Hfd as [[_ ->]|[_ ->]]; lia.
    + by exists incoming, outgoing.
  - eapply Forall_impl; [exact Hevs|]. by intros [[] ?].
Qed.

(** C5. On every turn of the loop each channel registers its interest for
    the wait: a READING channel its source in the read set and nothing
    else, a WRITING channel its destination in the write set and nothing
    else, an INACTIVE channel nothing.  The two sets that [pselect]
    receives, in the turn that blocks in it as in the turn that returns,
    hold exactly these registrations of the two channels.  This is said
    of descriptors that an [fd_set] has a bit for, 0 ≤ fd < FD_SETSIZE:
    [FD_SET] is not defined for another one, and the sets are then ones
    that the bitmaps can hold.  In [forward_all_io] the descriptors are
    standard input, standard output and the master, and they never
    change: with the master below FD_SETSIZE, which [ptwrap.c] does not
    check, every wait of the loop is handed the registrations of its two
    channels, all below its [nfds]. *)
Theorem readiness_interest_per_channel
    (master_fd : Z) (incoming outgoing : channel_T) :
  registers_in_range incoming → registers_in_range outgoing →
  let read_fds := (wait_sets incoming outgoing).1 in
  let write_fds := (wait_sets incoming outgoing).2 in
  (∀ channel r w,
     registers_in_range channel → set_fd_set channel ∅ ∅ = (r, w) →
     (state channel = READING → r = {[from_fd channel]} ∧ w = ∅)
     ∧ (state channel = WRITING → r = ∅ ∧ w = {[to_fd channel]})
     ∧ (state channel = INACTIVE → r = ∅ ∧ w = ∅)
     ∧ (state channel ≠ INACTIVE → size r + size w = 1)%nat
     ∧ fits r ∧ fits w)
  ∧ (∀ fd, fd ∈ read_fds ↔
       state incoming = READING ∧ fd = from_fd incoming
       ∨ state outgoing = READING ∧ fd = from_fd outgoing)
  ∧ (∀ fd, fd ∈ write_fds ↔
       state incoming = WRITING ∧ fd = to_fd incoming
       ∨ state outgoing = WRITING ∧ fd = to_fd outgoing)
  ∧ fits read_fds ∧ fits write_fds
  ∧ (∀ w, script w = [] →
       forward_step master_fd incoming outgoing w
         = Blocked (pselect (master_fd + 1) read_fds write_fds
                      (mask_for_select w)) w)
  ∧ (∀ w x w', forward_step master_fd incoming outgoing w = Ok x w' →
       ∃ r evs,
         trace w' =
           trace w ++
           Ev (pselect (master_fd + 1) read_fds write_fds
                 (mask_for_select w)) r :: evs
         ∧ Forall (λ e, is_pselect e = false) evs)
  ∧ (∀ stdin_channel master_channel w i' o' w',
       STDERR_FILENO < master_fd < FD_SETSIZE →
       forward_all_io master_fd stdin_channel master_channel w
         = Ok (i', o') w' →
       ∃ evs, trace w' = trace w ++ evs ∧ Forall (loop_wait master_fd) evs).
Proof.
  intros Hincoming Houtgoing read_fds write_fds.
  destruct (wait_sets_fit _ _ Hincoming Houtgoing) as [Hfr Hfw].
  split_and!; try done.
  - intros channel r w Hrange. rewrite set_fd_set_alone.
    unfold registers_in_range in Hrange.
    destruct (state channel); intros [= <- <-]; split_and!; try done.
    + intros _. by rewrite size_singleton, size_empty.
    + by intros fd ->%elem_of_singleton.
    + intros _. by rewrite size_singleton, size_empty.
    + by intros fd ->%elem_of_singleton.
  - intros fd. apply wait_sets_members.
  - intros fd. apply wait_sets_members.
  - intros w Hscr. rewrite forward_step_eq. unfold sys_pselect.
    unfold mbind, M_bind. by rewrite syscall_blocked.
  - intros w [i' o'] w' Hrun.
    by apply forward_step_waits_once in Hrun as (_ & _ & _ & _ & Hwait).
  - intros stdin_channel master_channel w i' o' w' Hmaster Hrun.
    unfold forward_all_io in Hrun.
    by apply forward_loop_waits in Hrun.
Qed.

Ltac events_leaf :=
  eexists; split;
    [ symmetry; cbn; rewrite <- ?(assoc_L (++));
      first [apply app_nil_r | reflexivity]
    | repeat constructor ].

Lemma set_terminal_size_events fd w :
  ∃ evs, events_of (set_terminal_size fd w) = trace w ++ evs
         ∧ Forall (λ e, is_channel_io e = false) evs.
Proof.
  unfold set_terminal_size, sys_ioctl_TIOCGWINSZ, syscall. unfold_M. cbn.
  destruct (script w) as [|[] rest]; try events_leaf.
  destruct (ret <? 0), (0 <=? ret); try events_leaf.
  all: unfold sys_int, syscall; unfold_M; cbn.
  all: destruct rest as [|[] rest]; try events_leaf.
  all: destruct (_ <? 0); events_leaf.
Qed.

Lemma sys_pselect_failed nfds read_fds write_fds mask w
    ret err rfds wfds sigwinch rest :
  script w = r_select ret err rfds wfds sigwinch :: rest →
  ret < 0 →
  ∃ w1,
    trace w1 =
      trace w ++ [Ev (pselect nfds read_fds write_fds mask)
                    (r_select ret err rfds wfds sigwinch)]
    ∧ (sys_pselect nfds read_fds write_fds mask w = Stuck w1
       ∨ sys_pselect nfds read_fds write_fds mask w
           = Ok (ret, read_fds, write_fds) w1).
Proof.
  intros Hscr Hret. unfold sys_pselect.
  rewrite (bind_run _ _ _ _ _ (syscall_answered _ _ _ _ Hscr)).
  destruct (sigwinch && bool_decide _) eqn:Hmask.
  { eexists. split; [|by left]. done. }
  unfold_M. destruct (Z.ltb_spec ret 0); [|lia].
  destruct sigwinch; (eexists; split; [|by right]; done).
Qed.

(** A wait that fails is followed by no read and no write. *)
Lemma failed_wait_events master_fd incoming outgoing w
    ret err rfds wfds sigwinch rest :
  script w = r_select ret err rfds wfds sigwinch :: rest →
  ret < 0 →
  ∃ evs, events_of (forward_step master_fd incoming outgoing w)
           = trace w ++ evs
         ∧ Forall (λ e, is_channel_io e = false) evs.
Proof.
  intros Hscr Hret. rewrite forward_step_eq.
  destruct (sys_pselect_failed (master_fd + 1)
              (wait_sets incoming outgoing).1 (wait_sets incoming outgoing).2
              (mask_for_select w) w _ _ _ _ _ _ Hscr Hret)
    as (w1 & Htr & [Hsel|Hsel]);
    unfold mbind at 1, M_bind at 1; rewrite Hsel.
  { cbn. rewrite Htr. eexists. split; [done|]. by repeat constructor. }
  assert (∀ o : outcome (channel_T * channel_T),
            (∃ evs, events_of o = trace w1 ++ evs
                    ∧ Forall (λ e, is_channel_io e = false) evs) →
            ∃ evs, events_of o = trace w ++ evs
                   ∧ Forall (λ e, is_channel_io e = false) evs) as Hext.
  { intros o (evs & -> & Hevs). rewrite Htr, <- (assoc_L (++)).
    eexists. split; [done|]. by repeat constructor. }
  apply Hext. destruct (Z.ltb_spec ret 0); [|lia]. unfold_M.
  destruct (negb (errno w1 =? EINTR)).
  - unfold errno_exit. unfold_M. events_leaf.
  - destruct (should_set_terminal_size w1).
    + pose proof (set_terminal_size_events master_fd w1)
        as (evs & Hev & Hevs).
      destruct (set_terminal_size master_fd w1); exists evs; by split.
    + exists []. by rewrite app_nil_r.
Qed.

Lemma no_channel_io evs :
  Forall (λ e, is_channel_io e = false) evs →
  ¬ Exists (λ e, is_channel_io e = true) evs.
Proof.
  intros Hall Hex. apply Exists_exists in Hex as (e & He & Hio).
  rewrite Forall_forall in Hall. specialize (Hall e He). congruence.
Qed.

(** Reads and writes happen only after [pselect] has returned ready
    descriptors. *)
Lemma channel_io_after_ready_wait master_fd incoming outgoing w evs :
  events_of (forward_step master_fd incoming outgoing w) = trace w ++ evs →
  Exists (λ e, is_channel_io e = true) evs →
  ∃ ret err rfds wfds sigwinch rest,
    script w = r_select ret err rfds wfds sigwinch :: rest ∧ 0 ≤ ret.
Proof.
  intros Hev Hio. destruct (script w) as [|r rest] eqn:Hscr.
  { exfalso. revert Hev. rewrite forward_step_eq. unfold sys_pselect.
    unfold mbind, M_bind. rewrite syscall_blocked by done. cbn.
    rewrite <- (app_nil_r (trace w)) at 1. intros <-%app_inv_head.
    by apply Exists_nil in Hio. }
  assert (∀ nfds rfds wfds mask,
            evs = [Ev (pselect nfds rfds wfds mask) r] → False) as Hone.
  { intros ???? ->.
    by apply Exists_cons in Hio as [Hio|Hio%Exists_nil]. }
  destruct r; try by (exfalso; revert Hev; rewrite forward_step_eq;
    unfold sys_pselect; unfold mbind, M_bind;
    rewrite (syscall_answered _ _ _ _ Hscr); cbn;
    intros Hev%app_inv_head; eapply Hone).
  destruct (Z.ltb_spec ret 0) as [Hret|Hret]; [|by eauto 10].
  exfalso.
  destruct (failed_wait_events master_fd incoming outgoing w _ _ _ _ _ _
              Hscr Hret) as (evs' & Hev' & Hall).
  rewrite Hev in Hev'. apply app_inv_head in Hev' as ->.
  by eapply no_channel_io.
Qed.

Lemma interrupted_wait_step master_fd incoming outgoing w
    ret rfds wfds sigwinch rest :
  script w = r_select ret EINTR rfds wfds sigwinch :: rest →
  ret < 0 →
  (sigwinch = true → SIGWINCH ∉ mask_for_select w) →
  let w1 :=
    answered (pselect (master_fd + 1) (wait_sets incoming outgoing).1
                (wait_sets incoming outgoing).2 (mask_for_select w))
      (r_select ret EINTR rfds wfds sigwinch) w in
  let w2 := with_errno EINTR (if sigwinch then receive_sigwinch w1 else w1) in
  forward_step master_fd incoming outgoing w =
    (when (should_set_terminal_size w || sigwinch)
       (set_terminal_size master_fd);;
     mret (incoming, outgoing)) w2.
Proof.
  intros Hscr Hret Hmask w1 w2. rewrite forward_step_eq.
  unfold mbind at 1, M_bind at 1.
  rewrite (sys_pselect_answered _ _ _ _ _ _ _ _ _ _ _ Hscr Hmask).
  cbv zeta. fold w1. destruct (Z.ltb_spec ret 0); [|lia]. fold w2.
  destruct (Z.ltb_spec ret 0); [|lia].
  unfold mbind at 1, M_bind at 1. unfold gets at 1.
  replace (errno w2) with EINTR by done. rewrite Z.eqb_refl. cbn [negb when].
  unfold mbind at 1, M_bind at 1. unfold mret at 1, M_ret at 1.
  unfold mbind at 1, M_bind at 1. unfold gets at 1.
  replace (should_set_terminal_size w2)
    with (should_set_terminal_size w || sigwinch); [done|].
  subst w2 w1. destruct sigwinch; cbn; [by rewrite orb_true_r|].
  by rewrite orb_false_r.
Qed.

Lemma set_terminal_size_answered fd w g e size rest :
  script w = r_winsize g e size :: rest →
  set_terminal_size fd w =
    let w1 :=
      answered (ioctl_TIOCGWINSZ STDOUT_FILENO) (r_winsize g e size)
        (with_should_set_terminal_size false w) in
    if g <? 0 then Ok () (with_errno e w1)
    else (_ ← sys_int (ioctl_TIOCSWINSZ fd size); mret ()) w1.
Proof.
  intros Hscr.
  unfold set_terminal_size, sys_ioctl_TIOCGWINSZ, syscall, answered.
  unfold_M. cbn. rewrite Hscr. cbn.
  destruct (Z.ltb_spec g 0); destruct (Z.leb_spec 0 g); try lia; done.
Qed.

(** C7.  A turn of the loop whose wait is interrupted by a signal (EINTR)
    does no read and no write and leaves both channels as they are.  When
    the pending-resize flag is not set, nothing else is done.  When it is
    set (before the wait, or by the handler during it), the flag is
    cleared and the window size of standard output is asked for: if that
    succeeds the size is set on the master, if it fails nothing is set.
    The handler of SIGWINCH changes nothing but the flag.  Reads and writes
    happen only in turns whose wait returned ready descriptors. *)
Theorem interrupted_wait_does_no_channel_io
    (master_fd : Z) (incoming outgoing : channel_T) (w : world) :
  let select :=
    pselect (master_fd + 1) (wait_sets incoming outgoing).1
      (wait_sets incoming outgoing).2 (mask_for_select w) in
  (∀ evs,
     events_of (forward_step master_fd incoming outgoing w)
       = trace w ++ evs →
     Exists (λ e, is_channel_io e = true) evs →
     ∃ ret err rfds wfds sigwinch rest,
       script w = r_select ret err rfds wfds sigwinch :: rest ∧ 0 ≤ ret)
  ∧ (∀ ret rfds wfds sigwinch rest,
       let answer := r_select ret EINTR rfds wfds sigwinch in
       script w = answer :: rest → ret < 0 →
       (sigwinch = true → SIGWINCH ∉ mask_for_select w) →
       (should_set_terminal_size w || sigwinch = false →
          ∃ w', forward_step master_fd incoming outgoing w
                  = Ok (incoming, outgoing) w'
                ∧ should_set_terminal_size w' = false
                ∧ trace w' = trace w ++ [Ev select answer])
       ∧ (should_set_terminal_size w || sigwinch = true →
          ∀ g e1 size rest1, rest = r_winsize g e1 size :: rest1 →
            let get :=
              Ev (ioctl_TIOCGWINSZ STDOUT_FILENO) (r_winsize g e1 size) in
            (g < 0 →
               ∃ w', forward_step master_fd incoming outgoing w
                       = Ok (incoming, outgoing) w'
                     ∧ should_set_terminal_size w' = false
                     ∧ trace w' = trace w ++ [Ev select answer; get])
            ∧ (0 ≤ g → ∀ s e2 rest2, rest1 = r_int s e2 :: rest2 →
               ∃ w', forward_step master_fd incoming outgoing w
                       = Ok (incoming, outgoing) w'
                     ∧ should_set_terminal_size w' = false
                     ∧ trace w' =
                         trace w ++
                         [Ev select answer; get;
                          Ev (ioctl_TIOCSWINSZ master_fd size)
                            (r_int s e2)])))
  ∧ (∀ w0, receive_sigwinch w0 = with_should_set_terminal_size true w0).
Proof.
  intros select. split_and!; [apply channel_io_after_ready_wait| |done].
  intros ret rfds wfds sigwinch rest answer Hscr Hret Hmask.
  rewrite (interrupted_wait_step _ _ _ _ _ _ _ _ _ Hscr Hret Hmask).
  fold select. fold answer.
  set (w1 := answered select answer w).
  set (w2 := with_errno EINTR (if sigwinch then receive_sigwinch w1 else w1)).
  assert (trace w2 = trace w ++ [Ev select answer]) as Htr
    by (subst w2 w1; by destruct sigwinch).
  assert (script w2 = rest) as Hrest.
  { subst w2 w1. unfold answered. rewrite Hscr. by destruct sigwinch. }
  split.
  - intros Hflag. rewrite Hflag. cbn. eexists. split; [done|].
    split; [|done].
    apply orb_false_elim in Hflag as [Hf ->]. subst w2 w1. by cbn.
  - intros Hflag g e1 size rest1 -> get. rewrite Hflag. cbn [when].
    unfold mbind, M_bind.
    rewrite (set_terminal_size_answered _ _ _ _ _ _ Hrest). cbv zeta. split.
    + intros Hg. destruct (Z.ltb_spec g 0); [|lia].
      eexists. split; [done|]. split; [done|].
      replace (trace w ++ [Ev select answer; get]) with (trace w2 ++ [get])
        by (by rewrite Htr, <- (assoc_L (++))).
      done.
    + intros Hg s e2 rest2 ->. destruct (Z.ltb_spec g 0); [lia|].
      set (set := Ev (ioctl_TIOCSWINSZ master_fd size) (r_int s e2)).
      replace (trace w ++ [Ev select answer; get; set])
        with ((trace w2 ++ [get]) ++ [set])
        by (by rewrite Htr, <- !(assoc_L (++))).
      unfold sys_int, syscall. unfold_M. cbn [script answered with_trace
        with_script with_should_set_terminal_size tail].
      rewrite Hrest. cbn [tail].
      destruct (s <? 0); (eexists; split; [done|]; split; done).
Qed.

End Loop.

(** ** The exit status *)

Section Status.
Context `{Platform}.

Lemma lor_high_bit x : 0 ≤ x < 128 → Z.lor x 0x80 = x + 128.
Proof.
  intros Hx. assert (Z.land x 128 = 0) as Hland.
  { rewrite <- (Z.mod_small x (2 ^ 7)) by lia.
    rewrite <- Z.land_ones by lia. by rewrite <- Z.land_assoc, Z.land_0_r. }
  by rewrite <- Z.lxor_lor, <- Z.add_nocarry_lxor.
Qed.

Lemma await_child_answered child_pid w r e wait_status rest :
  script w = r_wait r e wait_status :: rest →
  let w1 := answered (waitpid child_pid) (r_wait r e wait_status) w in
  let w1 := if r <? 0 then with_errno e w1 else w1 in
  await_child child_pid w =
    if r =? child_pid then Ok (translated_status wait_status) w1
    else errno_exit "cannot await child process" w1.
Proof.
  intros Hscr. unfold await_child, sys_waitpid.
  unfold mbind at 1, M_bind at 1.
  rewrite (bind_run _ _ _ _ _ (syscall_answered _ _ _ _ Hscr)).
  unfold translated_status. unfold_M. cbv zeta.
  destruct (r <? 0), (r =? child_pid); cbn; try done; by repeat case_match.
Qed.







(** C8, as amended.  When [waitpid] gives [await_child] the status of a
    child killed by a signal, [await_child] returns the number of the
    signal OR'd with 0x80, which is the number plus 128 and lies between
    129 and 255.  When it gives the status of a child that exited,
    [await_child] returns the exit code; the status returned for the
    killed child differs from every such exit code below 128.  Nothing
    keeps it apart from the exit codes from 128 on. *)
Theorem signal_status_has_high_bit
    (child_pid : Z) (w : world) (e wait_status : Z) (rest : list response) :
  script w = r_wait child_pid e wait_status :: rest →
  WIFSIGNALED wait_status = true →
  ∃ status w',
    await_child child_pid w = Ok status w'
    ∧ status = Z.lor (WTERMSIG wait_status) 0x80
    ∧ status = WTERMSIG wait_status + 128
    ∧ 128 < status ≤ 255
    ∧ (∀ pid0 w0 e0 exited rest0,
         script w0 = r_wait pid0 e0 exited :: rest0 →
         WIFEXITED exited = true →
         ∃ w0',
           await_child pid0 w0 = Ok (WEXITSTATUS exited) w0'
           ∧ (WEXITSTATUS exited < 128 → WEXITSTATUS exited ≠ status)).
Proof.
  intros Hscr Hs. pose proof (WTERMSIG_range _ Hs) as Hsig.
  pose proof (lor_high_bit (WTERMSIG wait_status)) as Hlor.
  rewrite (await_child_answered _ _ _ _ _ _ Hscr). cbv zeta.
  rewrite Z.eqb_refl. unfold translated_status.
  rewrite (WIFSIGNALED_not_exited _ Hs), Hs.
  eexists _, _. split; [reflexivity|]. split; [reflexivity|].
  split; [apply Hlor; lia|]. split; [lia|].
  intros pid0 w0 e0 exited rest0 Hscr0 Hexited.
  rewrite (await_child_answered _ _ _ _ _ _ Hscr0). cbv zeta.
  rewrite Z.eqb_refl. unfold translated_status. rewrite Hexited.
  eexists. split; [reflexivity|]. lia.
Qed.

End Status.

(** ** The terminal mode *)

Section Terminal.
Context `{Platform}.

Lemma disable_canonical_io_Ok w noncanon w1 :
  disable_canonical_io w = Ok noncanon w1 →
  if noncanon then
    ∃ t, tty w = Some t ∧ original_termios w1 = t
         ∧ tty w1 = Some (raw_termios t)
  else tty w1 = tty w.
Proof.
  unfold disable_canonical_io, sys_tcgetattr, sys_tcsetattr, syscall.
  unfold_M. intros Hrun. run_cases; try done; try by eexists.
  all: exfalso; Z_bools; lia.
Qed.

Lemma enable_canonical_io_answered w t0 r e rest :
  script w = r_int r e :: rest → tty w = Some t0 →
  enable_canonical_io w =
    let w1 :=
      answered (tcsetattr_TCSADRAIN STDIN_FILENO (original_termios w))
        (r_int r e) w in
    Ok () (if r <? 0 then with_errno e w1
           else with_tty (Some (original_termios w)) w1).
Proof.
  intros Hscr Htty.
  unfold enable_canonical_io, sys_tcsetattr, syscall, answered.
  unfold_M. rewrite Hscr. cbn. destruct (r <? 0); [done|]. cbn.
  by rewrite Htty.
Qed.

(** C4, as amended.  After [disable_canonical_io] a run of the parent in
    which the forwarding loop finishes and the child is awaited ends thus.
    If raw mode was applied ([disable_canonical_io] returned true: the
    attributes were captured and the raw ones set), the saved attributes
    are set again exactly once, by the last call of the run, no other
    [tcsetattr] having been made since raw mode was applied; when that call
    succeeds, the attributes of the terminal are those of the start.  If
    raw mode was not applied, no [tcsetattr] follows and the attributes are
    those of the start.  When the loop or the wait for the child ends the
    process, nothing is restored: the process exits with the attributes
    that [disable_canonical_io] left. *)
Theorem terminal_restored_after_wait
    (master_fd child_pid : Z) (stack : channel_T * channel_T)
    (w : world) (noncanon : bool) (w1 : world) :
  disable_canonical_io w = Ok noncanon w1 →
  let quiet w2 w3 :=
    ∃ evs, trace w3 = trace w2 ++ evs
           ∧ Forall (λ e, is_tcsetattr e = false) evs in
  (∀ chans w2 code w3,
     forward_all_io master_fd stack.1 stack.2 w1 = Ok chans w2 →
     await_child child_pid w2 = Ok code w3 →
     (noncanon = true → ∀ r e rest, script w3 = r_int r e :: rest →
        ∃ t w4,
          tty w = Some t
          ∧ tty w1 = Some (raw_termios t)
          ∧ quiet w1 w3
          ∧ parent_process master_fd child_pid stack w = Ok code w4
          ∧ trace w4 =
              trace w3 ++
              [Ev (tcsetattr_TCSADRAIN STDIN_FILENO t) (r_int r e)]
          ∧ (0 ≤ r → tty w4 = tty w))
     ∧ (noncanon = false →
        parent_process master_fd child_pid stack w = Ok code w3
        ∧ quiet w1 w3
        ∧ tty w3 = tty w))
  ∧ (∀ s w2,
       forward_all_io master_fd stack.1 stack.2 w1 = Exited s w2 →
       parent_process master_fd child_pid stack w = Exited s w2
       ∧ quiet w1 w2
       ∧ tty w2 = tty w1)
  ∧ (∀ chans w2 s w3,
       forward_all_io master_fd stack.1 stack.2 w1 = Ok chans w2 →
       await_child child_pid w2 = Exited s w3 →
       parent_process master_fd child_pid stack w = Exited s w3
       ∧ quiet w1 w3
       ∧ tty w3 = tty w1).
Proof.
  intros Hdis quiet. split_and!.
  - intros chans w2 code w3 Hfwd Hwait.
    pose proof (respects_Ok _ _ _ _ _ (kept_forward_all_io _ _ _) Hfwd)
      as (Htty2 & Horig2 & _).
    pose proof (respects_Ok _ _ _ _ _ (kept_await_child _) Hwait)
      as (Htty3 & Horig3 & _).
    assert (quiet w1 w3) as Hquiet.
    { etrans; [exact (respects_Ok _ _ _ _ _
                        (silent_forward_all_io _ _ _) Hfwd)
              |exact (respects_Ok _ _ _ _ _ (silent_await_child _) Hwait)]. }
    assert (parent_process master_fd child_pid stack w
            = (when noncanon enable_canonical_io;; mret code) w3) as Hpar.
    { unfold parent_process. rewrite (bind_run _ _ _ _ _ Hdis).
      rewrite (bind_run _ _ _ _ _ Hfwd). by rewrite (bind_run _ _ _ _ _ Hwait). }
    apply disable_canonical_io_Ok in Hdis. split.
    + intros -> r e rest Hscr. destruct Hdis as (t & Ht & Horig & Hraw).
      assert (tty w3 = Some (raw_termios t)) as Htty by congruence.
      assert (original_termios w3 = t) as Ho by congruence.
      exists t. eexists. split_and!; [done..| | |].
      * rewrite Hpar. cbn [when]. unfold mbind, M_bind.
        rewrite (enable_canonical_io_answered _ _ _ _ _ Hscr Htty).
        cbv zeta. reflexivity.
      * rewrite Ho. by destruct (r <? 0).
      * intros Hr. destruct (Z.ltb_spec r 0); [lia|]. cbn. congruence.
    + intros ->. rewrite Hpar. split_and!; [done..|congruence].
  - intros s w2 Hfwd. split_and!.
    + unfold parent_process. rewrite (bind_run _ _ _ _ _ Hdis).
      by rewrite (bind_Exited _ _ _ _ _ Hfwd).
    + exact (respects_Exited _ _ _ _ _ (silent_forward_all_io _ _ _) Hfwd).
    + by pose proof (respects_Exited _ _ _ _ _
                       (kept_forward_all_io _ _ _) Hfwd) as (? & _).
  - intros chans w2 s w3 Hfwd Hwait. split_and!.
    + unfold parent_process. rewrite (bind_run _ _ _ _ _ Hdis).
      rewrite (bind_run _ _ _ _ _ Hfwd).
      by rewrite (bind_Exited _ _ _ _ _ Hwait).
    + etrans; [exact (respects_Ok _ _ _ _ _
                        (silent_forward_all_io _ _ _) Hfwd)
              |exact (respects_Exited _ _ _ _ _
                        (silent_await_child _) Hwait)].
    + pose proof (respects_Ok _ _ _ _ _ (kept_forward_all_io _ _ _) Hfwd)
        as (? & _).
      pose proof (respects_Exited _ _ _ _ _ (kept_await_child _) Hwait)
        as (? & _).
      congruence.
Qed.

End Terminal.

(** ** The command line *)

Section Usage.
Context `{Platform}.

(** C9. Invoked with no command operand, that is with its name alone or
    with its name and "--", the program writes the usage error
    "name: operand missing" on stderr and exits with EXIT_FAILURE, which is
    not zero.  It has made no call before: no answer of the script is
    consumed, and the only event of the run is the message, so that
    [posix_openpt] is never reached. *)
Theorem no_operand_is_usage_error
    (name : string) (stack : channel_T * channel_T) (w : world) :
  let report :=
    Ev (fprintf_stderr (name +:+ ": " +:+ "operand missing" +:+ newline))
      r_void in
  (∀ argv, argv = [name] ∨ argv = [name; "--"] →
     ∃ w', main argv stack w = Exited EXIT_FAILURE w'
           ∧ trace w' = trace w ++ [report]
           ∧ script w' = script w)
  ∧ 0 < EXIT_FAILURE ≤ 255
  ∧ is_stderr_output report = true
  ∧ is_posix_openpt report = false.
Proof.
  intros report.
  split; [|split; [apply EXIT_FAILURE_byte|by split]].
  intros argv [->| ->]; unfold main, error_exit; unfold_M; cbn;
    by eexists.
Qed.

End Usage.

(** ** The bytes forwarded *)

Lemma read_from_app fd evs1 evs2 :
  read_from fd (evs1 ++ evs2) = read_from fd evs1 ++ read_from fd evs2.
Proof. apply flat_map_app. Qed.

Lemma written_to_app fd evs1 evs2 :
  written_to fd (evs1 ++ evs2) = written_to fd evs1 ++ written_to fd evs2.
Proof. apply flat_map_app. Qed.

Lemma no_channel_io_no_bytes fd evs :
  Forall (λ e, is_channel_io e = false) evs →
  read_from fd evs = [] ∧ written_to fd evs = [].
Proof.
  induction 1 as [|[c r] evs Hio _ [IHr IHw]]; [done|].
  unfold read_from, written_to in *. cbn [flat_map]. rewrite IHr, IHw.
  by destruct c.
Qed.

Section Forwarded.
Context `{Platform}.

Lemma sys_read_Ok fd count w size data w' :
  sys_read fd count w = Ok (size, data) w' →
  ∃ e d,
    trace w' = trace w ++ [Ev (read fd count) (r_read size e d)]
    ∧ (size < 0 ∧ data = []
       ∨ 0 ≤ size ≤ count ∧ data = d ∧ Z.of_nat (length d) = size).
Proof.
  unfold sys_read, syscall. unfold_M. intros Hrun.
  run_cases; eexists _, _; (split; [done|]).
  - left. Z_bools. done.
  - right. 
    repeat match goal with
    | H : _ && _ = true |- _ => apply andb_prop in H as [??] 
    end.
    Z_bools. split_and!; [lia..|done|lia].
Qed.

Lemma sys_write_Ok fd data count w size w' :
  sys_write fd data count w = Ok size w' →
  ∃ e, trace w' = trace w ++ [Ev (write fd data count) (r_int size e)]
       ∧ (size < 0 ∨ size ≤ count).
Proof.
  unfold sys_write, syscall. unfold_M. intros Hrun.
  run_cases; Z_bools; eexists; (split; [done|]); lia.
Qed.

Lemma pending_ok channel :
  channel_ok channel → state channel = WRITING →
  pending channel =
    take (Z.to_nat (buffer_length channel - buffer_position channel))
      (drop (Z.to_nat (buffer_position channel)) (buffer channel)).
Proof.
  intros Hok Hs. destruct (Hok Hs). unfold pending.
  by rewrite size_t_small by lia.
Qed.

(** What one call of [process_buffer] moves: the bytes the channel had
    still to send, followed by those it has read, are those it has written,
    followed by those it has still to send; and it touches no descriptor
    but its own two. *)
Lemma process_buffer_flow channel read_fds write_fds w channel' w' :
  channel_ok channel →
  process_buffer channel read_fds write_fds w = Ok channel' w' →
  from_fd channel' = from_fd channel
  ∧ to_fd channel' = to_fd channel
  ∧ ∃ evs,
      trace w' = trace w ++ evs
      ∧ (∀ fd, fd ≠ from_fd channel → read_from fd evs = [])
      ∧ (∀ fd, fd ≠ to_fd channel → written_to fd evs = [])
      ∧ unsent channel ++ read_from (from_fd channel) evs
        = written_to (to_fd channel) evs ++ unsent channel'.
Proof.
  intros Hok Hrun.
  assert (∀ ch, from_fd ch = from_fd channel → to_fd ch = to_fd channel →
            unsent ch = unsent channel → w' = w →
            from_fd ch = from_fd channel ∧ to_fd ch = to_fd channel
            ∧ ∃ evs, trace w' = trace w ++ evs
                ∧ (∀ fd, fd ≠ from_fd channel → read_from fd evs = [])
                ∧ (∀ fd, fd ≠ to_fd channel → written_to fd evs = [])
                ∧ unsent channel ++ read_from (from_fd channel) evs
                  = written_to (to_fd channel) evs ++ unsent ch) as Hidle.
  { intros ch ? ? -> ->. split_and!; [done..|]. exists [].
    rewrite !app_nil_r. by split_and!. }
  destruct (state channel) eqn:Hs.
  - rewrite process_buffer_idle in Hrun by (by rewrite Hs).
    injection Hrun as <- <-. by apply Hidle.
  - destruct (decide (from_fd channel ∈ read_fds)) as [Hfd|Hfd]; cycle 1.
    { rewrite process_buffer_idle in Hrun by (by rewrite Hs).
      injection Hrun as <- <-. by apply Hidle. }
    rewrite process_buffer_reading in Hrun by done.
    apply bind_Ok in Hrun as ([size data] & w1 & Hread & Hrun).
    apply sys_read_Ok in Hread as (e & d & Htr & Hcases).
    assert (unsent channel = []) as -> by (unfold unsent; by rewrite Hs).
    assert (read_from (from_fd channel)
              [Ev (read (from_fd channel) BUFSIZ) (r_read size e d)]
            = if 0 <=? size then d else []) as Hr.
    { cbn. by rewrite Z.eqb_refl, app_nil_r. }
    destruct (Z.leb_spec size 0) as [Hle|Hgt]; injection Hrun as <- <-;
      (split_and!; [done..|]); eexists; (split; [exact Htr|]);
      (split; [intros fd Hne; cbn;
               by destruct (Z.eqb_spec (from_fd channel) fd)|]);
      (split; [done|]); rewrite Hr.
    + unfold unsent. cbn.
      destruct Hcases as [[? ->]|(? & -> & Hlen)].
      * by destruct (Z.leb_spec 0 size); [lia|].
      * destruct d; [by case_match|]. cbn in Hlen. lia.
    + destruct Hcases as [[? ->]|(? & -> & Hlen)]; [lia|].
      destruct (Z.leb_spec 0 size); [|lia].
      unfold unsent, pending. cbn.
      rewrite Z.sub_0_r, size_t_small, <- Hlen, Nat2Z.id by lia.
      change (Z.to_nat 0) with 0%nat. by rewrite drop_0, take_app_length.
  - destruct (decide (to_fd channel ∈ write_fds)) as [Hfd|Hfd]; cycle 1.
    { rewrite process_buffer_idle in Hrun by (by rewrite Hs).
      injection Hrun as <- <-. by apply Hidle. }
    destruct (Hok Hs) as [Hpos Hlen].
    rewrite process_buffer_writing in Hrun by done.
    apply bind_Ok in Hrun as (size & w1 & Hwrite & Hrun).
    apply sys_write_Ok in Hwrite as (e & Htr & Hsize).
    set (count := buffer_length channel - buffer_position channel) in *.
    assert (written_to (to_fd channel)
              [Ev (write (to_fd channel) (pending channel) count)
                 (r_int size e)]
            = if 0 <=? size then take (Z.to_nat size) (pending channel)
              else []) as Hw.
    { cbn. by rewrite Z.eqb_refl, app_nil_r. }
    assert (∀ fd, fd ≠ to_fd channel →
              written_to fd
                [Ev (write (to_fd channel) (pending channel) count)
                   (r_int size e)] = []) as Hother.
    { intros fd Hne. cbn. by destruct (Z.eqb_spec (to_fd channel) fd). }
    assert (unsent channel = pending channel) as Hun
      by (unfold unsent; by rewrite Hs).
    destruct (Z.ltb_spec size 0) as [Hneg|Hnn].
    { injection Hrun as <- <-. split_and!; [done..|]. eexists.
      split; [exact Htr|]. split; [done|]. split; [done|].
      rewrite Hw. destruct (Z.leb_spec 0 size); [lia|].
      by rewrite app_nil_r. }
    assert (pending channel
            = take (Z.to_nat size) (pending channel)
              ++ take (Z.to_nat (count - size))
                   (drop (Z.to_nat (buffer_position channel + size))
                      (buffer channel))) as Hsplit.
    { rewrite (pending_ok _ Hok Hs). fold count.
      rewrite <- (take_drop (Z.to_nat size)
                    (take (Z.to_nat count) _)) at 1.
      f_equal. rewrite skipn_firstn_comm, drop_drop. f_equal; [lia|].
      f_equal. lia. }
    destruct (Z.eqb_spec (buffer_position channel + size)
                (buffer_length channel)) as [Heq|Hne];
      injection Hrun as <- <-; (split_and!; [done..|]); eexists;
      (split; [exact Htr|]); (split; [done|]); (split; [done|]);
      rewrite Hw, Hun; (destruct (Z.leb_spec 0 size); [|lia]);
      change (read_from _ [_]) with (@nil byte); rewrite app_nil_r.
    + assert (unsent (with_state READING
                (with_buffer_position (buffer_position channel + size)
                   channel)) = []) as -> by done.
      rewrite app_nil_r, Hsplit at 1. replace (count - size) with 0 by lia.
      by rewrite take_0, app_nil_r.
    + rewrite Hsplit at 1. f_equal. unfold unsent, pending.
      cbn [state buffer buffer_position buffer_length with_buffer_position].
      rewrite Hs, size_t_small by (subst count; lia).
      do 2 f_equal. subst count. lia.
Qed.

Lemma moved_nothing a evs : untouched a evs → moved a a evs.
Proof. intros [Hr Hw]. unfold moved. by rewrite Hr, Hw, app_nil_r. Qed.

Lemma moved_before a b evs0 evs :
  untouched a evs0 → moved a b evs → moved a b (evs0 ++ evs).
Proof.
  intros [Hr Hw] Hm. unfold moved in *.
  by rewrite read_from_app, written_to_app, Hr, Hw.
Qed.

Lemma moved_after a b evs evs0 :
  untouched a evs0 → moved a b evs → moved a b (evs ++ evs0).
Proof.
  intros [Hr Hw] Hm. unfold moved in *.
  by rewrite read_from_app, written_to_app, Hr, Hw, !app_nil_r.
Qed.

Lemma moved_trans a b c evs1 evs2 :
  from_fd b = from_fd a → to_fd b = to_fd a →
  moved a b evs1 → moved b c evs2 → moved a c (evs1 ++ evs2).
Proof.
  unfold moved. intros -> -> H1 H2.
  rewrite read_from_app, written_to_app, (assoc_L (++)), H1.
  by rewrite <- !(assoc_L (++)), H2.
Qed.

Lemma forward_step_flow master_fd incoming outgoing w i' o' w' :
  channel_ok incoming → channel_ok outgoing →
  from_fd incoming ≠ from_fd outgoing → to_fd incoming ≠ to_fd outgoing →
  forward_step master_fd incoming outgoing w = Ok (i', o') w' →
  from_fd i' = from_fd incoming ∧ to_fd i' = to_fd incoming
  ∧ from_fd o' = from_fd outgoing ∧ to_fd o' = to_fd outgoing
  ∧ ∃ evs, trace w' = trace w ++ evs
           ∧ moved incoming i' evs ∧ moved outgoing o' evs.
Proof.
  intros Hi Ho Hfrom Hto
    (r & rfds & wfds & wa & Hsel & Hcases)%forward_step_Ok.
  apply sys_pselect_Ok in Hsel as [ev Hsel].
  assert (∀ a, untouched a [Ev (pselect (master_fd + 1)
            (wait_sets incoming outgoing).1 (wait_sets incoming outgoing).2
            (mask_for_select w)) ev]) as Hwait by done.
  destruct Hcases as [(_ & -> & -> & _ & Hsize)|(_ & wb & Hpi & Hpo)].
  - split_and!; [done..|].
    assert (∃ evs, trace w' = trace wa ++ evs
                   ∧ Forall (λ e, is_channel_io e = false) evs)
      as (evs & Htr & Hevs).
    { unfold when in Hsize. destruct (should_set_terminal_size wa).
      - destruct (set_terminal_size_events master_fd wa) as (evs & Hev & ?).
        rewrite Hsize in Hev. by exists evs.
      - injection Hsize as <-. exists []. by rewrite app_nil_r. }
    eexists. split; [by rewrite Htr, Hsel, <- (assoc_L (++))|].
    split; apply moved_nothing; split;
      rewrite ?read_from_app, ?written_to_app;
      by rewrite ?(proj1 (no_channel_io_no_bytes _ _ Hevs)),
                 ?(proj2 (no_channel_io_no_bytes _ _ Hevs)).
  - apply process_buffer_flow in Hpi
      as (Hif & Hit & evs1 & Htr1 & Hr1 & Hw1 & Hm1); [|done].
    apply process_buffer_flow in Hpo
      as (Hof & Hot & evs2 & Htr2 & Hr2 & Hw2 & Hm2); [|done].
    split_and!; [done..|].
    exists ([Ev (pselect (master_fd + 1) (wait_sets incoming outgoing).1
                   (wait_sets incoming outgoing).2 (mask_for_select w)) ev]
            ++ evs1 ++ evs2).
    split; [by rewrite Htr2, Htr1, Hsel, <- !(assoc_L (++))|].
    split; apply moved_before; try apply Hwait.
    + apply moved_after; [|done]. split; [apply Hr2|apply Hw2]; done.
    + apply moved_before; [|done]. split; [apply Hr1|apply Hw1]; done.
Qed.

Lemma forward_loop_flow fuel master_fd incoming outgoing w i' o' w' :
  channel_ok incoming → channel_ok outgoing →
  from_fd incoming ≠ from_fd outgoing → to_fd incoming ≠ to_fd outgoing →
  forward_loop fuel master_fd incoming outgoing w = Ok (i', o') w' →
  ∃ evs, trace w' = trace w ++ evs
         ∧ moved incoming i' evs ∧ moved outgoing o' evs.
Proof.
  revert incoming outgoing w.
  induction fuel as [|fuel IH]; intros incoming outgoing w Hi Ho Hfrom Hto;
    [done|].
  cbn [forward_loop]. case_match.
  - intros ([i1 o1] & w1 & Hstep & Hloop)%bind_Ok.
    destruct (forward_step_channel_ok _ _ _ _ _ _ _ Hi Ho Hstep).
    apply forward_step_flow in Hstep
      as (Hif & Hit & Hof & Hot & evs1 & Htr1 & Hmi & Hmo); [|done..].
    apply IH in Hloop as (evs2 & Htr2 & Hmi2 & Hmo2);
      [|done|done|congruence..].
    exists (evs1 ++ evs2). split; [by rewrite Htr2, Htr1, (assoc_L (++))|].
    split; by eapply moved_trans.
  - intros [= <- <- <-]. exists []. rewrite app_nil_r.
    split; [done|]. split; by apply moved_nothing.
Qed.

(** X1. Whatever [forward_all_io] has read from the master when it returns,
    it has written to standard output, all of it and in the order read;
    and what it has read from standard input it has written to the master
    in the order read, but for the bytes that the incoming channel still
    holds.  Nothing is lost, repeated or reordered, whatever part of its
    bytes a write takes and whichever writes fail. *)
Theorem forward_all_io_keeps_bytes
    (master_fd : Z) (incoming outgoing : channel_T) (w : world)
    (i' o' : channel_T) (w' : world) :
  STDERR_FILENO < master_fd →
  forward_all_io master_fd incoming outgoing w = Ok (i', o') w' →
  ∃ evs,
    trace w' = trace w ++ evs
    ∧ written_to STDOUT_FILENO evs = read_from master_fd evs
    ∧ written_to master_fd evs ++ unsent i' = read_from STDIN_FILENO evs.
Proof.
  intros Hmaster Hrun. pose proof (forward_loop_Ok _ _ _ _ _ _ _ _ Hrun) as Hs.
  unfold forward_all_io in Hrun.
  apply forward_loop_flow in Hrun as (evs & Htr & Hmi & Hmo);
    [|by intros ?..| |]; cbn; unfold STDERR_FILENO, STDIN_FILENO,
      STDOUT_FILENO in *; try lia.
  exists evs. split; [done|]. unfold moved, unsent in Hmi, Hmo.
  cbn in Hmi, Hmo. rewrite Hs, app_nil_r in Hmo. by split.
Qed.

End Forwarded.

(** ** The bounds of the buffers *)

Section Bounds.
Context `{Platform}.

Lemma no_channel_io_in_buffer e : is_channel_io e = false → in_buffer e.
Proof. by destruct e as [[] r]. Qed.

Lemma process_buffer_in_buffer channel read_fds write_fds w channel' w' :
  channel_ok channel → buffer_sized channel →
  process_buffer channel read_fds write_fds w = Ok channel' w' →
  buffer_sized channel' ∧ emitted in_buffer w w'.
Proof.
  intros Hok Hsized Hrun. unfold buffer_sized in *.
  destruct (state channel) eqn:Hs.
  - rewrite process_buffer_idle in Hrun by (by rewrite Hs).
    by injection Hrun as <- <-.
  - destruct (decide (from_fd channel ∈ read_fds)) as [Hfd|Hfd]; cycle 1.
    { rewrite process_buffer_idle in Hrun by (by rewrite Hs).
      by injection Hrun as <- <-. }
    rewrite process_buffer_reading in Hrun by done.
    apply bind_Ok in Hrun as ([size data] & w1 & Hread & Hrun).
    apply sys_read_Ok in Hread as (e & d & Htr & Hcases).
    assert (Z.of_nat (length (data ++ drop (length data) (buffer channel)))
            = BUFSIZ) as Hlen.
    { rewrite length_app, length_drop.
      destruct Hcases as [[_ ->]|(? & -> & ?)]; cbn [length]; lia. }
    assert (emitted in_buffer w w1) as Hev.
    { exists [Ev (read (from_fd channel) BUFSIZ) (r_read size e d)].
      split; [done|]. by repeat constructor. }
    by destruct (size <=? 0); injection Hrun as <- <-.
  - destruct (decide (to_fd channel ∈ write_fds)) as [Hfd|Hfd]; cycle 1.
    { rewrite process_buffer_idle in Hrun by (by rewrite Hs).
      by injection Hrun as <- <-. }
    destruct (Hok Hs) as [Hpos Hlen].
    rewrite process_buffer_writing in Hrun by done.
    apply bind_Ok in Hrun as (size & w1 & Hwrite & Hrun).
    apply sys_write_Ok in Hwrite as (e & Htr & _).
    assert (emitted in_buffer w w1) as Hev.
    { eexists [_]. split; [exact Htr|]. repeat constructor; [|lia..].
      rewrite (pending_ok _ Hok Hs), length_take, length_drop. lia. }
    by repeat case_match; injection Hrun as <- <-.
Qed.

Lemma forward_step_in_buffer master_fd incoming outgoing w i' o' w' :
  channel_ok incoming → channel_ok outgoing →
  buffer_sized incoming → buffer_sized outgoing →
  forward_step master_fd incoming outgoing w = Ok (i', o') w' →
  buffer_sized i' ∧ buffer_sized o' ∧ emitted in_buffer w w'.
Proof.
  intros Hi Ho Hbi Hbo
    (r & rfds & wfds & wa & Hsel & Hcases)%forward_step_Ok.
  apply sys_pselect_Ok in Hsel as [ev Hsel].
  assert (emitted in_buffer w wa) as Hwait.
  { eexists [_]. split; [exact Hsel|]. by repeat constructor. }
  destruct Hcases as [(_ & -> & -> & _ & Hsize)|(_ & wb & Hpi & Hpo)].
  - split; [done|]. split; [done|]. etrans; [exact Hwait|].
    unfold when in Hsize. destruct (should_set_terminal_size wa).
    + destruct (set_terminal_size_events master_fd wa) as (evs & Hev & Hio).
      rewrite Hsize in Hev. exists evs. split; [done|].
      eapply Forall_impl; [exact Hio|]. apply no_channel_io_in_buffer.
    + by injection Hsize as <-.
  - apply process_buffer_in_buffer in Hpi as [? ?]; [|done..].
    apply process_buffer_in_buffer in Hpo as [? ?]; [|done..].
    split; [done|]. split; [done|]. by do 2 (etrans; [eassumption|]).
Qed.

Lemma forward_loop_in_buffer fuel master_fd incoming outgoing w i' o' w' :
  channel_ok incoming → channel_ok outgoing →
  buffer_sized incoming → buffer_sized outgoing →
  forward_loop fuel master_fd incoming outgoing w = Ok (i', o') w' →
  buffer_sized i' ∧ buffer_sized o' ∧ emitted in_buffer w w'.
Proof.
  revert incoming outgoing w.
  induction fuel as [|fuel IH]; intros incoming outgoing w Hi Ho Hbi Hbo;
    [done|].
  cbn [forward_loop]. case_match.
  - intros ([i1 o1] & w1 & Hstep & Hloop)%bind_Ok.
    destruct (forward_step_channel_ok _ _ _ _ _ _ _ Hi Ho Hstep).
    apply forward_step_in_buffer in Hstep as (? & ? & ?); [|done..].
    apply IH in Hloop as (? & ? & ?); [|done..].
    split; [done|]. split; [done|]. by etrans.
  - by intros [= <- <- <-].
Qed.

(** X2. [forward_all_io] stays inside its buffers.  When the two buffers
    are the arrays of BUFSIZ bytes they are declared as, every read it
    makes asks for BUFSIZ bytes, and every write is handed bytes that lie
    inside the buffer: as many as it is asked to write, at least one and at
    most BUFSIZ.  The buffers keep their size. *)
Theorem forward_all_io_stays_in_buffer
    (master_fd : Z) (incoming outgoing : channel_T) (w : world)
    (i' o' : channel_T) (w' : world) :
  buffer_sized incoming → buffer_sized outgoing →
  forward_all_io master_fd incoming outgoing w = Ok (i', o') w' →
  buffer_sized i' ∧ buffer_sized o'
  ∧ ∃ evs, trace w' = trace w ++ evs ∧ Forall in_buffer evs.
Proof.
  intros Hbi Hbo Hrun. unfold forward_all_io in Hrun.
  apply forward_loop_in_buffer in Hrun as (? & ? & ?); by try intros ?.
Qed.

End Bounds.

(** ** Calls that return *)

#[export] Instance same_globals_refl : Reflexive same_globals.
Proof. by intros w. Qed.

#[export] Instance same_globals_trans : Transitive same_globals.
Proof.
  intros w1 w2 w3 (?&?&?&?&?&?) (?&?&?&?&?&?). split_and!; congruence.
Qed.

Lemma sys_int_Ok c w r w' :
  sys_int c w = Ok r w' →
  ∃ e, trace w' = trace w ++ [Ev c (r_int r e)] ∧ same_globals w w'.
Proof.
  unfold sys_int, syscall. unfold_M. intros Hrun.
  run_cases; by eexists.
Qed.

Section Checks.
Context `{Platform}.

Lemma errno_exit_unless_Ok b message w u w' :
  when b (errno_exit message) w = Ok u w' → b = false ∧ w' = w.
Proof. destruct b; [done|]. by intros [= <-]. Qed.

Lemma error_exit_unless_Ok b message w u w' :
  when b (error_exit message) w = Ok u w' → b = false ∧ w' = w.
Proof. destruct b; [done|]. by intros [= <-]. Qed.

End Checks.

(** A call that returns an [int], and the check of what it returned. *)
Ltac step_int H r w1 e Htr :=
  let Hc := fresh "Hc" in
  apply bind_Ok in H as (r & w1 & Hc & H);
  apply sys_int_Ok in Hc as (e & Htr & _).

Ltac step_check H Hb :=
  let w1 := fresh "w" in
  let Hc := fresh "Hc" in
  apply bind_Ok in H as ([] & w1 & Hc & H);
  first [ apply errno_exit_unless_Ok in Hc as [Hb ->]
        | apply error_exit_unless_Ok in Hc as [Hb ->] ].

(** ** The size of the window *)

Section Window.
Context `{Platform}.

Lemma set_terminal_size_Ok fd w u w' :
  set_terminal_size fd w = Ok u w' →
  should_set_terminal_size w' = false
  ∧ ∃ g e size,
      (g < 0
       ∧ trace w' =
           trace w ++
           [Ev (ioctl_TIOCGWINSZ STDOUT_FILENO) (r_winsize g e size)])
      ∨ (0 ≤ g
         ∧ ∃ r e',
             trace w' =
               trace w ++
               [Ev (ioctl_TIOCGWINSZ STDOUT_FILENO) (r_winsize g e size);
                Ev (ioctl_TIOCSWINSZ fd size) (r_int r e')]).
Proof.
  unfold set_terminal_size, sys_ioctl_TIOCGWINSZ, sys_int, syscall.
  unfold_M. intros Hrun. run_cases; Z_bools; try (exfalso; lia);
    (split; [done|]);
    lazymatch goal with
    | Hs : script w = r_winsize ?g ?e ?size :: _ |- _ => exists g, e, size
    end;
    first [ left; split; [lia|done]
          | right; split; [lia|]; eexists _, _;
            by rewrite <- (assoc_L (++)) ].
Qed.

(** X10. [set_terminal_size] is best effort and always clears the flag.
    It never ends the process.  When it returns, the flag is cleared and
    either the window size of standard output could not be read and
    nothing else was done, or it was read and that very size was set on
    [fd], whatever the second [ioctl] answered.  When one of the two calls
    never returns, the flag is cleared all the same. *)
Theorem set_terminal_size_is_best_effort (fd : Z) (w : world) :
  match set_terminal_size fd w with
  | Ok _ w' =>
      should_set_terminal_size w' = false
      ∧ ∃ g e size,
          (g < 0
           ∧ trace w' =
               trace w ++
               [Ev (ioctl_TIOCGWINSZ STDOUT_FILENO) (r_winsize g e size)])
          ∨ (0 ≤ g
             ∧ ∃ r e',
                 trace w' =
                   trace w ++
                   [Ev (ioctl_TIOCGWINSZ STDOUT_FILENO) (r_winsize g e size);
                    Ev (ioctl_TIOCSWINSZ fd size) (r_int r e')])
  | Blocked c w' =>
      should_set_terminal_size w' = false
      ∧ (c = ioctl_TIOCGWINSZ STDOUT_FILENO
         ∨ ∃ size, c = ioctl_TIOCSWINSZ fd size)
  | Stuck w' => should_set_terminal_size w' = false
  | _ => False
  end.
Proof.
  unfold set_terminal_size, sys_ioctl_TIOCGWINSZ, syscall. unfold_M. cbn.
  destruct (script w) as [|[] rest]; cbn; try done; [by auto|].
  destruct (Z.ltb_spec ret 0), (Z.leb_spec 0 ret); try lia; cbn.
  { split; [done|]. exists ret, err, size. by left. }
  unfold sys_int, syscall; unfold_M; cbn.
  destruct rest as [|[] rest]; cbn; try done; [by eauto|].
  destruct (_ <? 0); cbn; (split; [done|]); exists ret, err, size; right;
    (split; [done|]); eexists _, _; by rewrite <- (assoc_L (++)).
Qed.

End Window.

(** ** Fatal exits *)

Section Diagnosed.
Context `{Platform}.

Lemma diagnosed_ret {A} (a : A) : diagnosed (mret a : M A).
Proof. by intros w. Qed.

Lemma diagnosed_bind {A B} (m : M A) (f : A → M B) :
  diagnosed m → (∀ a, diagnosed (f a)) → diagnosed (m ≫= f).
Proof.
  intros Hm Hf w. specialize (Hm w). unfold mbind, M_bind.
  destruct (m w) as [a w1| | | | | |]; try done.
  specialize (Hf a w1). destruct (f a w1); try done.
  - congruence.
  - destruct Hf as (? & ? & ?). split_and!; [done|congruence|done].
Qed.

Lemma diagnosed_gets {A} (f : world → A) : diagnosed (gets f).
Proof. by intros w. Qed.

Lemma diagnosed_modify (f : world → world) :
  (∀ w, program_name (f w) = program_name w) → diagnosed (modify f).
Proof. intros Hf w. apply Hf. Qed.

Lemma diagnosed_syscall c : diagnosed (syscall c).
Proof. intros w. unfold syscall. by destruct (script w). Qed.

Lemma diagnosed_stuck {A} : diagnosed (stuck : M A).
Proof. by intros w. Qed.

Lemma diagnosed_abort {A} : diagnosed (abort : M A).
Proof. by intros w. Qed.

Lemma diagnosed_replaced {A} file argv :
  diagnosed ((λ w, Replaced file argv w) : M A).
Proof. by intros w. Qed.

Lemma diagnosed_errno_exit {A} message : diagnosed (errno_exit message : M A).
Proof.
  intros w. unfold errno_exit. unfold_M. split_and!; [done..|].
  right. exists (trace w), message. cbn. by rewrite <- (assoc_L (++)).
Qed.

Lemma diagnosed_error_exit {A} message : diagnosed (error_exit message : M A).
Proof.
  intros w. unfold error_exit. unfold_M. split_and!; [done..|].
  left. by exists (trace w), message.
Qed.

Ltac diagnosed_tac :=
  repeat first
    [ progress unfold when, fail_with, receive_sigwinch
    | apply diagnosed_ret
    | apply diagnosed_gets
    | apply diagnosed_stuck
    | apply diagnosed_abort
    | apply diagnosed_replaced
    | apply diagnosed_errno_exit
    | apply diagnosed_error_exit
    | apply diagnosed_syscall
    | apply diagnosed_modify; by intros
    | apply diagnosed_bind; [|intros ?]
    | case_match ].

Lemma diagnosed_set_terminal_size fd : diagnosed (set_terminal_size fd).
Proof.
  unfold set_terminal_size, sys_ioctl_TIOCGWINSZ, sys_int. diagnosed_tac.
Qed.

Lemma diagnosed_process_buffer channel read_fds write_fds :
  diagnosed (process_buffer channel read_fds write_fds).
Proof. unfold process_buffer, sys_read, sys_write. diagnosed_tac. Qed.

Lemma diagnosed_forward_step master_fd incoming outgoing :
  diagnosed (forward_step master_fd incoming outgoing).
Proof.
  unfold forward_step, sys_pselect. diagnosed_tac;
    first [apply diagnosed_set_terminal_size
          |apply diagnosed_process_buffer].
Qed.

Lemma diagnosed_forward_loop fuel master_fd incoming outgoing :
  diagnosed (forward_loop fuel master_fd incoming outgoing).
Proof.
  revert incoming outgoing. induction fuel as [|fuel IH]; intros; [done|].
  cbn [forward_loop]. case_match; [|apply diagnosed_ret].
  apply diagnosed_bind; [apply diagnosed_forward_step|].
  intros [i o]. apply IH.
Qed.

Lemma diagnosed_forward_all_io master_fd incoming outgoing :
  diagnosed (forward_all_io master_fd incoming outgoing).
Proof. intros w. apply diagnosed_forward_loop. Qed.

Lemma diagnosed_parent_process master_fd child_pid stack :
  diagnosed (parent_process master_fd child_pid stack).
Proof.
  unfold parent_process. apply diagnosed_bind.
  { unfold disable_canonical_io, sys_tcgetattr, sys_tcsetattr.
    diagnosed_tac. }
  intros noncanon. apply diagnosed_bind; [apply diagnosed_forward_all_io|].
  intros _. unfold await_child, sys_waitpid, enable_canonical_io,
    sys_tcsetattr. diagnosed_tac.
Qed.

Lemma diagnosed_install_sigwinch_handler : diagnosed install_sigwinch_handler.
Proof.
  unfold install_sigwinch_handler, sys_sigprocmask, sys_int. diagnosed_tac.
Qed.

Lemma diagnosed_prepare_master_pseudo_terminal :
  diagnosed prepare_master_pseudo_terminal.
Proof.
  unfold prepare_master_pseudo_terminal, sys_int. diagnosed_tac.
Qed.

Lemma diagnosed_slave_pseudo_terminal_name master_fd :
  diagnosed (slave_pseudo_terminal_name master_fd).
Proof. unfold slave_pseudo_terminal_name, sys_ptsname. diagnosed_tac. Qed.

Lemma diagnosed_child argv master_fd slave_name :
  diagnosed
    (_ ← sys_int (close master_fd);
     become_session_leader;;
     prepare_slave_pseudo_terminal_fds slave_name;;
     i ← gets optind;
     exec_command (A:=Z) (drop (Z.to_nat i) argv)).
Proof.
  unfold become_session_leader, prepare_slave_pseudo_terminal_fds,
    exec_command, sys_execvp, sys_int.
  diagnosed_tac.
Qed.

(** X3. Every exit of [main] is with EXIT_FAILURE.  Without any argument,
    not even the name of the program, nothing has been done; otherwise the
    last thing the program did is to write a diagnostic that starts with
    its name, [argv[0]]: the line of [error_exit], or the prefix of
    [errno_exit] followed by [perror] with the current [errno]. *)
Theorem main_exits_with_diagnostic
    (argv : list string) (stack : channel_T * channel_T) (w : world)
    (s : Z) (w' : world) :
  main argv stack w = Exited s w' →
  s = EXIT_FAILURE
  ∧ (argv = [] ∧ w' = w
     ∨ ∃ name operands,
         argv = name :: operands
         ∧ program_name w' = name
         ∧ diagnostic w').
Proof.
  unfold main. destruct argv as [|name operands].
  { cbn. intros [= <- <-]. split; [done|by left]. }
  destruct (Z.leb_spec (Z.of_nat (length (name :: operands))) 0) as [Hle|_];
    [cbn [length] in Hle; lia|].
  cbn [head default]. unfold mbind at 1, M_bind at 1, modify at 1.
  lazymatch goal with
  | |- ?m ?w1 = _ → _ =>
      assert (diagnosed m) as Hd;
        [|intros Hrun; specialize (Hd w1); rewrite Hrun in Hd]
  end.
  { diagnosed_tac;
      first [ apply diagnosed_install_sigwinch_handler
            | apply diagnosed_prepare_master_pseudo_terminal
            | apply diagnosed_slave_pseudo_terminal_name
            | apply diagnosed_parent_process
            | apply diagnosed_forward_all_io
            | idtac ].
    all: try (unfold sys_int; diagnosed_tac).
    all: try apply diagnosed_child. }
  destruct Hd as (-> & Hname & Hdiag).
  split; [done|]. right. by exists name, operands.
Qed.

End Diagnosed.

(** ** The command on the slave *)

Section Setup.
Context `{Platform}.

Lemma staged_same {A} (a : A) w w' :
  optind w' = optind w → trace w' = trace w →
  optind w' = optind w ∧ ∃ calls, trace w' = trace w ++ calls.
Proof. intros ? Htr. split; [done|]. exists []. by rewrite app_nil_r. Qed.

Lemma staged_ret {A} (a : A) : staged (mret a : M A).
Proof. intros w. by apply (staged_same a). Qed.

Lemma staged_bind {A B} (m : M A) (f : A → M B) :
  staged m → (∀ a, staged (f a)) → staged (m ≫= f).
Proof.
  intros Hm Hf w. specialize (Hm w). unfold mbind, M_bind.
  destruct (m w) as [a w1| | | | | |]; try done.
  specialize (Hf a w1). destruct (f a w1); try done.
  destruct Hm as [Ho1 [c1 Ht1]], Hf as [Ho2 [c2 Ht2]].
  split; [congruence|]. exists (c1 ++ c2). by rewrite Ht2, Ht1, (assoc_L (++)).
Qed.

Lemma staged_gets {A} (f : world → A) : staged (gets f).
Proof. intros w. by apply (staged_same ()). Qed.

Lemma staged_modify (f : world → world) :
  (∀ w, optind (f w) = optind w ∧ trace (f w) = trace w) →
  staged (modify f).
Proof. intros Hf w. destruct (Hf w). by apply (staged_same ()). Qed.

Lemma staged_syscall c : staged (syscall c).
Proof.
  intros w. unfold syscall. destruct (script w); [done|].
  split; [done|]. by eexists.
Qed.

Lemma staged_stuck {A} : staged (stuck : M A).
Proof. by intros w. Qed.

Lemma staged_abort {A} : staged (abort : M A).
Proof. by intros w. Qed.

Lemma staged_errno_exit {A} message : staged (errno_exit message : M A).
Proof. by intros w. Qed.

Lemma staged_error_exit {A} message : staged (error_exit message : M A).
Proof. by intros w. Qed.

Lemma staged_when b (m : M ()) : staged m → staged (when b m).
Proof. destruct b; [done|]. intros _. apply staged_ret. Qed.

Ltac staged_tac :=
  repeat first
    [ progress unfold when, fail_with, receive_sigwinch
    | apply staged_ret
    | apply staged_gets
    | apply staged_stuck
    | apply staged_abort
    | apply staged_errno_exit
    | apply staged_error_exit
    | apply staged_syscall
    | apply staged_modify; by intros
    | apply staged_bind; [|intros ?]
    | case_match ].

Lemma staged_sys_int c : staged (sys_int c).
Proof. unfold sys_int. staged_tac. Qed.

Lemma staged_set_terminal_size fd : staged (set_terminal_size fd).
Proof.
  unfold set_terminal_size, sys_ioctl_TIOCGWINSZ, sys_int. staged_tac.
Qed.

Lemma staged_process_buffer channel read_fds write_fds :
  staged (process_buffer channel read_fds write_fds).
Proof. unfold process_buffer, sys_read, sys_write. staged_tac. Qed.

Lemma staged_forward_step master_fd incoming outgoing :
  staged (forward_step master_fd incoming outgoing).
Proof.
  unfold forward_step, sys_pselect. staged_tac;
    first [apply staged_set_terminal_size|apply staged_process_buffer].
Qed.

Lemma staged_forward_loop fuel master_fd incoming outgoing :
  staged (forward_loop fuel master_fd incoming outgoing).
Proof.
  revert incoming outgoing. induction fuel as [|fuel IH]; intros; [done|].
  cbn [forward_loop]. case_match; [|apply staged_ret].
  apply staged_bind; [apply staged_forward_step|].
  intros [i o]. apply IH.
Qed.

Lemma staged_parent_process master_fd child_pid stack :
  staged (parent_process master_fd child_pid stack).
Proof.
  unfold parent_process. apply staged_bind.
  { unfold disable_canonical_io, sys_tcgetattr, sys_tcsetattr. staged_tac. }
  intros noncanon. apply staged_bind.
  { intros w. apply staged_forward_loop. }
  intros _. unfold await_child, sys_waitpid, enable_canonical_io,
    sys_tcsetattr. staged_tac.
Qed.

Lemma staged_install_sigwinch_handler : staged install_sigwinch_handler.
Proof.
  unfold install_sigwinch_handler, sys_sigprocmask, sys_int. staged_tac.
Qed.

Lemma staged_prepare_master_pseudo_terminal :
  staged prepare_master_pseudo_terminal.
Proof. unfold prepare_master_pseudo_terminal, sys_int. staged_tac. Qed.

Lemma staged_slave_pseudo_terminal_name master_fd :
  staged (slave_pseudo_terminal_name master_fd).
Proof. unfold slave_pseudo_terminal_name, sys_ptsname. staged_tac. Qed.

Lemma staged_become_session_leader : staged become_session_leader.
Proof. unfold become_session_leader, sys_int. staged_tac. Qed.

Lemma staged_prepare_slave_pseudo_terminal_fds slave_name :
  staged (prepare_slave_pseudo_terminal_fds slave_name).
Proof. unfold prepare_slave_pseudo_terminal_fds, sys_int. staged_tac. Qed.

(** A process image replaced after [m] was replaced after [m] returned. *)
Lemma bind_Replaced {A B} (m : M A) (f : A → M B) w file args w' :
  staged m →
  (m ≫= f) w = Replaced file args w' →
  ∃ a w1 calls,
    m w = Ok a w1 ∧ optind w1 = optind w ∧ trace w1 = trace w ++ calls
    ∧ f a w1 = Replaced file args w'.
Proof.
  intros Hm. specialize (Hm w). unfold mbind, M_bind.
  destruct (m w) as [a w1| | | | | |]; try done.
  destruct Hm as [Ho [calls Htr]]. intros Hf. by exists a, w1, calls.
Qed.

Lemma become_session_leader_Ok w w' :
  become_session_leader w = Ok () w' →
  ∃ r e, 0 ≤ r ∧ trace w' = trace w ++ [Ev setsid (r_int r e)].
Proof.
  unfold become_session_leader. intros Hrun.
  apply bind_Ok in Hrun as (r & w1 & Hc & Hrun).
  apply sys_int_Ok in Hc as (e & Htr & _).
  apply errno_exit_unless_Ok in Hrun as [Hr ->]. Z_bools. by exists r, e.
Qed.

Lemma prepare_slave_pseudo_terminal_fds_Ok slave_name w w' :
  prepare_slave_pseudo_terminal_fds slave_name w = Ok () w' →
  ∃ evs c1 c2 c3 pgrp,
    trace w' = trace w ++ evs
    ∧ map answer_of evs =
        [(close 0, c1); (open_O_RDWR slave_name, 0);
         (close 1, c2); (dup 0, 1); (close 2, c3); (dup 0, 2);
         (tcgetpgrp 0, pgrp); (getpgrp, pgrp)]
    ∧ 0 ≤ c1 ∧ 0 ≤ c2 ∧ 0 ≤ c3.
Proof.
  unfold prepare_slave_pseudo_terminal_fds. intros Hrun.
  step_int Hrun c1 w1 e1 Htr1. step_check Hrun Hc1.
  step_int Hrun fd w2 e2 Htr2. step_check Hrun Hfd.
  step_int Hrun c2 w3 e3 Htr3. step_check Hrun Hc2.
  step_int Hrun d1 w4 e4 Htr4. step_check Hrun Hd1.
  step_int Hrun c3 w5 e5 Htr5. step_check Hrun Hc3.
  step_int Hrun d2 w6 e6 Htr6. step_check Hrun Hd2.
  step_int Hrun pgrp w7 e7 Htr7.
  step_int Hrun own w8 e8 Htr8.
  apply error_exit_unless_Ok in Hrun as [Hown ->].
  apply negb_false_iff in Hfd, Hd1, Hd2, Hown. Z_bools. subst.
  eexists _, c1, c2, c3, own. split.
  - rewrite Htr8, Htr7, Htr6, Htr5, Htr4, Htr3, Htr2, Htr1.
    rewrite <- !(assoc_L (++)). reflexivity.
  - by split_and!.
Qed.

Lemma exec_command_Replaced {A} argv w file args w' :
  exec_command (A:=A) argv w = Replaced file args w' →
  args = argv ∧ file = default "" (head argv)
  ∧ ∃ r e, 0 ≤ r ∧ trace w' = trace w ++ [Ev (execvp file args) (r_int r e)].
Proof.
  unfold exec_command, sys_execvp, errno_exit, syscall. unfold_M.
  intros Hrun. run_cases. Z_bools. split_and!; [done..|]. by eexists _, _.
Qed.

Lemma sys_int_Replaced {B} c (f : Z → M B) w file args w' :
  (sys_int c ≫= f) w = Replaced file args w' →
  ∃ r e w1,
    trace w1 = trace w ++ [Ev c (r_int r e)]
    ∧ optind w1 = optind w
    ∧ f r w1 = Replaced file args w'.
Proof.
  intros (r & w1 & calls & Hc & Hopt & _ & Hf)%bind_Replaced;
    [|apply staged_sys_int].
  apply sys_int_Ok in Hc as (e & Htr & _). by exists r, e, w1.
Qed.

Lemma prepare_master_pseudo_terminal_opened w fd w' :
  prepare_master_pseudo_terminal w = Ok fd w' →
  ∃ e calls, trace w' = trace w ++ [Ev posix_openpt (r_int fd e)] ++ calls.
Proof.
  unfold prepare_master_pseudo_terminal. intros Hrun.
  step_int Hrun fd' w1 e1 Htr1.
  lazymatch type of Hrun with
  | ?m w1 = _ =>
      assert (staged m) as Hst
        by staged_tac;
      specialize (Hst w1); rewrite Hrun in Hst;
      destruct Hst as [_ [calls Htr]]
  end.
  assert (fd = fd') as ->.
  { step_check Hrun Hfd. step_check Hrun Hlow.
    step_int Hrun r2 w2 e2 Htr2.
    step_check Hrun Hr2. step_int Hrun r3 w3 e3 Htr3. step_check Hrun Hr3.
    by apply bind_Ok in Hrun as ([] & w4 & _ & [= <- <-]). }
  exists e1, calls. by rewrite Htr, Htr1, <- (assoc_L (++)).
Qed.

Lemma slave_pseudo_terminal_name_Ok master_fd w name w' :
  slave_pseudo_terminal_name master_fd w = Ok name w' →
  ∃ e, trace w' = trace w ++ [Ev (ptsname master_fd) (r_name (Some name) e)].
Proof.
  unfold slave_pseudo_terminal_name, sys_ptsname, errno_exit, syscall.
  unfold_M. intros Hrun. run_cases. by eexists.
Qed.

(** X4. The command is executed in a session of its own, on the slave.
    When [main] replaces the process image, it is in the child ([fork]
    answered 0); the master was closed, a new session was created, the
    slave was opened as descriptor 0 and duplicated as 1 and 2 after each
    was closed, the foreground process group of the slave was found to be
    the group of the process, and these were the last calls before
    [execvp].  The slave that was opened is the one that [ptsname] named
    for the master that [posix_openpt] returned.  What is executed is the
    first operand, with the operands as its arguments: the arguments after
    the name of the program and after a "--" that follows it. *)
Theorem main_execs_the_operands_on_the_slave
    (argv : list string) (stack : channel_T * channel_T) (w : world)
    (file : string) (args : list string) (w' : world) :
  main argv stack w = Replaced file args w' →
  head args = Some file
  ∧ (argv !! 1%nat = Some "--" ∧ args = drop 2 argv
     ∨ argv !! 1%nat ≠ Some "--" ∧ args = drop 1 argv)
  ∧ ∃ before master_fd e1 between slave_name e2 setup c0 s c1 c2 c3 pgrp r,
      trace w' =
        trace w ++ before ++ [Ev posix_openpt (r_int master_fd e1)]
        ++ between
        ++ [Ev (ptsname master_fd) (r_name (Some slave_name) e2)] ++ setup
      ∧ map answer_of setup =
          [(fork, 0); (close master_fd, c0); (setsid, s);
           (close 0, c1); (open_O_RDWR slave_name, 0);
           (close 1, c2); (dup 0, 1); (close 2, c3); (dup 0, 2);
           (tcgetpgrp 0, pgrp); (getpgrp, pgrp);
           (execvp file args, r)]
      ∧ 0 ≤ s ∧ 0 ≤ c1 ∧ 0 ≤ c2 ∧ 0 ≤ c3 ∧ 0 ≤ r.
Proof.
  unfold main. destruct argv as [|name operands]; [done|].
  destruct (Z.leb_spec (Z.of_nat (length (name :: operands))) 0) as [Hle|_];
    [cbn [length] in Hle; lia|].
  set (argv := name :: operands). set (argc := Z.of_nat (length argv)).
  intros Hrun.
  (* program_name and optind *)
  unfold mbind at 1, M_bind at 1, modify at 1 in Hrun.
  unfold mbind at 1, M_bind at 1, modify at 1 in Hrun.
  unfold mbind at 1, M_bind at 1, gets at 1 in Hrun.
  cbn [optind with_optind] in Hrun.
  remember ((1 <? argc) && bool_decide (argv !! Z.to_nat 1 = Some "--"))
    as skip eqn:Hsk.
  lazymatch type of Hrun with
  | (when skip _ ≫= ?k) _ = _ =>
      assert (∃ w2, trace w2 = trace w
                    ∧ optind w2 = (if skip then 2 else 1)
                    ∧ k () w2 = Replaced file args w')
        as (w2 & Htr2 & Hi & Hrun2)
  end.
  { destruct skip; eexists; (split_and!; [| |exact Hrun]; done). }
  clear Hrun. rename Hrun2 into Hrun. cbv beta in Hrun.
  unfold mbind at 1, M_bind at 1, gets at 1 in Hrun.
  set (i := optind w2) in *. symmetry in Hsk.
  apply bind_Replaced in Hrun as ([] & w3 & ? & Hoperand & _ & _ & Hrun);
    [|apply staged_when, staged_error_exit].
  apply error_exit_unless_Ok in Hoperand as [Hargc ->].
  apply bind_Replaced in Hrun as ([] & w4 & k4 & _ & Ho4 & Htr4 & Hrun);
    [|apply staged_install_sigwinch_handler].
  apply bind_Replaced in Hrun
    as (master_fd & w5 & ? & Hmaster & Ho5 & _ & Hrun);
    [|apply staged_prepare_master_pseudo_terminal].
  apply prepare_master_pseudo_terminal_opened in Hmaster
    as (e4 & k5 & Htr5).
  apply bind_Replaced in Hrun
    as (slave_name & w6 & ? & Hname & Ho6 & _ & Hrun);
    [|apply staged_slave_pseudo_terminal_name].
  apply slave_pseudo_terminal_name_Ok in Hname as (e5 & Htr6).
  apply sys_int_Replaced in Hrun as (pid & e0 & w7 & Htr7 & Ho7 & Hrun).
  apply bind_Replaced in Hrun as ([] & w8 & ? & Hpid & _ & _ & Hrun);
    [|apply staged_when, staged_errno_exit].
  apply errno_exit_unless_Ok in Hpid as [Hpid ->].
  destruct (Z.ltb_spec 0 pid) as [Hparent|Hchild].
  { pose proof (staged_parent_process master_fd pid stack w7) as Hst.
    by rewrite Hrun in Hst. }
  assert (pid = 0) as -> by (Z_bools; lia).
  apply sys_int_Replaced in Hrun as (c0 & e1 & w9 & Htr9 & Ho9 & Hrun).
  apply bind_Replaced in Hrun as ([] & w10 & ? & Hsid & Ho10 & _ & Hrun);
    [|apply staged_become_session_leader].
  apply become_session_leader_Ok in Hsid as (s & e2 & Hs & Htr10).
  apply bind_Replaced in Hrun as ([] & w11 & ? & Hslave & Ho11 & _ & Hrun);
    [|apply staged_prepare_slave_pseudo_terminal_fds].
  apply prepare_slave_pseudo_terminal_fds_Ok in Hslave
    as (evs & c1 & c2 & c3 & pgrp & Htr11 & Hevs & Hc1 & Hc2 & Hc3).
  unfold mbind at 1, M_bind at 1, gets at 1 in Hrun.
  apply exec_command_Replaced in Hrun as (-> & -> & r & e3 & Hr & Htr).
  assert (optind w11 = i) as Hopt by (subst i; congruence).
  rewrite Hopt in *.
  assert (Z.to_nat i = (if skip then 2 else 1)%nat
          ∧ (Z.to_nat i < length argv)%nat) as [Hnat Hlen].
  { Z_bools. subst argc. rewrite Hi in *. destruct skip.
    - apply andb_prop in Hsk as [Hlt _]. Z_bools. lia.
    - cbn [length argv] in *. lia. }
  split_and!.
  - destruct (drop (Z.to_nat i) argv) as [|a l] eqn:Hdrop; [|done].
    apply (f_equal length) in Hdrop. rewrite length_drop in Hdrop.
    cbn [length] in Hdrop. lia.
  - rewrite Hnat. destruct skip.
    + left. apply andb_prop in Hsk as [_ Hdd].
      by apply bool_decide_eq_true_1 in Hdd.
    + right. split; [|done]. apply andb_false_iff in Hsk as [Hlt|Hdd].
      * Z_bools. subst argc. intros Hl%lookup_lt_Some. lia.
      * by apply bool_decide_eq_false_1 in Hdd.
  - exists k4, master_fd, e4, k5, slave_name, e5,
      ([Ev fork (r_int 0 e0)] ++ [Ev (close master_fd) (r_int c0 e1)]
       ++ [Ev setsid (r_int s e2)] ++ evs
       ++ [Ev (execvp (default "" (head (drop (Z.to_nat i) argv)))
                 (drop (Z.to_nat i) argv)) (r_int r e3)]),
      c0, s, c1, c2, c3, pgrp, r.
    split_and!; [|by rewrite !map_app, Hevs|done..].
    rewrite Htr, Htr11, Htr10, Htr9, Htr7, Htr6, Htr5, Htr4, Htr2.
    by rewrite <- !(assoc_L (++)).
Qed.

End Setup.

(** ** The signal mask of the waits *)

Lemma final_bind {A B} (m : M A) (f : A → M B) w w' :
  final ((m ≫= f) w) = Some w' →
  (∀ a w1, m w ≠ Ok a w1) ∧ final (m w) = Some w'
  ∨ ∃ a w1, m w = Ok a w1 ∧ final (f a w1) = Some w'.
Proof.
  unfold mbind, M_bind. destruct (m w) as [a w1| | | | | |]; try by left.
  right. by exists a, w1.
Qed.

Lemma emitted_impl (P Q : event → Prop) w w' :
  (∀ e, P e → Q e) → emitted P w w' → emitted Q w w'.
Proof.
  intros HPQ (evs & Htr & Hevs). exists evs. split; [done|].
  by eapply Forall_impl.
Qed.

#[export] Instance waits_kept_refl : Reflexive waits_kept.
Proof. intros w. by split. Qed.

#[export] Instance waits_kept_trans : Transitive waits_kept.
Proof.
  intros w1 w2 w3 [Hm1 He1] [Hm2 He2]. split; [congruence|].
  rewrite Hm1 in He2. by etrans.
Qed.

Lemma waits_kept_event c r w w' :
  mask_for_select w' = mask_for_select w →
  trace w' = trace w ++ [Ev c r] →
  waits_with (λ mask, mask = mask_for_select w) (Ev c r) →
  waits_kept w w'.
Proof.
  intros Hm Htr Hc. split; [done|]. exists [Ev c r]. split; [done|].
  by constructor.
Qed.

Lemma waits_kept_same w w' :
  mask_for_select w' = mask_for_select w → trace w' = trace w →
  waits_kept w w'.
Proof. intros Hm Htr. split; [done|]. by apply emitted_nothing. Qed.

Section Waits.
Context `{Platform}.

Lemma waits_ret {A} (a : A) : respects waits_kept (mret a : M A).
Proof. apply respects_ret; apply _. Qed.

Lemma waits_bind {A B} (m : M A) (f : A → M B) :
  respects waits_kept m → (∀ a, respects waits_kept (f a)) →
  respects waits_kept (m ≫= f).
Proof. apply respects_bind; apply _. Qed.

Lemma waits_gets {A} (f : world → A) : respects waits_kept (gets f).
Proof. apply respects_gets; apply _. Qed.

Lemma waits_modify (f : world → world) :
  (∀ w, mask_for_select (f w) = mask_for_select w ∧ trace (f w) = trace w) →
  respects waits_kept (modify f).
Proof.
  intros Hf. apply respects_modify. intros w. destruct (Hf w).
  by apply waits_kept_same.
Qed.

Lemma waits_syscall c :
  is_pselect (Ev c r_void) = false → respects waits_kept (syscall c).
Proof.
  intros Hc w w'. unfold syscall.
  destruct (script w) as [|r rest]; intros [= <-]; [done|].
  apply (waits_kept_event c r); [done..|]. by destruct c.
Qed.

Lemma waits_stuck {A} : respects waits_kept (stuck : M A).
Proof. apply respects_stuck; apply _. Qed.

Lemma waits_abort {A} : respects waits_kept (abort : M A).
Proof. apply respects_abort; apply _. Qed.

Lemma waits_replaced {A} file argv :
  respects waits_kept (λ w, Replaced file argv w : outcome A).
Proof. by intros w w' [= <-]. Qed.

Lemma waits_errno_exit {A} message :
  respects waits_kept (errno_exit message : M A).
Proof.
  intros w w'. unfold errno_exit. unfold_M. intros [= <-].
  split; [done|]. eexists [_; _]. split; [by rewrite <- (assoc_L (++))|].
  by repeat constructor.
Qed.

Lemma waits_error_exit {A} message :
  respects waits_kept (error_exit message : M A).
Proof.
  intros w w'. unfold error_exit. unfold_M. intros [= <-].
  by eapply waits_kept_event.
Qed.

Ltac waits_tac :=
  repeat first
    [ progress unfold when, fail_with, receive_sigwinch
    | apply waits_ret
    | apply waits_gets
    | apply waits_stuck
    | apply waits_abort
    | apply waits_replaced
    | apply waits_errno_exit
    | apply waits_error_exit
    | apply waits_syscall; done
    | apply waits_modify; by intros
    | apply waits_bind; [|intros ?]
    | case_match ].

Lemma waits_set_terminal_size fd : respects waits_kept (set_terminal_size fd).
Proof.
  unfold set_terminal_size, sys_ioctl_TIOCGWINSZ, sys_int. waits_tac.
Qed.

Lemma waits_process_buffer channel read_fds write_fds :
  respects waits_kept (process_buffer channel read_fds write_fds).
Proof. unfold process_buffer, sys_read, sys_write. waits_tac. Qed.

Lemma waits_sys_pselect nfds read_fds write_fds w w' :
  final (sys_pselect nfds read_fds write_fds (mask_for_select w) w)
    = Some w' →
  waits_kept w w'.
Proof.
  unfold sys_pselect, syscall. unfold_M. intros Hrun.
  run_cases; first [done | by eapply waits_kept_event].
Qed.

Lemma waits_forward_step master_fd incoming outgoing :
  respects waits_kept (forward_step master_fd incoming outgoing).
Proof.
  intros w w'. rewrite forward_step_eq.
  intros [[_ Hsel]|([[r rfds] wfds] & wa & Hsel & Hrun)]%final_bind.
  { by apply waits_sys_pselect in Hsel. }
  trans wa; [apply (waits_sys_pselect (master_fd + 1)
                      (wait_sets incoming outgoing).1
                      (wait_sets incoming outgoing).2); by rewrite Hsel|].
  revert Hrun. generalize wa w'.
  change (respects waits_kept
    (if r <? 0 then
       e ← gets errno;
       when (negb (e =? EINTR))
         (errno_exit "cannot find file descriptor to forward");;
       flag ← gets should_set_terminal_size;
       when flag (set_terminal_size master_fd);;
       mret (incoming, outgoing)
     else
       incoming ← process_buffer incoming rfds wfds;
       outgoing ← process_buffer outgoing rfds wfds;
       mret (incoming, outgoing))).
  waits_tac;
    first [apply waits_set_terminal_size | apply waits_process_buffer].
Qed.

Lemma waits_forward_loop fuel master_fd incoming outgoing :
  respects waits_kept (forward_loop fuel master_fd incoming outgoing).
Proof.
  revert incoming outgoing. induction fuel as [|fuel IH]; intros; [done|].
  cbn [forward_loop]. case_match; [|apply waits_ret].
  apply waits_bind; [apply waits_forward_step|].
  intros [i o]. apply IH.
Qed.

Lemma waits_forward_all_io master_fd incoming outgoing :
  respects waits_kept (forward_all_io master_fd incoming outgoing).
Proof. intros w w'. apply waits_forward_loop. Qed.

Lemma waits_parent_process master_fd child_pid stack :
  respects waits_kept (parent_process master_fd child_pid stack).
Proof.
  unfold parent_process. apply waits_bind.
  { unfold disable_canonical_io, sys_tcgetattr, sys_tcsetattr. waits_tac. }
  intros noncanon. apply waits_bind; [apply waits_forward_all_io|].
  intros _. unfold await_child, sys_waitpid, enable_canonical_io,
    sys_tcsetattr. waits_tac.
Qed.

(** What [main] does once the handler of SIGWINCH is installed. *)
Lemma waits_after_install argv stack :
  respects waits_kept
    (master_fd ← prepare_master_pseudo_terminal;
     slave_name ← slave_pseudo_terminal_name master_fd;
     child_pid ← sys_int fork;
     when (child_pid <? 0) (errno_exit "cannot spawn child process");;
     if 0 <? child_pid then parent_process master_fd child_pid stack
     else
       _ ← sys_int (close master_fd);
       become_session_leader;;
       prepare_slave_pseudo_terminal_fds slave_name;;
       i ← gets optind;
       exec_command (drop (Z.to_nat i) argv)).
Proof.
  unfold prepare_master_pseudo_terminal, slave_pseudo_terminal_name,
    sys_ptsname, become_session_leader, prepare_slave_pseudo_terminal_fds,
    exec_command, sys_execvp, sys_int.
  waits_tac;
    first [ apply waits_set_terminal_size | apply waits_parent_process
          | apply waits_forward_all_io ].
Qed.

Lemma install_sigwinch_handler_no_wait :
  respects (emitted (λ e, is_pselect e = false)) install_sigwinch_handler.
Proof.
  assert (∀ c, is_pselect (Ev c r_void) = false →
            respects (emitted (λ e, is_pselect e = false)) (syscall c))
    as Hcall.
  { intros c Hc w w'. unfold syscall.
    destruct (script w) as [|r rest]; intros [= <-]; [done|].
    eexists [_]. split; [done|]. constructor; [|done]. by destruct c. }
  assert (∀ f, (∀ w, trace (f w) = trace w) →
            respects (emitted (λ e, is_pselect e = false)) (modify f))
    as Hmod.
  { intros f Hf. apply respects_modify. intros w.
    by apply emitted_nothing. }
  assert (∀ message,
            respects (emitted (λ e, is_pselect e = false))
              (errno_exit message : M ())) as Hexit.
  { intros message w w'. unfold errno_exit. unfold_M. intros [= <-].
    eexists [_; _]. split; [by rewrite <- (assoc_L (++))|].
    by repeat constructor. }
  unfold install_sigwinch_handler, sys_sigprocmask, sys_int.
  repeat first
    [ progress unfold when, fail_with
    | apply respects_ret; apply _
    | apply respects_stuck; apply _
    | apply Hexit
    | apply Hcall; done
    | apply Hmod; by intros
    | apply respects_bind; [apply _| |intros ?]
    | case_match ].
Qed.

Lemma install_sigwinch_handler_unblocks w w' :
  install_sigwinch_handler w = Ok () w' → SIGWINCH ∉ mask_for_select w'.
Proof.
  unfold install_sigwinch_handler, sys_sigprocmask, sys_int, errno_exit,
    syscall.
  unfold_M. intros Hrun. run_cases.
  rewrite elem_of_difference, elem_of_singleton. by intros [_ []].
Qed.

(** X5. The program waits with SIGWINCH unblocked, and only then.
    However [main] ends, every [pselect] it has made was given a signal
    mask without SIGWINCH: the mask that [install_sigwinch_handler] took
    from [sigprocmask] and removed SIGWINCH from, which nothing changes
    afterwards. *)
Theorem main_waits_with_sigwinch_unblocked
    (argv : list string) (stack : channel_T * channel_T) (w w' : world) :
  final (main argv stack w) = Some w' →
  ∃ evs,
    trace w' = trace w ++ evs
    ∧ Forall (waits_with (λ mask, SIGWINCH ∉ mask)) evs.
Proof.
  change (final (main argv stack w) = Some w' →
          emitted (waits_with (λ mask, SIGWINCH ∉ mask)) w w').
  unfold main. destruct (_ <=? 0); [by intros [= <-]|].
  unfold mbind at 1, M_bind at 1, modify at 1.
  unfold mbind at 1, M_bind at 1, modify at 1.
  unfold mbind at 1, M_bind at 1, gets at 1.
  cbn [optind with_optind].
  set (skip := (_ <? _) && _).
  intros Hrun.
  lazymatch type of Hrun with
  | final ((when skip _ ≫= ?k) _) = _ =>
      assert (∃ w2, trace w2 = trace w ∧ final (k () w2) = Some w')
        as (w2 & Htr2 & Hrun2)
  end.
  { destruct skip; eexists; (split; [|exact Hrun]); done. }
  clear Hrun. rename Hrun2 into Hrun. cbv beta in Hrun.
  unfold mbind at 1, M_bind at 1, gets at 1 in Hrun.
  enough (emitted (waits_with (λ mask, SIGWINCH ∉ mask)) w2 w')
    as (evs & Htr & Hevs) by (exists evs; by rewrite <- Htr2).
  clear Htr2.
  assert (∀ w0 w0', emitted (λ e, is_pselect e = false) w0 w0' →
            emitted (waits_with (λ mask, SIGWINCH ∉ mask)) w0 w0') as Hweak.
  { intros w0 w0'. apply emitted_impl. by intros [[] r]. }
  apply final_bind in Hrun as [[_ Hrun]|([] & w3 & Hoperand & Hrun)].
  { unfold when in Hrun. destruct (_ =? _); [|by injection Hrun as <-].
    unfold error_exit in Hrun. unfold_M. injection Hrun as <-.
    eexists [_]. split; [done|]. by repeat constructor. }
  apply error_exit_unless_Ok in Hoperand as [_ ->].
  apply final_bind in Hrun as [[_ Hrun]|([] & w4 & Hinstall & Hrun)].
  { by apply Hweak, (install_sigwinch_handler_no_wait _ _ Hrun). }
  trans w4.
  { apply Hweak, install_sigwinch_handler_no_wait. by rewrite Hinstall. }
  apply install_sigwinch_handler_unblocks in Hinstall.
  apply waits_after_install in Hrun as [_ Hrun].
  revert Hrun. apply emitted_impl. intros [[] r]; try done.
  by intros ->.
Qed.

End Waits.

(** ** How the program ends *)

Section Ends.
Context `{Platform}.
Context (k : kind) (k_Aborted : k = kAborted ∨ k = kOutOfFuel).

Lemma never_gets {A} (f : world → A) : never k (gets f).
Proof. intros w. cbn. destruct k_Aborted; congruence. Qed.

Lemma never_modify (f : world → world) : never k (modify f).
Proof. intros w. cbn. destruct k_Aborted; congruence. Qed.

Lemma never_syscall c : never k (syscall c).
Proof.
  intros w. unfold syscall. destruct (script w); cbn;
    destruct k_Aborted; congruence.
Qed.

Lemma never_stuck {A} : never k (stuck : M A).
Proof. intros w. cbn. destruct k_Aborted; congruence. Qed.

Lemma never_exit {A} s : never k (exit s : M A).
Proof. intros w. cbn. destruct k_Aborted; congruence. Qed.

Lemma never_replaced {A} file argv :
  never k (λ w, Replaced file argv w : outcome A).
Proof. intros w. cbn. destruct k_Aborted; congruence. Qed.

Lemma never_error_exit {A} message : never k (error_exit message : M A).
Proof.
  intros w. unfold error_exit. unfold_M. cbn. destruct k_Aborted; congruence.
Qed.

Ltac never_tac :=
  repeat first
    [ progress unfold when, fail_with, receive_sigwinch
    | apply never_ret; destruct k_Aborted; congruence
    | apply never_gets
    | apply never_stuck
    | apply never_exit
    | apply never_replaced
    | apply never_errno_exit; exact k_Aborted
    | apply never_error_exit
    | apply never_syscall
    | apply never_modify
    | apply never_bind; [|intros ?]
    | case_match ].

Lemma never_forward_all_io master_fd incoming outgoing :
  never k (forward_all_io master_fd incoming outgoing).
Proof.
  intros w. unfold forward_all_io. apply forward_loop_never; [|by intros ?..].
  destruct k_Aborted; [by left|right]. split; [done|lia].
Qed.

Lemma never_parent_process master_fd child_pid stack :
  never k (parent_process master_fd child_pid stack).
Proof.
  unfold parent_process. apply never_bind.
  { unfold disable_canonical_io, sys_tcgetattr, sys_tcsetattr. never_tac. }
  intros noncanon. apply never_bind; [apply never_forward_all_io|].
  intros _. unfold await_child, sys_waitpid, enable_canonical_io,
    sys_tcsetattr. never_tac.
Qed.

Lemma never_main argv stack : never k (main argv stack).
Proof.
  unfold main, install_sigwinch_handler, sys_sigprocmask,
    prepare_master_pseudo_terminal, set_terminal_size, sys_ioctl_TIOCGWINSZ,
    slave_pseudo_terminal_name, sys_ptsname, become_session_leader,
    prepare_slave_pseudo_terminal_fds, exec_command, sys_execvp, sys_int.
  never_tac;
    first [apply never_parent_process | apply never_forward_all_io].
Qed.

End Ends.

Section Ending.
Context `{Platform}.

(** X6. No run of [main] fails the assertion of [process_buffer], and
    none needs more turns of the loop than [forward_all_io] is given: the
    program returns, exits, becomes the command, or waits for a call that
    does not return. *)
Theorem main_ends_as_a_process_does
    (argv : list string) (stack : channel_T * channel_T) (w : world) :
  match main argv stack w with
  | Aborted _ | OutOfFuel => False
  | _ => True
  end.
Proof.
  pose proof (never_main kAborted (or_introl eq_refl) argv stack w).
  pose proof (never_main kOutOfFuel (or_intror eq_refl) argv stack w).
  by destruct (main argv stack w).
Qed.
End Ending.

(** ** The signal handler and the master *)

Section Prepare.
Context `{Platform}.

(** X7. [install_sigwinch_handler] blocks SIGWINCH before it installs the
    handler.  When it returns, it has made six calls, none of which
    failed: the two sets were emptied, SIGWINCH was added to the first,
    [sigprocmask] blocked exactly SIGWINCH and gave the mask of before,
    SIGWINCH was deleted from that mask, and [sigaction] came last.
    [mask_for_select] is the mask of before without SIGWINCH, and the
    pending-resize flag was not touched. *)
Theorem install_sigwinch_handler_blocks_before_installing (w w' : world) :
  install_sigwinch_handler w = Ok () w' →
  ∃ before r e old after,
    trace w' =
      trace w ++ before ++
      [Ev (sigprocmask_SIG_BLOCK {[SIGWINCH]}) (r_sigset r e old)] ++ after
    ∧ map call_of before = [sigemptyset; sigemptyset; sigaddset SIGWINCH]
    ∧ map call_of after = [sigdelset SIGWINCH; sigaction SIGWINCH]
    ∧ Forall (λ ev, 0 ≤ ret_of ev) (before ++ after)
    ∧ 0 ≤ r
    ∧ mask_for_select w' = old ∖ {[SIGWINCH]}
    ∧ (SIGWINCH ∉ mask_for_select w')
    ∧ should_set_terminal_size w' = should_set_terminal_size w.
Proof.
  unfold install_sigwinch_handler. intros Hrun.
  apply bind_Ok in Hrun as (r1 & w1 & Hc1 & Hrun).
  apply sys_int_Ok in Hc1 as (e1 & Htr1 & Hg1).
  destruct (Z.ltb_spec r1 0) as [|Hr1]; [done|].
  apply bind_Ok in Hrun as (r2 & w2 & Hc2 & Hrun).
  apply sys_int_Ok in Hc2 as (e2 & Htr2 & Hg2).
  destruct (Z.ltb_spec r2 0) as [|Hr2]; [done|].
  apply bind_Ok in Hrun as ([] & w3 & [= <-] & Hrun).
  apply bind_Ok in Hrun as (r3 & w4 & Hc3 & Hrun).
  apply sys_int_Ok in Hc3 as (e3 & Htr3 & Hg3).
  step_check Hrun Hr3.
  apply bind_Ok in Hrun as ([r4 old] & w5 & Hc4 & Hrun).
  assert (∃ e4, trace w5 =
                  trace w4 ++
                  [Ev (sigprocmask_SIG_BLOCK {[SIGWINCH]})
                     (r_sigset r4 e4 old)]
                ∧ same_globals w4 w5) as (e4 & Htr4 & Hg4).
  { rewrite (right_id_L ∅ (∪)) in Hc4.
    unfold sys_sigprocmask, syscall in Hc4. unfold_M.
    run_cases; by eexists. }
  step_check Hrun Hr4.
  apply bind_Ok in Hrun as ([] & w6 & [= <-] & Hrun).
  apply bind_Ok in Hrun as (r5 & w7 & Hc5 & Hrun).
  apply sys_int_Ok in Hc5 as (e5 & Htr5 & Hg5).
  step_check Hrun Hr5.
  apply bind_Ok in Hrun as ([] & w8 & [= <-] & Hrun).
  apply bind_Ok in Hrun as (r6 & w9 & Hc6 & Hrun).
  apply sys_int_Ok in Hc6 as (e6 & Htr6 & Hg6).
  apply errno_exit_unless_Ok in Hrun as [Hr6 ->].
  Z_bools.
  exists [Ev sigemptyset (r_int r1 e1); Ev sigemptyset (r_int r2 e2);
          Ev (sigaddset SIGWINCH) (r_int r3 e3)], r4, e4, old,
         [Ev (sigdelset SIGWINCH) (r_int r5 e5);
          Ev (sigaction SIGWINCH) (r_int r6 e6)].
  destruct Hg1 as (_&_&Hf1&_), Hg2 as (_&_&Hf2&_), Hg3 as (_&_&Hf3&_),
    Hg4 as (_&_&Hf4&_), Hg5 as (_&_&Hf5&Hm5&_), Hg6 as (_&_&Hf6&Hm6&_).
  cbn in *.
  assert (mask_for_select w9 = old ∖ {[SIGWINCH]}) as Hmask
    by (by rewrite Hm6, Hm5).
  split_and!; try done.
  - rewrite Htr6, Htr5, Htr4, Htr3, Htr2, Htr1.
    by rewrite <- !(assoc_L (++)).
  - by repeat constructor.
  - rewrite Hmask. rewrite elem_of_difference, elem_of_singleton.
    by intros [_ []].
  - congruence.
Qed.

(** X8. The master that [prepare_master_pseudo_terminal] returns is above
    the three standard descriptors, has been granted and unlocked, in this
    order and with success, and has been given the window size of standard
    output when that could be read; the pending-resize flag is clear. *)
Theorem prepare_master_pseudo_terminal_grants_and_unlocks
    (w : world) (fd : Z) (w' : world) :
  prepare_master_pseudo_terminal w = Ok fd w' →
  STDERR_FILENO < fd
  ∧ should_set_terminal_size w' = false
  ∧ ∃ e1 r2 e2 r3 e3 sized,
      trace w' =
        trace w ++
        [Ev posix_openpt (r_int fd e1); Ev (grantpt fd) (r_int r2 e2);
         Ev (unlockpt fd) (r_int r3 e3)] ++ sized
      ∧ 0 ≤ r2 ∧ 0 ≤ r3
      ∧ ∃ g e size,
          (g < 0
           ∧ sized =
               [Ev (ioctl_TIOCGWINSZ STDOUT_FILENO) (r_winsize g e size)])
          ∨ (0 ≤ g
             ∧ ∃ r e',
                 sized =
                   [Ev (ioctl_TIOCGWINSZ STDOUT_FILENO) (r_winsize g e size);
                    Ev (ioctl_TIOCSWINSZ fd size) (r_int r e')]).
Proof.
  unfold prepare_master_pseudo_terminal. intros Hrun.
  step_int Hrun fd' w1 e1 Htr1. step_check Hrun Hfd.
  step_check Hrun Hlow.
  step_int Hrun r2 w2 e2 Htr2. step_check Hrun Hr2.
  step_int Hrun r3 w3 e3 Htr3. step_check Hrun Hr3.
  apply bind_Ok in Hrun as ([] & w4 & Hsize & [= <- <-]).
  apply set_terminal_size_Ok in Hsize as (Hflag & g & e & size & Hcases).
  Z_bools. split; [done|]. split; [done|].
  assert (trace w3 = trace w ++
            [Ev posix_openpt (r_int fd' e1); Ev (grantpt fd') (r_int r2 e2);
             Ev (unlockpt fd') (r_int r3 e3)]) as Htr
    by (by rewrite Htr3, Htr2, Htr1, <- !(assoc_L (++))).
  destruct Hcases as [[Hg Hev]|(Hg & r & e' & Hev)].
  - eexists e1, r2, e2, r3, e3, _. split_and!; [|done..|].
    + by rewrite Hev, Htr, <- !(assoc_L (++)).
    + exists g, e, size. by left.
  - eexists e1, r2, e2, r3, e3, _. split_and!; [|done..|].
    + by rewrite Hev, Htr, <- !(assoc_L (++)).
    + exists g, e, size. right. split; [done|]. by exists r, e'.
Qed.

(** X9. When [posix_openpt] returns one of the descriptors 0, 1 and 2, a
    standard stream was closed: the program says so and exits with
    EXIT_FAILURE, and does nothing with the descriptor. *)
Theorem prepare_master_pseudo_terminal_needs_standard_streams
    (w : world) (fd e : Z) (rest : list response) :
  script w = r_int fd e :: rest →
  0 ≤ fd ≤ STDERR_FILENO →
  prepare_master_pseudo_terminal w =
    Exited EXIT_FAILURE
      (with_trace
         (trace w ++
          [Ev posix_openpt (r_int fd e);
           Ev (fprintf_stderr
                 (program_name w +:+ ": "
                  +:+ "stdin/stdout/stderr are not open" +:+ newline))
              r_void])
         (with_script rest w)).
Proof.
  intros Hscr [Hlo Hhi]. unfold prepare_master_pseudo_terminal, sys_int.
  unfold mbind at 1, M_bind at 1. unfold mbind at 1, M_bind at 1.
  rewrite (syscall_answered _ _ _ _ Hscr). unfold_M. unfold error_exit.
  rewrite !(proj2 (Z.ltb_ge fd 0)), (proj2 (Z.leb_le fd _)) by lia.
  unfold_M. unfold answered. rewrite Hscr. cbn.
  by rewrite <- (assoc_L (++)).
Qed.

End Prepare.

(** ** Raw mode *)

Section Raw.
Context `{Platform}.

Lemma clear_flags_idempotent x m :
  clear_flags (clear_flags x m) m = clear_flags x m.
Proof. unfold clear_flags. by rewrite <- Z.land_assoc, Z.land_diag. Qed.

Lemma clear_flags_testbit x m i :
  0 ≤ i →
  Z.testbit (clear_flags x m) i = Z.testbit x i && negb (Z.testbit m i).
Proof.
  intros Hi. unfold clear_flags. by rewrite Z.land_spec, Z.lnot_spec.
Qed.

Lemma cleared_of_disjoint flags before after f :
  cleared_of flags before after → f ∈ flags → Z.land after f = 0.
Proof.
  intros Hc Hf. apply Z.bits_inj'. intros i Hi.
  rewrite Z.land_spec, Z.bits_0, (Hc i Hi).
  destruct (Z.testbit f i) eqn:Hbit; [|by rewrite andb_false_r].
  assert (existsb (λ f, Z.testbit f i) flags = true) as ->.
  { apply existsb_exists. exists f. by rewrite <- list_elem_of_In. }
  by rewrite andb_false_r.
Qed.

(** X11. What [disable_canonical_io] asks for: in the input flags, the
    output flags and the local flags exactly the bits of the flags it names
    are cleared and every other bit is as before; the control flags are
    untouched; of the control characters, VMIN is 1 and VTIME is 0 and the
    others are as before. *)
Theorem raw_termios_clears_named_flags (t : termios) :
  let raw := raw_termios t in
  cleared_of raw_iflags (c_iflag t) (c_iflag raw)
  ∧ cleared_of [OPOST] (c_oflag t) (c_oflag raw)
  ∧ cleared_of raw_lflags (c_lflag t) (c_lflag raw)
  ∧ (∀ f, f ∈ raw_iflags → Z.land (c_iflag raw) f = 0)
  ∧ Z.land (c_oflag raw) OPOST = 0
  ∧ (∀ f, f ∈ raw_lflags → Z.land (c_lflag raw) f = 0)
  ∧ c_cflag raw = c_cflag t
  ∧ length (c_cc raw) = length (c_cc t)
  ∧ ((VTIME < length (c_cc t))%nat → c_cc raw !! VTIME = Some 0)
  ∧ ((VMIN < length (c_cc t))%nat → VMIN ≠ VTIME →
     c_cc raw !! VMIN = Some 1)
  ∧ (∀ i, i ≠ VMIN → i ≠ VTIME → c_cc raw !! i = c_cc t !! i).
Proof.
  intros raw.
  assert (cleared_of raw_iflags (c_iflag t) (c_iflag raw)) as Hi.
  { intros i Hpos. cbn. rewrite clear_flags_testbit, !Z.lor_spec by done.
    by rewrite orb_false_r. }
  assert (cleared_of [OPOST] (c_oflag t) (c_oflag raw)) as Ho.
  { intros i Hpos. cbn. rewrite clear_flags_testbit by done.
    by rewrite orb_false_r. }
  assert (cleared_of raw_lflags (c_lflag t) (c_lflag raw)) as Hl.
  { intros i Hpos. cbn. rewrite clear_flags_testbit, !Z.lor_spec by done.
    by rewrite orb_false_r. }
  split_and!; try done.
  - intros f. apply (cleared_of_disjoint _ _ _ _ Hi).
  - apply (cleared_of_disjoint _ _ _ _ Ho), list_elem_of_singleton. done.
  - intros f. apply (cleared_of_disjoint _ _ _ _ Hl).
  - cbn. by rewrite !length_insert.
  - intros Hlt. cbn. apply list_lookup_insert_eq. by rewrite length_insert.
  - intros Hlt Hne. cbn. rewrite list_lookup_insert_ne by done.
    by apply list_lookup_insert_eq.
  - intros i Hmin Htime. cbn. by rewrite !list_lookup_insert_ne.
Qed.

(** X12. Raw mode of raw mode is raw mode: [disable_canonical_io] on a
    terminal that is already raw asks for the attributes it has. *)
Theorem raw_termios_idempotent (t : termios) :
  raw_termios (raw_termios t) = raw_termios t.
Proof.
  unfold raw_termios. cbn. rewrite !clear_flags_idempotent. f_equal.
  destruct (decide (VMIN = VTIME)) as [->|Hne].
  - by rewrite !list_insert_insert_eq.
  - rewrite (list_insert_insert_ne _ VMIN VTIME) by done.
    by rewrite !list_insert_insert_eq.
Qed.

End Raw.

(** ** The statements at concrete runs (glibc on Linux) *)


(** A channel that holds "hi" and writes both bytes is READING again. *)
Lemma process_buffer_transition_table_witness :
  channel_ok Run.writing
  ∧ process_buffer Run.writing ∅ {[1]} (Run.start None [r_int 2 0])
    = Ok (with_state READING (with_buffer_position 2 Run.writing))
        (answered (write 1 ["h"%byte; "i"%byte] 2) (r_int 2 0)
           (Run.start None [r_int 2 0])).
Proof.
  assert (channel_ok Run.writing) as Hok by (intros _; cbn; lia).
  split; [exact Hok|].
  destruct (process_buffer_transition_table Run.writing ∅ {[1]}
              (Run.start None [r_int 2 0]) Hok) as (_ & _ & Hwriting).
  destruct (Hwriting eq_refl (proj2 (elem_of_singleton 1 1) eq_refl)
              2 0 [] eq_refl) as (_ & _ & Hdone).
  exact (Hdone eq_refl).
Defined.

(** The loop ends when the master reads an error, the incoming channel
    still READING. *)
Lemma forward_loop_ends_with_outgoing_witness :
  ∃ i' o' w',
    forward_all_io 3 Run.junk Run.junk (Run.start None Run.forwarding)
      = Ok (i', o') w'
    ∧ state i' = READING
    ∧ state o' = INACTIVE.
Proof.
  destruct (forward_all_io 3 Run.junk Run.junk
              (Run.start None Run.forwarding))
    as [[i' o'] w'| | | | | |] eqn:Hrun; try (vm_compute in Hrun; congruence).
  exists i', o', w'. split; [reflexivity|]. split.
  - vm_compute in Hrun. by injection Hrun as <- <- <-.
  - destruct (forward_loop_ends_with_outgoing 3 Run.junk Run.junk)
      as (_ & _ & Hends & _).
    exact (Hends _ _ _ _ Hrun).
Defined.

(** With the incoming channel READING and the outgoing one WRITING, the
    loop waits for standard input to be readable and standard output to be
    writable: the descriptors 0 and 1 are below FD_SETSIZE, 1024. *)
Lemma readiness_interest_per_channel_witness :
  registers_in_range (Channel 0 3 READING [] 0 0)
  ∧ registers_in_range Run.writing
  ∧ forward_step 3 (Channel 0 3 READING [] 0 0) Run.writing
      (Run.start None [])
    = Blocked (pselect 4 {[0]} {[1]} ∅) (Run.start None [])
  ∧ ∃ i' o' w' evs,
      forward_all_io 3 Run.junk Run.junk (Run.start None Run.forwarding)
        = Ok (i', o') w'
      ∧ trace w' = trace (Run.start None Run.forwarding) ++ evs
      ∧ Forall (loop_wait 3) evs.
Proof.
  assert (registers_in_range (Channel 0 3 READING [] 0 0)) as Hincoming
    by (cbn; unfold fd_in_range; cbn; lia).
  assert (registers_in_range Run.writing) as Houtgoing
    by (cbn; unfold fd_in_range; cbn; lia).
  split; [exact Hincoming|]. split; [exact Houtgoing|].
  destruct (readiness_interest_per_channel 3 (Channel 0 3 READING [] 0 0)
              Run.writing Hincoming Houtgoing)
    as (_ & _ & _ & _ & _ & Hblocked & _ & Hloop).
  split; [rewrite (Hblocked (Run.start None []) eq_refl); f_equal|].
  assert (STDERR_FILENO < 3 < FD_SETSIZE) as Hmaster
    by (split; reflexivity).
  specialize (Hloop Run.junk Run.junk (Run.start None Run.forwarding)).
  destruct (forward_all_io 3 Run.junk Run.junk
              (Run.start None Run.forwarding))
    as [[i' o'] w'| | | | | |] eqn:Hrun;
    try (vm_compute in Hrun; discriminate Hrun).
  destruct (Hloop i' o' w' Hmaster eq_refl) as (evs & Htr & Hevs).
  by exists i', o', w', evs.
Defined.

(** A channel that has just read "hi" is reachable, and its offsets are in
    order. *)
Lemma writing_offset_below_length_witness :
  channel_reachable Run.writing
  ∧ buffer_position Run.writing < buffer_length Run.writing.
Proof.
  assert (channel_reachable Run.writing) as Hreach.
  { exists Run.reading. split; [reflexivity|].
    apply rtc_once.
    apply (channel_step_intro _ _ {[3]} ∅
             (Run.start None [r_read 2 0 ["h"%byte; "i"%byte]])
             (answered (read 3 8192) (r_read 2 0 ["h"%byte; "i"%byte])
                (Run.start None [r_read 2 0 ["h"%byte; "i"%byte]]))).
    vm_compute. reflexivity. }
  split; [exact Hreach|].
  destruct writing_offset_below_length as (Hchannel & _).
  destruct (Hchannel Run.writing Hreach) as (Hbelow & _).
  exact (Hbelow eq_refl).
Defined.

(** C7 as stated fails.  The wait is interrupted by SIGWINCH, whose
    handler sets the flag; standard output is not a terminal, so that its
    window size cannot be read: the turn clears the flag and sets no window
    size on the master. *)
Lemma interrupted_wait_applies_no_geometry :
  let w :=
    Run.start None
      [r_select (-1) 4 ∅ ∅ true; r_winsize (-1) 25 (Winsize 0 0 0 0)] in
  ∃ w',
    forward_step 3 Run.reading Run.reading w
      = Ok (Run.reading, Run.reading) w'
    ∧ should_set_terminal_size w' = false
    ∧ trace w' =
        [Ev (pselect 4 {[3]} ∅ ∅) (r_select (-1) 4 ∅ ∅ true);
         Ev (ioctl_TIOCGWINSZ 1) (r_winsize (-1) 25 (Winsize 0 0 0 0))]
    ∧ ¬ ∃ size r, Ev (ioctl_TIOCSWINSZ 3 size) r ∈ trace w'.
Proof.
  intros w.
  destruct (forward_step 3 Run.reading Run.reading w)
    as [[i' o'] w'| | | | | |] eqn:Hrun; try (vm_compute in Hrun; congruence).
  exists w'. vm_compute in Hrun. injection Hrun as <- <- <-.
  split; [reflexivity|]. split; [reflexivity|]. split; [vm_compute; f_equal|].
  intros (size & r & Hin). cbn in Hin.
  apply elem_of_cons in Hin as [Hin|Hin]; [discriminate|].
  apply elem_of_cons in Hin as [Hin|Hin]; [discriminate|].
  by apply elem_of_nil in Hin.
Defined.

(** The same interruption with standard output on a terminal of 25 lines:
    the size is set on the master. *)
Lemma interrupted_wait_does_no_channel_io_witness :
  let w :=
    Run.start None
      [r_select (-1) 4 ∅ ∅ true; r_winsize 0 0 (Winsize 25 80 0 0);
       r_int 0 0] in
  ∃ w',
    forward_step 3 Run.reading Run.reading w
      = Ok (Run.reading, Run.reading) w'
    ∧ should_set_terminal_size w' = false
    ∧ trace w' =
        [Ev (pselect 4 (wait_sets Run.reading Run.reading).1
               (wait_sets Run.reading Run.reading).2 ∅)
           (r_select (-1) 4 ∅ ∅ true);
         Ev (ioctl_TIOCGWINSZ 1) (r_winsize 0 0 (Winsize 25 80 0 0));
         Ev (ioctl_TIOCSWINSZ 3 (Winsize 25 80 0 0)) (r_int 0 0)].
Proof.
  intros w.
  destruct (interrupted_wait_does_no_channel_io 3 Run.reading Run.reading w)
    as (_ & Hinterrupted & _).
  destruct (Hinterrupted (-1) ∅ ∅ true _ eq_refl eq_refl
              (λ _, not_elem_of_empty (C:=gset Z) 28)) as (_ & Hflag).
  destruct (Hflag eq_refl 0 0 (Winsize 25 80 0 0) _ eq_refl) as (_ & Hset).
  exact (Hset (Z.le_refl 0) 0 0 [] eq_refl).
Defined.

(** C8 as stated fails.  A child that calls exit(137) and a child killed by
    signal 9 (SIGKILL) are both reported with status 137. *)
Lemma signal_status_meets_exit_status :
  let exited := Linux.W_EXITCODE 137 0 in
  let killed := Linux.W_EXITCODE 0 9 in
  WIFEXITED exited = true ∧ WEXITSTATUS exited = 137
  ∧ WIFSIGNALED killed = true ∧ WTERMSIG killed = 9
  ∧ translated_status exited = translated_status killed
  ∧ await_child 100 (Run.start None [r_wait 100 0 exited])
    = Ok 137 (answered (waitpid 100) (r_wait 100 0 exited)
                (Run.start None [r_wait 100 0 exited]))
  ∧ await_child 100 (Run.start None [r_wait 100 0 killed])
    = Ok 137 (answered (waitpid 100) (r_wait 100 0 killed)
                (Run.start None [r_wait 100 0 killed])).
Proof. repeat split. Qed.

(** A child killed by signal 9 is reported with 137, which no exit code
    below 128 gives; exit(3) gives 3. *)
Lemma signal_status_has_high_bit_witness :
  let killed := Linux.W_EXITCODE 0 9 in
  let exited := Linux.W_EXITCODE 3 0 in
  WIFSIGNALED killed = true
  ∧ (∃ w', await_child 100 (Run.start None [r_wait 100 0 killed])
             = Ok (9 + 128) w')
  ∧ (∃ w', await_child 100 (Run.start None [r_wait 100 0 exited])
             = Ok 3 w')
  ∧ 3 ≠ 9 + 128.
Proof.
  intros killed exited.
  assert (WIFSIGNALED killed = true) as Hkilled by reflexivity.
  split; [exact Hkilled|].
  destruct (signal_status_has_high_bit 100
              (Run.start None [r_wait 100 0 killed]) 0 killed []
              eq_refl Hkilled)
    as (status & w' & Hrun & _ & Hstatus & _ & Hdiffers).
  assert (status = 9 + 128) as -> by exact Hstatus.
  destruct (Hdiffers 100 (Run.start None [r_wait 100 0 exited]) 0 exited []
              eq_refl eq_refl) as (w0' & Hrun0 & Hne).
  split; [by exists w'|]. split; [by exists w0'|].
  apply Hne. vm_compute. reflexivity.
Defined.

(** The program name alone: usage error. *)
Lemma no_operand_is_usage_error_witness :
  ∃ w',
    main ["ptwrap"] (Run.junk, Run.junk) (Run.start None Run.setup)
      = Exited 1 w'
    ∧ trace w' =
        [Ev (fprintf_stderr
               ("ptwrap" +:+ ": " +:+ "operand missing" +:+ newline))
           r_void]
    ∧ script w' = Run.setup.
Proof.
  destruct (no_operand_is_usage_error "ptwrap" (Run.junk, Run.junk)
              (Run.start None Run.setup)) as (Husage & _).
  exact (Husage ["ptwrap"] (or_introl eq_refl)).
Defined.

(** A write that fails with EAGAIN (11): the channel still holds "hi". *)
Lemma write_error_leaves_channel_witness :
  channel_ok Run.writing
  ∧ ∃ w',
      process_buffer Run.writing ∅ {[1]} (Run.start None [r_int (-1) 11])
        = Ok Run.writing w'
      ∧ trace w' =
          [Ev (write 1 (pending Run.writing) 2) (r_int (-1) 11)].
Proof.
  assert (channel_ok Run.writing) as Hok by (intros _; cbn; lia).
  split; [exact Hok|].
  destruct (write_error_leaves_channel Run.writing ∅ {[1]}
              (Run.start None [r_int (-1) 11]) (-1) 11 [] Hok eq_refl
              (proj2 (elem_of_singleton 1 1) eq_refl) eq_refl eq_refl)
    as (Hkept & _).
  exact Hkept.
Defined.

(** A run against a terminal: raw mode is applied, "hi" is forwarded, the
    child exits with 3, and the cooked attributes are back. *)
Lemma terminal_restored_after_wait_witness :
  let w :=
    Run.start (Some Run.cooked)
      ([Run.ok; Run.ok] ++ Run.forwarding
       ++ [r_wait 100 0 (Linux.W_EXITCODE 3 0); Run.ok]) in
  (∃ w1, disable_canonical_io w = Ok true w1)
  ∧ ∃ w4,
      parent_process 3 100 (Run.junk, Run.junk) w = Ok 3 w4
      ∧ tty w4 = Some Run.cooked.
Proof.
  intros w.
  destruct (disable_canonical_io w) as [b w1| | | | | |] eqn:Hdis;
    try (vm_compute in Hdis; discriminate).
  pose proof Hdis as E1. vm_compute in E1. injection E1 as <- E1.
  split; [by eexists|].
  destruct (terminal_restored_after_wait 3 100 (Run.junk, Run.junk) w
              true w1 Hdis) as (Hreturns & _).
  destruct (forward_all_io 3 Run.junk Run.junk w1)
    as [chans w2| | | | | |] eqn:Hfwd;
    try (rewrite <- E1 in Hfwd; vm_compute in Hfwd; discriminate).
  pose proof Hfwd as E2. rewrite <- E1 in E2. vm_compute in E2.
  injection E2 as _ E2.
  destruct (await_child 100 w2) as [code w3| | | | | |] eqn:Hwait;
    try (rewrite <- E2 in Hwait; vm_compute in Hwait; discriminate).
  pose proof Hwait as E3. rewrite <- E2 in E3. vm_compute in E3.
  injection E3 as <- E3.
  destruct (Hreturns _ _ _ _ Hfwd Hwait) as (Hraw & _).
  assert (script w3 = [r_int 0 0]) as Hscr by (by rewrite <- E3).
  destruct (Hraw eq_refl 0 0 [] Hscr)
    as (t & w4 & Ht & _ & _ & Hparent & _ & Hback).
  exists w4. split; [exact Hparent|]. exact (Hback (Z.le_refl 0)).
Defined.

(** C4 as stated fails, in two ways.  In the first run the attributes are
    captured but raw mode cannot be set ([tcsetattr] fails with EIO): the
    loop finishes, the child is awaited, and [main] returns without any
    restoring call, the wait for the child being its last call.  In the
    second run raw mode is set and the restoring call itself fails: [main]
    returns with the terminal left in raw mode. *)
Lemma terminal_not_restored :
  let child := r_wait 100 0 (Linux.W_EXITCODE 3 0) in
  let raw := tcsetattr_TCSADRAIN 0 (raw_termios Run.cooked) in
  let unset :=
    Run.start (Some Run.cooked)
      (Run.setup ++ [Run.ok; r_int (-1) 5] ++ Run.forwarding ++ [child]) in
  let unrestored :=
    Run.start (Some Run.cooked)
      (Run.setup ++ [Run.ok; Run.ok] ++ Run.forwarding
       ++ [child; r_int (-1) 5]) in
  (∃ w', main ["ptwrap"; "ls"] (Run.junk, Run.junk) unset = Ok 3 w'
         ∧ Ev (tcgetattr 0) Run.ok ∈ trace w'
         ∧ List.filter is_tcsetattr (trace w') = [Ev raw (r_int (-1) 5)]
         ∧ last (trace w') = Some (Ev (waitpid 100) child)
         ∧ tty w' = Some Run.cooked)
  ∧ (∃ w', main ["ptwrap"; "ls"] (Run.junk, Run.junk) unrestored = Ok 3 w'
           ∧ List.filter is_tcsetattr (trace w')
             = [Ev raw Run.ok;
                Ev (tcsetattr_TCSADRAIN 0 Run.cooked) (r_int (-1) 5)]
           ∧ tty w' = Some (raw_termios Run.cooked)
           ∧ tty w' ≠ tty unrestored).
Proof.
  intros child raw unset unrestored. split.
  - destruct (main ["ptwrap"; "ls"] (Run.junk, Run.junk) unset)
      as [code w'| | | | | |] eqn:Hrun;
      try (vm_compute in Hrun; discriminate).
    vm_compute in Hrun. injection Hrun as <- <-.
    eexists. split; [reflexivity|]. split_and!; try reflexivity.
    apply list_elem_of_In. vm_compute. tauto.
  - destruct (main ["ptwrap"; "ls"] (Run.junk, Run.junk) unrestored)
      as [code w'| | | | | |] eqn:Hrun;
      try (vm_compute in Hrun; discriminate).
    vm_compute in Hrun. injection Hrun as <- <-.
    eexists. split; [reflexivity|]. split_and!; try reflexivity.
    vm_compute. discriminate.
Qed.

(** "ls" is typed and the master takes "l" only: "s" is still to be
    sent. *)
Lemma forward_all_io_keeps_bytes_witness :
  ∃ i' o' w' evs,
    forward_all_io 3 Run.junk Run.junk (Run.start None Run.typing)
      = Ok (i', o') w'
    ∧ trace w' = trace (Run.start None Run.typing) ++ evs
    ∧ written_to STDOUT_FILENO evs = read_from 3 evs
    ∧ written_to 3 evs ++ unsent i' = read_from STDIN_FILENO evs
    ∧ unsent i' = ["s"%byte].
Proof.
  destruct (forward_all_io 3 Run.junk Run.junk
              (Run.start None Run.typing))
    as [[i' o'] w'| | | | | |] eqn:Hrun;
    try (vm_compute in Hrun; discriminate Hrun).
  destruct (forward_all_io_keeps_bytes 3 Run.junk Run.junk _ _ _ _
              eq_refl Hrun) as (evs & Htr & Hout & Hin).
  exists i', o', w', evs. split; [reflexivity|].
  split; [exact Htr|]. split; [exact Hout|]. split; [exact Hin|].
  vm_compute in Hrun. by injection Hrun as <- <- <-.
Defined.

(** The same keys with buffers of BUFSIZ bytes. *)
Lemma forward_all_io_stays_in_buffer_witness :
  ∃ i' o' w' evs,
    forward_all_io 3 Run.blank Run.blank (Run.start None Run.typing)
      = Ok (i', o') w'
    ∧ buffer_sized i' ∧ buffer_sized o'
    ∧ trace w' = trace (Run.start None Run.typing) ++ evs
    ∧ Forall in_buffer evs.
Proof.
  assert (buffer_sized Run.blank) as Hsized by (vm_compute; reflexivity).
  assert (kind_of (forward_all_io 3 Run.blank Run.blank
                     (Run.start None Run.typing)) = kOk) as Hkind
    by (vm_compute; reflexivity).
  revert Hkind.
  destruct (forward_all_io 3 Run.blank Run.blank
              (Run.start None Run.typing))
    as [[i' o'] w'| | | | | |] eqn:Hrun; intros Hkind; try discriminate Hkind.
  destruct (forward_all_io_stays_in_buffer 3 Run.blank Run.blank _ _ _ _
              Hsized Hsized Hrun) as (Hi & Ho & evs & Htr & Hevs).
  exists i', o', w', evs. split; [reflexivity|]. by split_and!.
Defined.

(** No pseudo-terminal is left: the program says so and exits. *)
Lemma main_exits_with_diagnostic_witness :
  ∃ w',
    main ["ptwrap"; "ls"] (Run.junk, Run.junk)
      (Run.start None Run.no_pty) = Exited 1 w'
    ∧ program_name w' = "ptwrap"
    ∧ diagnostic w'.
Proof.
  destruct (main ["ptwrap"; "ls"] (Run.junk, Run.junk)
              (Run.start None Run.no_pty))
    as [|s w'| | | | |] eqn:Hrun; try (vm_compute in Hrun; discriminate Hrun).
  destruct (main_exits_with_diagnostic _ _ _ _ _ Hrun)
    as (Hs & [[Hnil _]|(name & operands & Hargv & Hname & Hdiag)]);
    [discriminate Hnil|].
  injection Hargv as <- <-. exists w'. rewrite Hs. by split_and!.
Defined.

(** "ptwrap -- ls -l" executes "ls" with the arguments "ls" and "-l". *)
Lemma main_execs_the_operands_on_the_slave_witness :
  ∃ file args w',
    main ["ptwrap"; "--"; "ls"; "-l"] (Run.junk, Run.junk)
      (Run.start None Run.child) = Replaced file args w'
    ∧ head args = Some file
    ∧ args = ["ls"; "-l"].
Proof.
  assert (∀ file args w',
            main ["ptwrap"; "--"; "ls"; "-l"] (Run.junk, Run.junk)
              (Run.start None Run.child) = Replaced file args w' →
            head args = Some file ∧ args = ["ls"; "-l"]) as Hexec.
  { intros file args w' Hrun.
    destruct (main_execs_the_operands_on_the_slave _ _ _ _ _ _ Hrun)
      as (Hhead & [[_ Hargs]|[Hdashes _]] & _);
      [|exfalso; apply Hdashes; reflexivity].
    split; [exact Hhead|exact Hargs]. }
  destruct (main ["ptwrap"; "--"; "ls"; "-l"] (Run.junk, Run.junk)
              (Run.start None Run.child))
    as [| | |file args w'| | |] eqn:Hrun;
    try (vm_compute in Hrun; discriminate Hrun).
  exists file, args, w'. split; [reflexivity|]. exact (Hexec _ _ _ eq_refl).
Defined.

(** The parent's run: the window changes during the first wait, "hi" is
    forwarded, the child exits with status 3. *)
Lemma main_waits_with_sigwinch_unblocked_witness :
  ∃ w' evs,
    main ["ptwrap"; "ls"] (Run.junk, Run.junk) (Run.start None Run.parent)
      = Ok 3 w'
    ∧ trace w' = trace (Run.start None Run.parent) ++ evs
    ∧ Forall (waits_with (λ mask, SIGWINCH ∉ mask)) evs.
Proof.
  destruct (main ["ptwrap"; "ls"] (Run.junk, Run.junk)
              (Run.start None Run.parent))
    as [code w'| | | | | |] eqn:Hrun;
    try (vm_compute in Hrun; discriminate Hrun).
  assert (final (main ["ptwrap"; "ls"] (Run.junk, Run.junk)
                   (Run.start None Run.parent)) = Some w') as Hfinal
    by (rewrite Hrun; reflexivity).
  destruct (main_waits_with_sigwinch_unblocked _ _ _ _ Hfinal)
    as (evs & Htr & Hevs).
  exists w', evs. split; [|by split].
  vm_compute in Hrun. by injection Hrun as <- _.
Defined.

(** SIGINT and SIGWINCH were blocked: the waits will block SIGINT only. *)
Lemma install_sigwinch_handler_blocks_before_installing_witness :
  ∃ w',
    install_sigwinch_handler
      (Run.start None
         [Run.ok; Run.ok; Run.ok; r_sigset 0 0 {[2; 28]}; Run.ok; Run.ok])
      = Ok () w'
    ∧ mask_for_select w' = {[2]}
    ∧ SIGWINCH ∉ mask_for_select w'.
Proof.
  destruct (install_sigwinch_handler
              (Run.start None
                 [Run.ok; Run.ok; Run.ok; r_sigset 0 0 {[2; 28]};
                  Run.ok; Run.ok]))
    as [[] w'| | | | | |] eqn:Hrun; try (vm_compute in Hrun; discriminate Hrun).
  destruct (install_sigwinch_handler_blocks_before_installing _ _ Hrun)
    as (before & r & e & old & after & _ & _ & _ & _ & _ & _ & Hout & _).
  exists w'. split; [reflexivity|]. split; [|exact Hout].
  vm_compute in Hrun. by injection Hrun as <-.
Defined.

(** The master is descriptor 3 and gets 24 lines of 80 columns. *)
Lemma prepare_master_pseudo_terminal_grants_and_unlocks_witness :
  ∃ w',
    prepare_master_pseudo_terminal
      (Run.start None
         [r_int 3 0; Run.ok; Run.ok; r_winsize 0 0 (Winsize 24 80 0 0);
          Run.ok])
      = Ok 3 w'
    ∧ STDERR_FILENO < 3
    ∧ should_set_terminal_size w' = false.
Proof.
  destruct (prepare_master_pseudo_terminal
              (Run.start None
                 [r_int 3 0; Run.ok; Run.ok;
                  r_winsize 0 0 (Winsize 24 80 0 0); Run.ok]))
    as [fd w'| | | | | |] eqn:Hrun; try (vm_compute in Hrun; discriminate Hrun).
  destruct (prepare_master_pseudo_terminal_grants_and_unlocks _ _ _ Hrun)
    as (Hfd & Hflag & _).
  exists w'. pose proof Hrun as Hfd3. vm_compute in Hfd3.
  injection Hfd3 as <- _. by split_and!.
Defined.

(** Standard error was closed: [posix_openpt] returns descriptor 2. *)
Lemma prepare_master_pseudo_terminal_needs_standard_streams_witness :
  prepare_master_pseudo_terminal (Run.start None [r_int 2 0])
  = Exited EXIT_FAILURE
      (with_trace
         [Ev posix_openpt (r_int 2 0);
          Ev (fprintf_stderr
                ("" +:+ ": " +:+ "stdin/stdout/stderr are not open"
                 +:+ newline)) r_void]
         (with_script [] (Run.start None [r_int 2 0]))).
Proof.
  apply (prepare_master_pseudo_terminal_needs_standard_streams
           (Run.start None [r_int 2 0]) 2 0 []); [reflexivity|].
  unfold STDERR_FILENO. lia.
Defined.

(** The attributes of a terminal in canonical mode: ICANON is cleared and
    a read returns after one byte. *)
Lemma raw_termios_clears_named_flags_witness :
  ICANON ∈ raw_lflags
  ∧ (VMIN < length (c_cc Run.cooked))%nat
  ∧ Z.land (c_lflag (raw_termios Run.cooked)) ICANON = 0
  ∧ c_cc (raw_termios Run.cooked) !! VMIN = Some 1.
Proof.
  assert (ICANON ∈ raw_lflags) as Hflag by (right; left).
  assert (VMIN < length (c_cc Run.cooked))%nat as Hlen by (cbn; lia).
  destruct (raw_termios_clears_named_flags Run.cooked)
    as (_ & _ & _ & _ & _ & Hl & _ & _ & _ & Hmin & _).
  split; [exact Hflag|]. split; [exact Hlen|].
  split; [exact (Hl _ Hflag)|]. apply Hmin; [exact Hlen|discriminate].
Defined.
